(** * visualizer-hook: the numeric analysis core, embedded in Rocq

    The development follows the TypeScript sources

      - [src/utils/audioProcessor.ts]: [processAudioData],
        [extractFrequencyBands], [calculateSpectrumCharacteristics];
      - [src/utils/beatDetection.ts] (the source file exporting
        [BeatDetector], [TempoAnalyzer] and [createBeatAnalyzer]): the classes
        [BeatDetector] and [TempoAnalyzer].

    Numbers.  A JavaScript [number] is modelled by [JS.number]: an exact
    rational, or one of the three non-finite values [+Infinity], [-Infinity],
    [NaN].  The arithmetic follows the IEEE/ECMAScript rules for the
    non-finite values and for division by zero, with a single unsigned
    zero.  On finite values [add], [mul] and [div] are exact; [mul64] and
    [div64] are the binary64 operations (the exact result rounded to the
    nearest double, [Infinity] on overflow) and stand where the result of
    the code depends on the rounding or on the range of a double: the two
    quotients of [getTempo] and the running product of
    [calculateSpectrumCharacteristics].  The functions that
    ECMAScript leaves "implementation-approximated" on ordinary arguments
    ([Math.log], [Math.sqrt], [Math.pow] at a fractional exponent) are
    supplied by an [Engine]; their exactly specified special cases are part
    of the model.  [Date.now()] is an argument of the calls that read the
    clock, an integral count of milliseconds. *)

From Stdlib Require Import ZArith QArith Qround Qabs Qreduction.
From Stdlib Require Qcanon.
From Stdlib Require Import List Bool Lia Lqa Sorted Permutation.
From Stdlib.Strings Require Import Byte.
Import ListNotations.

Set Implicit Arguments.

(* ================================================================== *)
(** * JavaScript values *)
(* ================================================================== *)

Module JS.

(** ** Numbers *)

Inductive number : Type :=
| Fin (q : Q)
| PInf
| NInf
| NaN.

(** Finite results are kept in lowest terms, so that equal numbers are
    syntactically equal. *)
Definition fin (q : Q) : number := Fin (Qred q).

Definition of_Z (z : Z) : number := Fin (inject_Z z).
Definition of_nat (n : nat) : number := of_Z (Z.of_nat n).

Definition Qltb (a b : Q) : bool := negb (Qle_bool b a).

Definition is_finite (x : number) : bool :=
  match x with Fin _ => true | _ => false end.

Definition neg (x : number) : number :=
  match x with
  | Fin q => fin (- q)
  | PInf => NInf
  | NInf => PInf
  | NaN => NaN
  end.

Definition add (x y : number) : number :=
  match x, y with
  | NaN, _ | _, NaN => NaN
  | Fin a, Fin b => fin (a + b)
  | PInf, NInf | NInf, PInf => NaN
  | PInf, _ | _, PInf => PInf
  | NInf, _ | _, NInf => NInf
  end.

Definition sub (x y : number) : number := add x (neg y).

(** [inf * a] for a finite [a]: [NaN] at zero, otherwise the sign rule. *)
Definition scale_inf (positive : bool) (a : Q) : number :=
  if Qeq_bool a 0 then NaN
  else if Bool.eqb positive (Qltb 0 a) then PInf else NInf.

Definition mul (x y : number) : number :=
  match x, y with
  | NaN, _ | _, NaN => NaN
  | Fin a, Fin b => fin (a * b)
  | Fin a, PInf | PInf, Fin a => scale_inf true a
  | Fin a, NInf | NInf, Fin a => scale_inf false a
  | PInf, PInf | NInf, NInf => PInf
  | PInf, NInf | NInf, PInf => NInf
  end.

(** Division: a finite number over zero is an infinity, zero over zero is
    [NaN]; the zero is the positive one. *)
Definition div (x y : number) : number :=
  match x, y with
  | NaN, _ | _, NaN => NaN
  | Fin a, Fin b =>
      if Qeq_bool b 0 then
        if Qeq_bool a 0 then NaN else if Qltb 0 a then PInf else NInf
      else fin (a / b)
  | Fin _, (PInf | NInf) => Fin 0
  | (PInf | NInf), (PInf | NInf) => NaN
  | PInf, Fin b => if Qle_bool 0 b then PInf else NInf
  | NInf, Fin b => if Qle_bool 0 b then NInf else PInf
  end.

(** Comparisons; every comparison with [NaN] is false. *)
Definition ltb (x y : number) : bool :=
  match x, y with
  | NaN, _ | _, NaN => false
  | Fin a, Fin b => Qltb a b
  | NInf, (Fin _ | PInf) => true
  | Fin _, PInf => true
  | _, _ => false
  end.

Definition leb (x y : number) : bool :=
  match x, y with
  | NaN, _ | _, NaN => false
  | Fin a, Fin b => Qle_bool a b
  | NInf, _ => true
  | _, PInf => true
  | _, _ => false
  end.

Definition gtb (x y : number) : bool := ltb y x.
Definition geb (x y : number) : bool := leb y x.

(** ** Rounding to binary64

    Where the result of the code depends on the rounding or on the range
    of a [number] (the two quotients of [getTempo], the running product of
    [calculateSpectrumCharacteristics]) the operation is the IEEE 754
    binary64 one: the exact result rounded to the nearest double, ties to
    the even significand, [Infinity] from [2 ^ 1024] on. *)

(** [2 ^ k] for an integer [k]. *)
Definition pow2 (k : Z) : Q :=
  if (0 <=? k)%Z then inject_Z (2 ^ k) else 1 # Z.to_pos (2 ^ (- k)).

(** [floor (log2 a)] for a positive [a]. *)
Definition Qlog2 (a : Q) : Z :=
  let k := (Z.log2 (Qnum a) - Z.log2 (Zpos (Qden a)))%Z in
  if Qle_bool (pow2 k) a then k else (k - 1)%Z.

(** The integer nearest to [x], the even one of the two when [x] is
    halfway. *)
Definition nearest_even (x : Q) : Z :=
  let f := Qfloor x in
  match Qcompare (x - inject_Z f) (1 # 2) with
  | Lt => f
  | Gt => (f + 1)%Z
  | Eq => if Z.even f then f else (f + 1)%Z
  end.

(** The exponent of the last bit of the significand of the double nearest
    to a positive [a]: 53 bits, and never below that of the subnormal
    numbers. *)
Definition last_bit (a : Q) : Z := Z.max (Qlog2 a - 52) (-1074).

(** The double nearest to [q]. *)
Definition round64 (q : Q) : number :=
  if Qeq_bool q 0 then Fin 0
  else
    let a := Qabs q in
    let e := last_bit a in
    let r := inject_Z (nearest_even (a / pow2 e)) * pow2 e in
    if Qle_bool (pow2 1024) r
    then (if Qle_bool 0 q then PInf else NInf)
    else fin (if Qle_bool 0 q then r else - r).

(** [x * y] and [x / y] on doubles. *)
Definition mul64 (x y : number) : number :=
  match mul x y with Fin q => round64 q | r => r end.

Definition div64 (x y : number) : number :=
  match div x y with Fin q => round64 q | r => r end.

(** ** The [Math] object *)

Definition Math_abs (x : number) : number :=
  match x with
  | Fin q => fin (Qabs q)
  | PInf | NInf => PInf
  | NaN => NaN
  end.

Definition Math_floor (x : number) : number :=
  match x with Fin q => of_Z (Qfloor q) | _ => x end.

Definition Math_ceil (x : number) : number :=
  match x with Fin q => of_Z (Qceiling q) | _ => x end.

(** [Math.round] rounds to the nearest integer, ties towards [+Infinity]. *)
Definition Math_round (x : number) : number :=
  match x with Fin q => of_Z (Qfloor (q + (1 # 2))) | _ => x end.

Definition Math_max (x y : number) : number :=
  match x, y with
  | NaN, _ | _, NaN => NaN
  | _, _ => if ltb x y then y else x
  end.

Definition Math_min (x y : number) : number :=
  match x, y with
  | NaN, _ | _, NaN => NaN
  | _, _ => if ltb y x then y else x
  end.

(** The part of [Math] that ECMAScript leaves to the implementation: the
    value returned on an ordinary argument (positive and finite, away from
    the special cases listed with each function below). *)
Class Engine : Type := {
  log_approx : Q -> Q;
  sqrt_approx : Q -> Q;
  pow_approx : Q -> Q -> Q
}.

Definition is_integer (q : Q) : bool := Qeq_bool q (inject_Z (Qfloor q)).

Section WithEngine.
Context {E : Engine}.

(** [Math.log]: [NaN] below zero, [-Infinity] at zero, exactly [0] at one. *)
Definition Math_log (x : number) : number :=
  match x with
  | NaN | NInf => NaN
  | PInf => PInf
  | Fin q =>
      if Qltb q 0 then NaN
      else if Qeq_bool q 0 then NInf
      else if Qeq_bool q 1 then Fin 0
      else fin (log_approx q)
  end.

(** [Math.sqrt]: [NaN] below zero, zero at zero. *)
Definition Math_sqrt (x : number) : number :=
  match x with
  | NaN | NInf => NaN
  | PInf => PInf
  | Fin q =>
      if Qltb q 0 then NaN
      else if Qeq_bool q 0 then Fin 0
      else fin (sqrt_approx q)
  end.

(** [Math.pow], after the case list of ECMAScript's
    Number::exponentiate.  An integral exponent is computed exactly. *)
Definition Math_pow (base exponent : number) : number :=
  match exponent with
  | NaN => NaN
  | PInf =>
      match Math_abs base with
      | NaN => NaN
      | Fin a => if Qltb 1 a then PInf else if Qeq_bool a 1 then NaN else Fin 0
      | _ => PInf
      end
  | NInf =>
      match Math_abs base with
      | NaN => NaN
      | Fin a => if Qltb 1 a then Fin 0 else if Qeq_bool a 1 then NaN else PInf
      | _ => Fin 0
      end
  | Fin e =>
      if Qeq_bool e 0 then Fin 1
      else
        match base with
        | NaN => NaN
        | PInf => if Qltb 0 e then PInf else Fin 0
        | NInf =>
            if Qltb 0 e
            then (if is_integer e && Z.odd (Qfloor e) then NInf else PInf)
            else Fin 0
        | Fin b =>
            if Qeq_bool b 0 then (if Qltb 0 e then Fin 0 else PInf)
            else if is_integer e then fin (Qpower b (Qfloor e))
            else if Qltb b 0 then NaN
            else fin (pow_approx b e)
        end
  end.
End WithEngine.

(** ** Values and arrays *)

(** What an array read can produce: a number, or [undefined] when the index
    names no element. *)
Inductive value : Type :=
| VUndef
| VNum (x : number).

Definition ToNumber (v : value) : number :=
  match v with VUndef => NaN | VNum x => x end.

(** [arr[i]] for a number [i]: an element only at an integral index inside
    the array. *)
Definition index {A : Type} (arr : list A) (i : number) : option A :=
  match i with
  | Fin q =>
      if is_integer q && (0 <=? Qfloor q)%Z
      then nth_error arr (Z.to_nat (Qfloor q))
      else None
  | _ => None
  end.

(** Reading an array whose elements are stored as [A] and seen as numbers
    through [inj]. *)
Definition read {A : Type} (inj : A -> number) (arr : list A) (i : number) : value :=
  match index arr i with Some a => VNum (inj a) | None => VUndef end.

Definition get (arr : list value) (i : number) : value :=
  match index arr i with Some v => v | None => VUndef end.

Definition of_byte (b : byte) : number := of_Z (Z.of_N (Byte.to_N b)).

(** Reading a [Uint8Array]. *)
Definition get_u8 (arr : list byte) (i : number) : value := read of_byte arr i.

(** Reading a [number[]] (or a [Uint8Array] given by its numbers). *)
Definition get_num (arr : list number) (i : number) : value := read (fun x => x) arr i.

(** [arr[i] = v]; writing past the end extends the array. *)
Fixpoint set (arr : list value) (i : nat) (v : value) : list value :=
  match i, arr with
  | O, [] => [v]
  | O, _ :: rest => v :: rest
  | S j, [] => VUndef :: set [] j v
  | S j, x :: rest => x :: set rest j v
  end.

(** Errors the embedded code can throw. *)
Inductive JsError : Type :=
| RangeError.

Inductive completion (A : Type) : Type :=
| Normal (a : A)
| Throw (e : JsError).
Arguments Normal {A} a.
Arguments Throw {A} e.

(** [new Array(n)]: [n] empty slots, or a [RangeError] when [n] is not an
    array length. *)
Definition new_Array (n : Z) : completion (list value) :=
  if ((0 <=? n) && (n <? 2 ^ 32))%Z
  then Normal (repeat VUndef (Z.to_nat n))
  else Throw RangeError.

(** [for (let i = lo; i < lo + count; i++) s = body i s]. *)
Definition for_range {S : Type} (lo count : nat) (body : nat -> S -> S) (s : S) : S :=
  fold_left (fun acc i => body i acc) (seq lo count) s.

(** [arr.sort((a, b) => a - b)] on integral numbers: ascending order. *)
Fixpoint insert_sorted (x : Z) (l : list Z) : list Z :=
  match l with
  | [] => [x]
  | y :: rest => if (x <=? y)%Z then x :: l else y :: insert_sorted x rest
  end.

Definition sort_numeric (l : list Z) : list Z :=
  fold_right insert_sorted [] l.

End JS.

(* ================================================================== *)
(** * [src/utils/audioProcessor.ts] *)
(* ================================================================== *)

Module AudioProcessor.
Import JS.

(** [AudioData] (src/types/index.ts): the two [Uint8Array]s, the sample rate
    read through [audioContext.sampleRate], and [bufferLength]. *)
Record AudioData : Type := {
  frequencyData : list byte;
  timeData : list byte;
  sampleRate : number;
  bufferLength : Z
}.

(** [DataProcessorOptions]; an absent field is [None]. *)
Record DataProcessorOptions : Type := {
  normalize : option bool;
  logarithmic : option bool;
  smoothing : option number
}.

Definition no_options : DataProcessorOptions :=
  {| normalize := None; logarithmic := None; smoothing := None |}.

(** [VisualizerProcessedData]. *)
Module Processed.
Record dominant_t : Type := {
  frequency : number;
  amplitude : number;
  index : nat
}.
Record t : Type := {
  frequencyData : list value;
  timeData : list value;
  volume : number;
  peakLevel : number;
  isActive : bool;
  dominant : dominant_t
}.
End Processed.

(** A destructuring default, [{ x = d } = options]. *)
Definition or_default {A : Type} (d : A) (o : option A) : A :=
  match o with Some a => a | None => d end.

Definition bind {A B : Type} (c : completion A) (k : A -> completion B) : completion B :=
  match c with Normal a => k a | Throw e => Throw e end.

Notation "x <- c ;; k" := (bind c (fun x => k))
  (at level 61, c at next level, right associativity).

Section WithEngine.
Context {E : Engine}.

(** The first loop: copy the raw magnitudes, keep the first largest one. *)
Definition scan_frequency (frequencyData : list byte) (i : nat)
    (st : list value * nat * number) : list value * nat * number :=
  let '(processedFrequencyData, maxFrequencyIndex, maxFrequencyValue) := st in
  let value := get_u8 frequencyData (of_nat i) in
  let processedFrequencyData := set processedFrequencyData i value in
  if gtb (ToNumber value) maxFrequencyValue
  then (processedFrequencyData, i, ToNumber value)
  else (processedFrequencyData, maxFrequencyIndex, maxFrequencyValue).

(** The second loop: bytes to [-1, 1], and the running sum of magnitudes. *)
Definition scan_time (timeData : list byte) (i : nat)
    (st : list value * number) : list value * number :=
  let '(processedTimeData, volumeSum) := st in
  let value := get_u8 timeData (of_nat i) in
  let normalizedValue := sub (div (ToNumber value) (Fin 128)) (Fin 1) in
  (set processedTimeData i (VNum normalizedValue),
   add volumeSum (Math_abs normalizedValue)).

(** The body of the normalisation loop. *)
Definition normalize_bin (logarithmic : bool) (maxFrequencyValue : number)
    (i : nat) (processedFrequencyData : list value) : list value :=
  let processedFrequencyData :=
    set processedFrequencyData i
      (VNum (div (ToNumber (get processedFrequencyData (of_nat i))) maxFrequencyValue)) in
  if logarithmic then
    let logBase := Fin 10 in
    let minValue := Fin (1 # 1000) in
    let value := Math_max (ToNumber (get processedFrequencyData (of_nat i))) minValue in
    set processedFrequencyData i
      (VNum (div (Math_log (add (mul value (sub logBase (Fin 1))) (Fin 1)))
                 (Math_log logBase)))
  else processedFrequencyData.

Definition processAudioData (audioData : AudioData) (options : DataProcessorOptions)
    : completion Processed.t :=
  let normalize := or_default true (normalize options) in
  let logarithmic := or_default false (logarithmic options) in
  let bufferLength := bufferLength audioData in
  let count := Z.to_nat bufferLength in
  processedFrequencyData <- new_Array bufferLength ;;
  let '(processedFrequencyData, maxFrequencyIndex, maxFrequencyValue) :=
    for_range 0 count (scan_frequency (frequencyData audioData))
              (processedFrequencyData, 0%nat, Fin 0) in
  let nyquist := div (sampleRate audioData) (Fin 2) in
  let maxFrequency :=
    div (mul (of_nat maxFrequencyIndex) nyquist) (of_Z bufferLength) in
  processedTimeData <- new_Array bufferLength ;;
  let '(processedTimeData, volumeSum) :=
    for_range 0 count (scan_time (timeData audioData)) (processedTimeData, Fin 0) in
  let volume := div volumeSum (of_Z bufferLength) in
  let processedFrequencyData :=
    if normalize && gtb maxFrequencyValue (Fin 0)
    then for_range 0 count (normalize_bin logarithmic maxFrequencyValue)
                   processedFrequencyData
    else processedFrequencyData in
  Normal {|
    Processed.frequencyData := processedFrequencyData;
    Processed.timeData := processedTimeData;
    Processed.volume := volume;
    Processed.peakLevel := div maxFrequencyValue (Fin 255);
    Processed.isActive := gtb volume (Fin (5 # 100));
    Processed.dominant := {|
      Processed.frequency := maxFrequency;
      Processed.amplitude := div maxFrequencyValue (Fin 255);
      Processed.index := maxFrequencyIndex
    |}
  |}.
End WithEngine.

Definition default_bands : list number :=
  map of_Z [60; 170; 310; 600; 1000; 3000; 6000; 12000; 14000; 16000]%Z.

(** [extractFrequencyBands]; an omitted argument is [None] and takes the
    default of the signature. *)
Definition extractFrequencyBands (frequencyData : list number)
    (bands : option (list number)) (sampleRate : option number)
    (bufferLength : option number) : list value :=
  let bands := or_default default_bands bands in
  let sampleRate := or_default (Fin 44100) sampleRate in
  let bufferLength := or_default (of_nat (length frequencyData)) bufferLength in
  let nyquist := div sampleRate (Fin 2) in
  let result := repeat VUndef (length bands) in
  for_range 0 (length bands)
    (fun i result =>
       let index :=
         Math_round (div (mul (ToNumber (get_num bands (of_nat i))) bufferLength) nyquist) in
       set result i (get_num frequencyData (Math_min index (sub bufferLength (Fin 1)))))
    result.

Module Spectrum.
Record t : Type := {
  centroid : number;
  spread : number;
  flatness : number
}.
End Spectrum.

Section WithEngine.
Context {E : Engine}.

(** The accumulation loop of [calculateSpectrumCharacteristics]:
    [(sum, weightedSum, product)]. *)
Definition accumulate (frequencyData : list number) (nyquist bufferLength : number)
    (i : nat) (st : number * number * number) : number * number * number :=
  let '(sum, weightedSum, product) := st in
  let frequency := div (mul (of_nat i) nyquist) bufferLength in
  let amplitude := ToNumber (get_num frequencyData (of_nat i)) in
  let sum := add sum amplitude in
  let weightedSum := add weightedSum (mul frequency amplitude) in
  if gtb amplitude (Fin 0)
  then (sum, weightedSum, mul64 product amplitude)
  else (sum, weightedSum, product).

Definition accumulate_spread (frequencyData : list number)
    (nyquist bufferLength centroid : number) (i : nat) (spread : number) : number :=
  let frequency := div (mul (of_nat i) nyquist) bufferLength in
  let amplitude := ToNumber (get_num frequencyData (of_nat i)) in
  add spread (mul (Math_pow (sub frequency centroid) (Fin 2)) amplitude).

Definition calculateSpectrumCharacteristics (frequencyData : list number)
    (sampleRate : option number) : Spectrum.t :=
  let sampleRate := or_default (Fin 44100) sampleRate in
  let count := length frequencyData in
  let bufferLength := of_nat count in
  let nyquist := div sampleRate (Fin 2) in
  let '(sum, weightedSum, product) :=
    for_range 0 count (accumulate frequencyData nyquist bufferLength)
              (Fin 0, Fin 0, Fin 1) in
  let centroid := if gtb sum (Fin 0) then div weightedSum sum else Fin 0 in
  let spread :=
    if gtb sum (Fin 0)
    then Math_sqrt
           (div (for_range 0 count
                   (accumulate_spread frequencyData nyquist bufferLength centroid)
                   (Fin 0))
                sum)
    else Fin 0 in
  let geometricMean :=
    if gtb sum (Fin 0) then Math_pow product (div (Fin 1) bufferLength) else Fin 0 in
  let arithmeticMean := div sum bufferLength in
  let flatness :=
    if gtb arithmeticMean (Fin 0) then div geometricMean arithmeticMean else Fin 0 in
  {| Spectrum.centroid := centroid;
     Spectrum.spread := spread;
     Spectrum.flatness := flatness |}.
End WithEngine.

End AudioProcessor.

(* ================================================================== *)
(** * [src/utils/beatDetection.ts] *)
(* ================================================================== *)

Module BeatDetection.
Import JS AudioProcessor.

Record FrequencyRange : Type := {
  low : number;
  high : number
}.

(** [BeatDetectorOptions], every field optional. *)
Module Partial.
Record t : Type := {
  threshold : option number;
  decayRate : option number;
  minTimeBetweenBeats : option number;
  frequencyRange : option FrequencyRange
}.
Definition empty : t :=
  {| threshold := None; decayRate := None;
     minTimeBetweenBeats := None; frequencyRange := None |}.
End Partial.

(** [Required<BeatDetectorOptions>]. *)
Module Options.
Record t : Type := {
  threshold : number;
  decayRate : number;
  minTimeBetweenBeats : number;
  frequencyRange : FrequencyRange
}.
End Options.

Module BeatInfo.
Record t : Type := {
  isBeat : bool;
  energy : number;
  averageEnergy : number;
  delta : number;
  time : Z
}.
End BeatInfo.

(** The private fields of the class [BeatDetector].  Times are the integral
    millisecond counts that [Date.now()] returns. *)
Module BeatDetector.
Record t : Type := {
  options : Options.t;
  averageEnergy : number;
  lastBeatTime : Z;
  energyHistory : list number
}.
End BeatDetector.

Definition historySize : nat := 43.

Definition constructor (options : Partial.t) : BeatDetector.t :=
  {| BeatDetector.options := {|
       Options.threshold := or_default (Fin (15 # 100)) (Partial.threshold options);
       Options.decayRate := or_default (Fin (98 # 100)) (Partial.decayRate options);
       Options.minTimeBetweenBeats :=
         or_default (Fin 250) (Partial.minTimeBetweenBeats options);
       Options.frequencyRange :=
         or_default {| low := Fin 60; high := Fin 120 |} (Partial.frequencyRange options)
     |};
     BeatDetector.averageEnergy := Fin 0;
     BeatDetector.lastBeatTime := 0;
     BeatDetector.energyHistory := repeat (Fin 0) historySize |}.

Definition reset (self : BeatDetector.t) : BeatDetector.t :=
  {| BeatDetector.options := BeatDetector.options self;
     BeatDetector.averageEnergy := Fin 0;
     BeatDetector.lastBeatTime := 0;
     BeatDetector.energyHistory := repeat (Fin 0) historySize |}.

Definition updateOptions (self : BeatDetector.t) (options : Partial.t) : BeatDetector.t :=
  let old := BeatDetector.options self in
  {| BeatDetector.options := {|
       Options.threshold := or_default (Options.threshold old) (Partial.threshold options);
       Options.decayRate := or_default (Options.decayRate old) (Partial.decayRate options);
       Options.minTimeBetweenBeats :=
         or_default (Options.minTimeBetweenBeats old) (Partial.minTimeBetweenBeats options);
       Options.frequencyRange :=
         or_default (Options.frequencyRange old) (Partial.frequencyRange options)
     |};
     BeatDetector.averageEnergy := BeatDetector.averageEnergy self;
     BeatDetector.lastBeatTime := BeatDetector.lastBeatTime self;
     BeatDetector.energyHistory := BeatDetector.energyHistory self |}.

Section WithEngine.
Context {E : Engine}.

(** One round of [energy += Math.pow(frequencyData[i] / 255, 2)]; the
    second component records the index that was read. *)
Definition energy_step (frequencyData : list byte)
    (acc : number * list number) (i : number) : number * list number :=
  (add (fst acc)
       (Math_pow (div (ToNumber (get_u8 frequencyData i)) (Fin 255)) (Fin 2)),
   snd acc ++ [i]).

(** The values [i] takes in [for (let i = l; i <= h; i++)] for finite
    bounds. *)
Definition loop_indices (l h : Q) : list number :=
  map (fun k => fin (l + inject_Z (Z.of_nat k)))
      (seq 0 (Z.to_nat (Qfloor (h - l) + 1))).

(** [for (let i = lowIndex; i <= highIndex; i++) ...]: the energy summed
    and the indices read, or [None] when the loop never ends (an infinite
    bound that [i++] cannot pass). *)
Definition sum_energy (frequencyData : list byte) (lowIndex highIndex : number)
    : option (number * list number) :=
  match lowIndex, highIndex with
  | NaN, _ | _, NaN => Some (Fin 0, [])
  | Fin l, Fin h =>
      Some (fold_left (energy_step frequencyData) (loop_indices l h) (Fin 0, []))
  | Fin _, NInf | PInf, Fin _ | PInf, NInf => Some (Fin 0, [])
  | Fin _, PInf | PInf, PInf | NInf, _ => None
  end.

Definition band_indices (self : BeatDetector.t) (audioData : AudioData)
    : number * number :=
  let nyquist := div (sampleRate audioData) (Fin 2) in
  let range := Options.frequencyRange (BeatDetector.options self) in
  let bufferLength := of_Z (bufferLength audioData) in
  (Math_floor (div (mul (low range) bufferLength) nyquist),
   Math_ceil (div (mul (high range) bufferLength) nyquist)).

(** [detect]; [now] is the reading of [Date.now()] taken by the call.
    [None] stands for a call that does not return. *)
Definition detect (self : BeatDetector.t) (audioData : option AudioData) (now : Z)
    : option (BeatDetector.t * BeatInfo.t) :=
  match audioData with
  | None =>
      Some (self,
            {| BeatInfo.isBeat := false;
               BeatInfo.energy := Fin 0;
               BeatInfo.averageEnergy := Fin 0;
               BeatInfo.delta := Fin 0;
               BeatInfo.time := now |})
  | Some audioData =>
      let opts := BeatDetector.options self in
      let '(lowIndex, highIndex) := band_indices self audioData in
      match sum_energy (frequencyData audioData) lowIndex highIndex with
      | None => None
      | Some (energy, _) =>
          let energy :=
            if gtb highIndex lowIndex
            then div energy (add (sub highIndex lowIndex) (Fin 1))
            else energy in
          let energyHistory := tl (BeatDetector.energyHistory self ++ [energy]) in
          let averageEnergy :=
            div (fold_left add energyHistory (Fin 0)) (of_nat historySize) in
          let averageEnergy' :=
            add (mul (BeatDetector.averageEnergy self) (Options.decayRate opts))
                (mul averageEnergy (sub (Fin 1) (Options.decayRate opts))) in
          let delta := sub energy averageEnergy' in
          let currentTime := now in
          let isBeat :=
            gtb delta (Options.threshold opts)
            && gtb (sub (of_Z currentTime) (of_Z (BeatDetector.lastBeatTime self)))
                   (Options.minTimeBetweenBeats opts) in
          Some ({| BeatDetector.options := opts;
                   BeatDetector.averageEnergy := averageEnergy';
                   BeatDetector.lastBeatTime :=
                     if isBeat then currentTime else BeatDetector.lastBeatTime self;
                   BeatDetector.energyHistory := energyHistory |},
                {| BeatInfo.isBeat := isBeat;
                   BeatInfo.energy := energy;
                   BeatInfo.averageEnergy := averageEnergy';
                   BeatInfo.delta := delta;
                   BeatInfo.time := currentTime |})
      end
  end.

(** The indices of [frequencyData] that a call of [detect] reads. *)
Definition detect_reads (self : BeatDetector.t) (audioData : AudioData)
    : option (list number) :=
  let '(lowIndex, highIndex) := band_indices self audioData in
  option_map snd (sum_energy (frequencyData audioData) lowIndex highIndex).

(** A sequence of [detect] calls on one detector: the results in call
    order, each with the state the call started from. *)
Fixpoint detect_all (self : BeatDetector.t) (calls : list (option AudioData * Z))
    : option (list (BeatDetector.t * BeatInfo.t)) :=
  match calls with
  | [] => Some []
  | (audioData, now) :: rest =>
      match detect self audioData now with
      | None => None
      | Some (self', info) =>
          option_map (cons (self, info)) (detect_all self' rest)
      end
  end.
End WithEngine.

(** ** [TempoAnalyzer] *)

Definition maxHistorySize : nat := 24.

(** The one field of the class, [beatTimes]. *)
Definition TempoAnalyzer : Type := list Z.

Definition new_TempoAnalyzer : TempoAnalyzer := [].

Definition addBeat (beatTimes : TempoAnalyzer) (time : Z) : TempoAnalyzer :=
  let beatTimes := beatTimes ++ [time] in
  if (maxHistorySize <? length beatTimes)%nat then tl beatTimes else beatTimes.

Definition tempo_reset (beatTimes : TempoAnalyzer) : TempoAnalyzer := [].

(** [getTempo].  The stored times are clock readings in whole milliseconds;
    their differences and the sums of those are whole numbers, which doubles
    hold exactly, as they do the products by [0.25], [0.75] and [1.5].  The
    two quotients, the average interval and [60000 / averageInterval], are
    each rounded to a double. *)
Definition getTempo (beatTimes : TempoAnalyzer) : number :=
  if (length beatTimes <? 4)%nat then Fin 0
  else
    let intervals :=
      for_range 1 (length beatTimes - 1)
        (fun i intervals =>
           intervals ++ [(nth i beatTimes 0 - nth (i - 1) beatTimes 0)%Z])
        [] in
    let sorted := sort_numeric intervals in
    let q1Index := Math_floor (mul (of_nat (length sorted)) (Fin (25 # 100))) in
    let q3Index := Math_floor (mul (of_nat (length sorted)) (Fin (75 # 100))) in
    let at_ (i : number) := ToNumber (read of_Z sorted i) in
    let iqr := sub (at_ q3Index) (at_ q1Index) in
    let lowerBound := sub (at_ q1Index) (mul (Fin (15 # 10)) iqr) in
    let upperBound := add (at_ q3Index) (mul (Fin (15 # 10)) iqr) in
    let filteredIntervals :=
      filter (fun i => geb (of_Z i) lowerBound && leb (of_Z i) upperBound) intervals in
    if (length filteredIntervals =? 0)%nat then Fin 0
    else
      let averageInterval :=
        div64 (fold_left (fun sum i => add sum (of_Z i)) filteredIntervals (Fin 0))
              (of_nat (length filteredIntervals)) in
      Math_round (div64 (Fin 60000) averageInterval).

End BeatDetection.

(* ================================================================== *)
(** * A concrete engine *)
(* ================================================================== *)

(** An [Engine] to run the model with.  Each function returns the exact
    value where that value is rational and is reached by the method used,
    and a rational approximation otherwise. *)
Module Reference.
Import JS.

(** The integer [q]-th root of [n >= 0], rounded down, by bisection. *)
Fixpoint bisect_root (fuel : nat) (q : positive) (n lo hi : Z) : Z :=
  match fuel with
  | O => lo
  | S fuel' =>
      if (hi - lo <=? 1)%Z then lo
      else
        let mid := ((lo + hi) / 2)%Z in
        if (mid ^ Zpos q <=? n)%Z
        then bisect_root fuel' q n mid hi
        else bisect_root fuel' q n lo mid
  end.

Definition Zroot (q : positive) (n : Z) : Z :=
  bisect_root (S (Z.to_nat (Z.log2_up (n + 1)))) q n 0 (n + 1).

Definition precision : Z := 2 ^ 32.

(** The [q]-th root of a positive rational, to [1 / precision]. *)
Definition Qroot (q : positive) (x : Q) : Q :=
  let n := Qnum x in
  let d := Zpos (Qden x) in
  Qred (Qmake (Zroot q (n * d ^ (Zpos q - 1) * precision ^ Zpos q))
              (Z.to_pos (d * precision))).

(** [ln x] through the first two terms of [2 * atanh ((x - 1) / (x + 1))]. *)
Definition log_series (x : Q) : Q :=
  let t := (x - 1) / (x + 1) in
  2 * t + (2 # 3) * (t * t * t).

Definition sqrt_root (x : Q) : Q := Qroot 2 (Qred x).

(** [b ^ (p / q)] as the [q]-th root of [b ^ p]. *)
Definition pow_root (b e : Q) : Q :=
  let e := Qred e in
  Qroot (Qden e) (Qred (Qpower b (Qnum e))).

#[global] Instance engine : Engine := {|
  log_approx := log_series;
  sqrt_approx := sqrt_root;
  pow_approx := pow_root
|}.

End Reference.

(* ================================================================== *)
(** * [createBeatAnalyzer] (src/utils/beatDetection.ts) *)
(* ================================================================== *)

Module BeatAnalyzer.
Import JS AudioProcessor BeatDetection.

(** The two objects captured by the closures of [createBeatAnalyzer]. *)
Record t : Type := {
  detector : BeatDetector.t;
  analyzer : TempoAnalyzer
}.

(** What [analyzeBeat] returns: the beat info spread, and [tempo]. *)
Module Result.
Record t : Type := {
  beatInfo : BeatInfo.t;
  tempo : number
}.
End Result.

(** [createBeatAnalyzer (options)]; an omitted argument is [None]. *)
Definition createBeatAnalyzer (options : option Partial.t) : t :=
  {| detector := constructor (or_default Partial.empty options);
     analyzer := new_TempoAnalyzer |}.

Definition reset (self : t) : t :=
  {| detector := BeatDetection.reset (detector self);
     analyzer := tempo_reset (analyzer self) |}.

Definition updateOptions (self : t) (newOptions : Partial.t) : t :=
  {| detector := BeatDetection.updateOptions (detector self) newOptions;
     analyzer := analyzer self |}.

Section WithEngine.
Context {E : Engine}.

Definition analyzeBeat (self : t) (audioData : option AudioData) (now : Z)
    : option (t * Result.t) :=
  match detect (detector self) audioData now with
  | None => None
  | Some (detector', beatInfo) =>
      let analyzer' :=
        if BeatInfo.isBeat beatInfo
        then addBeat (analyzer self) (BeatInfo.time beatInfo)
        else analyzer self in
      Some ({| detector := detector'; analyzer := analyzer' |},
            {| Result.beatInfo := beatInfo; Result.tempo := getTempo analyzer' |})
  end.

(** A sequence of [analyzeBeat] calls: the state reached and the results in
    call order. *)
Fixpoint analyze_all (self : t) (calls : list (option AudioData * Z))
    : option (t * list Result.t) :=
  match calls with
  | [] => Some (self, [])
  | (audioData, now) :: rest =>
      match analyzeBeat self audioData now with
      | None => None
      | Some (self', result) =>
          option_map (fun sr => (fst sr, result :: snd sr)) (analyze_all self' rest)
      end
  end.

End WithEngine.
End BeatAnalyzer.

(* ================================================================== *)
(** * [useProcessedAudioData] (src/useProcessedAudioData.ts) *)
(* ================================================================== *)

(** The body of the effect of the hook, as a function of what it reads: the
    memoised [prevValues] object, the [processedData] state, the frame and
    the options.  It returns the updated [prevValues] and the value handed
    to [setProcessedData]. *)
Module ProcessedAudioData.
Import JS AudioProcessor.

Module PrevValues.
Record t : Type := {
  frequencyData : list value;
  timeData : list value;
  volume : number;
  peakLevel : number
}.
End PrevValues.

(** The object built by [useMemo]. *)
Definition initial : PrevValues.t :=
  {| PrevValues.frequencyData := [];
     PrevValues.timeData := [];
     PrevValues.volume := Fin 0;
     PrevValues.peakLevel := Fin 0 |}.

(** A number in a condition: [0] and [NaN] are false. *)
Definition truthy (x : number) : bool :=
  match x with
  | Fin q => negb (Qeq_bool q 0)
  | NaN => false
  | PInf | NInf => true
  end.

(** One of the two smoothing loops. *)
Definition smooth_array (smoothingFactor inverseFactor : number)
    (prev data : list value) : list value :=
  for_range 0 (length data)
    (fun i data =>
       if (i <? length prev)%nat
       then set data i
              (VNum (add (mul smoothingFactor (ToNumber (get prev (of_nat i))))
                         (mul inverseFactor (ToNumber (get data (of_nat i))))))
       else data)
    data.

Definition smooth (smoothing : number) (prevValues : PrevValues.t)
    (newProcessedData : Processed.t) : Processed.t :=
  let smoothingFactor := Math_min (Math_max smoothing (Fin 0)) (Fin 1) in
  let inverseFactor := sub (Fin 1) smoothingFactor in
  {| Processed.frequencyData :=
       smooth_array smoothingFactor inverseFactor
         (PrevValues.frequencyData prevValues) (Processed.frequencyData newProcessedData);
     Processed.timeData :=
       smooth_array smoothingFactor inverseFactor
         (PrevValues.timeData prevValues) (Processed.timeData newProcessedData);
     Processed.volume :=
       add (mul smoothingFactor (PrevValues.volume prevValues))
           (mul inverseFactor (Processed.volume newProcessedData));
     Processed.peakLevel :=
       add (mul smoothingFactor (PrevValues.peakLevel prevValues))
           (mul inverseFactor (Processed.peakLevel newProcessedData));
     Processed.isActive := Processed.isActive newProcessedData;
     Processed.dominant := Processed.dominant newProcessedData |}.

(** [options.smoothing && options.smoothing > 0 && processedData]. *)
Definition smoothing_enabled (options : DataProcessorOptions)
    (processedData : option Processed.t) : bool :=
  match smoothing options, processedData with
  | Some smoothing, Some _ => truthy smoothing && gtb smoothing (Fin 0)
  | _, _ => false
  end.

Definition remember (newProcessedData : Processed.t) : PrevValues.t :=
  {| PrevValues.frequencyData := Processed.frequencyData newProcessedData;
     PrevValues.timeData := Processed.timeData newProcessedData;
     PrevValues.volume := Processed.volume newProcessedData;
     PrevValues.peakLevel := Processed.peakLevel newProcessedData |}.

Section WithEngine.
Context {E : Engine}.

Definition effect (prevValues : PrevValues.t) (processedData : option Processed.t)
    (audioData : option AudioData) (options : DataProcessorOptions)
    : completion (PrevValues.t * option Processed.t) :=
  match audioData with
  | None => Normal (prevValues, processedData)
  | Some audioData =>
      newProcessedData <- processAudioData audioData options ;;
      let newProcessedData :=
        if smoothing_enabled options processedData
        then smooth (or_default (Fin 0) (smoothing options)) prevValues newProcessedData
        else newProcessedData in
      Normal (remember newProcessedData, Some newProcessedData)
  end.

End WithEngine.
End ProcessedAudioData.

(* ================================================================== *)
(** * Closed forms of the loops, and the properties stated below *)
(* ================================================================== *)

(** The loops of [processAudioData] taken apart: each definition is one
    component of a loop body, as the lemmas of [ProcessFacts] show. *)
Module ClosedForm.
Import JS AudioProcessor.

(** The lengths [new Array] accepts. *)
Definition valid_length (n : Z) : Prop := (0 <= n < 2 ^ 32)%Z.

(** A positive number with at most 53 significant bits whose last bit is
    not below that of the subnormal doubles: [k * 2 ^ j].  Below
    [2 ^ 1024] these are the positive doubles. *)
Definition dyadic (c : Q) : Prop :=
  exists k j : Z, (0 < k < 2 ^ 53)%Z /\ (-1074 <= j)%Z /\ c == inject_Z k * pow2 j.

(** [2 ^ (-20)], the least distance kept from a half integer by a quotient
    [60000 / d] with [d] up to [2 ^ 19]. *)
Definition tiny : Q := 1 # 1048576.

(** A byte as the integer it stores. *)
Definition byteZ (b : byte) : Z := Z.of_N (Byte.to_N b).

(** The part of [scan_frequency] that tracks the maximum. *)
Definition scan_max (frequencyData : list byte) (i : nat)
    (st : nat * number) : nat * number :=
  let value := ToNumber (get_u8 frequencyData (of_nat i)) in
  if gtb value (snd st) then (i, value) else st.

(** A time-domain byte mapped to [-1, 1]. *)
Definition normalized (v : value) : number :=
  sub (div (ToNumber v) (Fin 128)) (Fin 1).

Definition scan_volume (timeData : list byte) (i : nat) (volumeSum : number) : number :=
  add volumeSum (Math_abs (normalized (get_u8 timeData (of_nat i)))).

Section WithEngine.
Context {E : Engine}.

(** What the normalisation loop does to one bin. *)
Definition normalize_value (logarithmic : bool) (maxFrequencyValue : number)
    (v : value) : value :=
  let p := div (ToNumber v) maxFrequencyValue in
  if logarithmic
  then VNum (div (Math_log (add (mul (Math_max p (Fin (1 # 1000)))
                                     (sub (Fin 10) (Fin 1))) (Fin 1)))
                 (Math_log (Fin 10)))
  else VNum p.

End WithEngine.

(** A level in [[0, 1]]. *)
Definition unit_level (v : value) : Prop :=
  exists q : Q, v = VNum (Fin q) /\ 0 <= q <= 1.

(** What the bounds on log-scaled levels need from the engine's [Math.log]:
    above 1 it is non-negative and increasing, and it is positive at 10. *)
Record log_monotone (E : Engine) : Prop := {
  log_ten_positive : 0 < log_approx 10;
  log_nonneg : forall y : Q, 1 <= y -> 0 <= log_approx y;
  log_increasing : forall x y : Q, 1 <= x -> x <= y -> log_approx x <= log_approx y
}.

(** Bin [k] holds the largest magnitude of the array, byte [b]. *)
Definition holds_maximum (frequencyData : list byte) (k : nat) (b : byte) : Prop :=
  nth_error frequencyData k = Some b
  /\ forall j c, nth_error frequencyData j = Some c -> (byteZ c <= byteZ b)%Z.

End ClosedForm.

(** The index [extractFrequencyBands] reads for a band centre [c], at sample
    rate [r] and buffer length [n]: the rounded bin, limited from above. *)
Definition band_index (c r : Q) (n : Z) : Z :=
  Z.min (Qfloor (c * inject_Z n / (r / 2) + (1 # 2))) (n - 1).

(** The same as the code writes it, on numbers. *)
Definition band_index_number (c sampleRate bufferLength : JS.number) : JS.number :=
  JS.Math_min
    (JS.Math_round (JS.div (JS.mul c bufferLength) (JS.div sampleRate (JS.Fin 2))))
    (JS.sub bufferLength (JS.Fin 1)).

(** Spectral flatness as the specification words it. *)
Module SpectrumSpec.
Import JS.

(** The total amplitude. *)
Definition total (amp : list number) : number := fold_left add amp (Fin 0).

(** The running product of the amplitudes that are positive, each partial
    product rounded to a double. *)
Definition positive_product (amp : list number) : number :=
  fold_left mul64 (filter (fun a => gtb a (Fin 0)) amp) (Fin 1).

(** [a ^ k] by repeated multiplication. *)
Fixpoint Qpow (a : Q) (k : nat) : Q :=
  match k with
  | O => 1
  | S k' => Qpow a k' * a
  end.

(** The sum and the product of the accumulation loop, without the
    weighted sum. *)
Definition sum_product (acc : number * number) (amplitude : number) : number * number :=
  (add (fst acc) amplitude,
   if gtb amplitude (Fin 0) then mul64 (snd acc) amplitude else snd acc).

Section WithEngine.
Context {E : Engine}.

(** [(product over amp_i > 0) ^ (1 / N)], [N] the number of bins. *)
Definition geometricMean (amp : list number) : number :=
  Math_pow (positive_product amp) (div (Fin 1) (of_nat (length amp))).

Definition arithmeticMean (amp : list number) : number :=
  div (total amp) (of_nat (length amp)).

(** [geometricMean / arithmeticMean], and 0 when the total amplitude is
    not positive. *)
Definition flatness (amp : list number) : number :=
  if gtb (total amp) (Fin 0)
  then div (geometricMean amp) (arithmeticMean amp)
  else Fin 0.

End WithEngine.
End SpectrumSpec.

(** Notions used to speak about runs of [BeatDetector.detect]. *)
Module BeatSpec.
Import JS BeatDetection.

(** The integers [lo, lo + 1, ..., hi]. *)
Definition Z_range (lo hi : Z) : list Z :=
  map (fun k => (lo + Z.of_nat k)%Z) (seq 0 (Z.to_nat (hi - lo + 1))).

(** The ends of the band as bin indices, for a finite band, a finite sample
    rate and a buffer of [n] bins. *)
Definition low_index (lo rate : Q) (n : Z) : Z := Qfloor (lo * inject_Z n / (rate / 2)).
Definition high_index (hi rate : Q) (n : Z) : Z := Qceiling (hi * inject_Z n / (rate / 2)).

(** The time of the last call that reported a beat, [initial] when none
    did. *)
Definition last_beat (initial : Z) (infos : list BeatInfo.t) : Z :=
  fold_left (fun t info => if BeatInfo.isBeat info then BeatInfo.time info else t)
            infos initial.

(** The band of the detector has finite ends. *)
Definition finite_band (self : BeatDetector.t) : Prop :=
  exists lo hi : Q,
    Options.frequencyRange (BeatDetector.options self) = {| low := Fin lo; high := Fin hi |}.

(** A call whose frame, if there is one, has a finite positive sample
    rate. *)
Definition well_formed_call (call : option AudioProcessor.AudioData * Z) : Prop :=
  match fst call with
  | Some audioData =>
      exists rate : Q, AudioProcessor.sampleRate audioData = Fin rate /\ 0 < rate
  | None => True
  end.

(** The call carries a frame. *)
Definition has_frame (call : option AudioProcessor.AudioData * Z) : bool :=
  match fst call with Some _ => true | None => false end.

(** The results of the calls that carried a frame. *)
Definition frame_results (calls : list (option AudioProcessor.AudioData * Z))
    (results : list (BeatDetector.t * BeatInfo.t)) : list (BeatDetector.t * BeatInfo.t) :=
  map snd (filter (fun cr => has_frame (fst cr)) (combine calls results)).

(** The condition of step 6 of the algorithm. *)
Definition beat_condition (opts : Options.t) (delta : number) (elapsed : Z) : bool :=
  gtb delta (Options.threshold opts)
  && gtb (of_Z elapsed) (Options.minTimeBetweenBeats opts).

End BeatSpec.

(** [TempoAnalyzer.getTempo] as the specification words it. *)
Module TempoSpec.
Import JS.

(** The [n - 1] consecutive inter-beat intervals of [n] timestamps. *)
Fixpoint intervals (beatTimes : list Z) : list Z :=
  match beatTimes with
  | a :: (b :: _) as rest => (b - a)%Z :: intervals rest
  | _ => []
  end.

(** The quartiles: the elements of the sorted intervals at
    [floor (0.25 * len)] and [floor (0.75 * len)], no interpolation. *)
Definition Q1 (sorted : list Z) : Z := nth (length sorted / 4) sorted 0%Z.
Definition Q3 (sorted : list Z) : Z := nth (3 * length sorted / 4) sorted 0%Z.

(** [i] lies in [[Q1 - 1.5 * IQR, Q3 + 1.5 * IQR]]. *)
Definition within (q1 q3 : Z) (i : Z) : bool :=
  let iqr := inject_Z (q3 - q1) in
  Qle_bool (inject_Z q1 - (3 # 2) * iqr) (inject_Z i)
  && Qle_bool (inject_Z i) (inject_Z q3 + (3 # 2) * iqr).

Definition total (l : list Z) : Z := fold_right Z.add 0%Z l.

(** The mean of the intervals: their sum over their number, a quotient of
    two doubles. *)
Definition mean (l : list Z) : number :=
  div64 (of_Z (total l)) (of_nat (length l)).

Definition getTempo (beatTimes : list Z) : number :=
  if (length beatTimes <? 4)%nat then Fin 0
  else
    let sorted := sort_numeric (intervals beatTimes) in
    match filter (within (Q1 sorted) (Q3 sorted)) (intervals beatTimes) with
    | [] => Fin 0
    | surviving => Math_round (div64 (Fin 60000) (mean surviving))
    end.

(** [z] is [x] rounded to the nearest integer, upwards from a half. *)
Definition rounds_to (x : Q) (z : Z) : Prop :=
  inject_Z z - (1 # 2) <= x < inject_Z z + (1 # 2).

End TempoSpec.

(* ================================================================== *)
(** * Concrete frames and states *)
(* ================================================================== *)

Module Examples.
Import JS AudioProcessor BeatDetection.

(** A frame whose two arrays differ in length. *)
Definition mismatched_frame : AudioData :=
  {| frequencyData := [x0a; x14]; timeData := [x80];
     sampleRate := Fin 44100; bufferLength := 2 |}.

(** A frame with no samples at all. *)
Definition empty_frame : AudioData :=
  {| frequencyData := []; timeData := [];
     sampleRate := Fin 44100; bufferLength := 0 |}.

(** Two bins, every byte of both arrays zero. *)
Definition all_zero_frame : AudioData :=
  {| frequencyData := [x00; x00]; timeData := [x00; x00];
     sampleRate := Fin 44100; bufferLength := 2 |}.

(** Digital silence: magnitudes zero, waveform at its centre 128. *)
Definition silent_frame (n : nat) (rate : number) : AudioData :=
  {| frequencyData := repeat x00 n; timeData := repeat x80 n;
     sampleRate := rate; bufferLength := Z.of_nat n |}.

Definition small_frame : AudioData :=
  {| frequencyData := [x0a; x14; x00]; timeData := [x80; xff; x00];
     sampleRate := Fin 44100; bufferLength := 3 |}.

Definition normalize_only : DataProcessorOptions :=
  {| normalize := Some true; logarithmic := None; smoothing := None |}.

Definition normalize_log : DataProcessorOptions :=
  {| normalize := Some true; logarithmic := Some true; smoothing := None |}.

(** A spectrum of 1024 bins, all at magnitude [b]. *)
Definition flat_frame (b : byte) : AudioData :=
  {| frequencyData := repeat b 1024; timeData := repeat x80 1024;
     sampleRate := Fin 44100; bufferLength := 1024 |}.

(** Band energy [(57 / 255)^2], about 0.05. *)
Definition quiet_frame : AudioData := flat_frame x39.

(** Band energy [(180 / 255)^2], about 0.5. *)
Definition loud_frame : AudioData := flat_frame xb4.

(** 43 quiet frames, one every 16 ms, then three spikes: at 1000 ms, 100 ms
    later and 400 ms later. *)
Definition refractory_calls : list (option AudioData * Z) :=
  map (fun k => (Some quiet_frame, (16 * Z.of_nat k)%Z)) (seq 0 43)
  ++ [(Some loud_frame, 1000%Z); (Some loud_frame, 1100%Z); (Some loud_frame, 1400%Z)].

Definition three_spikes : list (option AudioData * Z) :=
  [(Some loud_frame, 1000%Z); (None, 1050%Z); (Some loud_frame, 1100%Z);
   (Some loud_frame, 1400%Z)].

Definition default_detector : BeatDetector.t := constructor Partial.empty.

(** A detector whose band has its ends exchanged, above the Nyquist
    frequency of a 44100 Hz stream. *)
Definition inverted_detector : BeatDetector.t :=
  updateOptions default_detector
    {| Partial.threshold := None; Partial.decayRate := None;
       Partial.minTimeBetweenBeats := None;
       Partial.frequencyRange := Some {| low := Fin 40000; high := Fin 30000 |} |}.

(** A detector whose band reaches the Nyquist frequency. *)
Definition wide_detector : BeatDetector.t :=
  updateOptions default_detector
    {| Partial.threshold := None; Partial.decayRate := None;
       Partial.minTimeBetweenBeats := None;
       Partial.frequencyRange := Some {| low := Fin 20000; high := Fin 22050 |} |}.

Definition four_bins : list number := map of_Z [1; 2; 3; 4]%Z.


End Examples.

(* ================================================================== *)
(** * Notions used by the further properties *)
(* ================================================================== *)

Module Notions.
Import JS AudioProcessor BeatDetection ClosedForm BeatSpec Examples.

(** Beats every [d] milliseconds from [t0] on, [n] of them. *)
Definition evenly_spaced (t0 d : Z) (n : nat) : list Z :=
  map (fun k => (t0 + d * Z.of_nat k)%Z) (seq 0 n).

(** The at most [maxHistorySize] last elements. *)
Definition most_recent (l : list Z) : list Z :=
  skipn (length l - maxHistorySize) l.

(** A finite number between [lo] and [hi]. *)
Definition between (lo hi : Q) (x : number) : Prop :=
  exists q : Q, x = Fin q /\ lo <= q <= hi.

Definition value_between (lo hi : Q) (v : value) : Prop :=
  exists q : Q, v = VNum (Fin q) /\ lo <= q <= hi.

(** ** States and frames of [BeatDetector] *)

(** The state a detector keeps while its band stays on the bins of the
    frames: a full window of energies, each of them and the running average
    between 0 and 1. *)
Definition healthy (self : BeatDetector.t) : Prop :=
  length (BeatDetector.energyHistory self) = historySize
  /\ Forall (between 0 1) (BeatDetector.energyHistory self)
  /\ between 0 1 (BeatDetector.averageEnergy self).

(** The band of [opts] falls on bins of the frame: finite ends, the low one
    not negative, the high index below the number of bins, which is the
    length of the spectrum. *)
Definition band_inside (opts : Options.t) (audioData : AudioData) : Prop :=
  exists lo hi rate : Q,
    sampleRate audioData = Fin rate /\ 0 < rate
    /\ Options.frequencyRange opts = {| low := Fin lo; high := Fin hi |}
    /\ 0 <= lo
    /\ (high_index hi rate (bufferLength audioData) < bufferLength audioData)%Z
    /\ bufferLength audioData = Z.of_nat (length (frequencyData audioData)).

(** Every frame of the calls has the band inside. *)
Definition calls_inside (opts : Options.t) (calls : list (option AudioData * Z)) : Prop :=
  Forall (fun call => match fst call with
                      | Some audioData => band_inside opts audioData
                      | None => True
                      end) calls.

(** The spectrum of the frame is zero in every bin. *)
Definition silent (audioData : AudioData) : Prop :=
  Forall (fun b => b = x00) (frequencyData audioData).

Definition calls_silent (calls : list (option AudioData * Z)) : Prop :=
  Forall (fun call => match fst call with
                      | Some audioData => silent audioData
                      | None => True
                      end) calls.

(** The band is not empty and its high end is at the Nyquist frequency or
    above it, for a frame with as many bins as [bufferLength] says. *)
Definition band_past_end (opts : Options.t) (audioData : AudioData) : Prop :=
  exists lo hi rate : Q,
    sampleRate audioData = Fin rate /\ 0 < rate
    /\ Options.frequencyRange opts = {| low := Fin lo; high := Fin hi |}
    /\ lo <= hi /\ rate / 2 <= hi
    /\ bufferLength audioData = Z.of_nat (length (frequencyData audioData))
    /\ (0 < bufferLength audioData)%Z.

(** The times of the results that reported a beat, in call order. *)
Definition beat_times (results : list BeatAnalyzer.Result.t) : list Z :=
  map (fun r => BeatInfo.time (BeatAnalyzer.Result.beatInfo r))
      (filter (fun r => BeatInfo.isBeat (BeatAnalyzer.Result.beatInfo r)) results).

(** ** Spectral shape, on rationals *)

Definition Qsum (l : list Q) : Q := fold_right Qplus 0 l.

(** The frequency given to bin [i] of [n] at sample rate [r]:
    [i * nyquist / n]. *)
Definition bin_frequency (r : Q) (n i : nat) : Q :=
  inject_Z (Z.of_nat i) * (r / 2) / inject_Z (Z.of_nat n).

(** [sum of freq_i * amp_i] over the first [k] bins. *)
Definition weighted_sum (r : Q) (amps : list Q) (k : nat) : Q :=
  Qsum (map (fun i => bin_frequency r (length amps) i * nth i amps 0) (seq 0 k)).

(** [sum of (freq_i - c)^2 * amp_i] over the first [k] bins. *)
Definition squared_deviation (r c : Q) (amps : list Q) (k : nat) : Q :=
  Qsum (map (fun i => (bin_frequency r (length amps) i - c)
                      * (bin_frequency r (length amps) i - c) * nth i amps 0)
            (seq 0 k)).

(** ** Smoothing *)

(** What one round of a smoothing loop stores in a slot that holds [d],
    [p] being the previous value of that slot, if there is one. *)
Definition blend (smoothingFactor inverseFactor : number) (p : option value) (d : value)
    : value :=
  match p with
  | Some p => VNum (add (mul smoothingFactor (ToNumber p)) (mul inverseFactor (ToNumber d)))
  | None => d
  end.

(** The four smoothed quantities, each in the range that
    [processAudioData] gives it. *)
Definition levels_in_range (frequencyData timeData : list value)
    (volume peakLevel : number) : Prop :=
  Forall (value_between 0 1) frequencyData
  /\ Forall (value_between (-1) 1) timeData
  /\ between 0 1 volume
  /\ between 0 1 peakLevel.

(** Two finite numbers of the same value. *)
Definition same_number (x y : number) : Prop :=
  exists p q : Q, x = Fin p /\ y = Fin q /\ p == q.

Definition same_value (u v : value) : Prop :=
  exists p q : Q, u = VNum (Fin p) /\ v = VNum (Fin q) /\ p == q.

(** ** Runs used as examples *)

(** The result of some frame of two bins. *)
Definition steady_levels : Processed.t :=
  {| Processed.frequencyData := [VNum (Fin (1 # 2)); VNum (Fin 1)];
     Processed.timeData := [VNum (Fin 0); VNum (Fin (-1))];
     Processed.volume := Fin (1 # 2);
     Processed.peakLevel := Fin 1;
     Processed.isActive := true;
     Processed.dominant :=
       {| Processed.frequency := Fin 11025; Processed.amplitude := Fin 1;
          Processed.index := 1 |} |}.

(** The result of a later, quieter frame. *)
Definition quiet_levels : Processed.t :=
  {| Processed.frequencyData := [VNum (Fin (1 # 4)); VNum (Fin 0)];
     Processed.timeData := [VNum (Fin (1 # 8)); VNum (Fin 0)];
     Processed.volume := Fin (1 # 16);
     Processed.peakLevel := Fin (1 # 4);
     Processed.isActive := true;
     Processed.dominant :=
       {| Processed.frequency := Fin 0; Processed.amplitude := Fin (1 # 4);
          Processed.index := 0 |} |}.


Definition bounded_calls : list (option AudioData * Z) :=
  [(Some quiet_frame, 0%Z); (None, 16%Z); (Some loud_frame, 32%Z)].

Definition silent_calls : list (option AudioData * Z) :=
  [(Some (silent_frame 1024 (Fin 44100)), 0%Z);
   (Some (silent_frame 1024 (Fin 44100)), 16%Z)].

End Notions.

(* ================================================================== *)
(** * Facts about numbers, arrays and loops *)
(* ================================================================== *)

Module Facts.
Import JS.

Lemma fin_Qeq (a b : Q) : a == b -> fin a = fin b.
Proof. intros H. unfold fin. f_equal. now apply Qred_complete. Qed.

Lemma Qred_inject_Z (z : Z) : Qred (inject_Z z) = inject_Z z.
Proof.
  apply Qcanon.Qred_identity. unfold inject_Z; simpl. apply Z.gcd_1_r.
Qed.

Lemma fin_inject_Z (z : Z) : fin (inject_Z z) = of_Z z.
Proof. unfold fin, of_Z. now rewrite Qred_inject_Z. Qed.

Lemma fin_of_Z (q : Q) (z : Z) : q == inject_Z z -> fin q = of_Z z.
Proof. intros H. rewrite (fin_Qeq H). apply fin_inject_Z. Qed.

Lemma Qltb_lt (a b : Q) : Qltb a b = true <-> a < b.
Proof.
  unfold Qltb. rewrite negb_true_iff, <- not_true_iff_false, Qle_bool_iff.
  split; [apply Qnot_le_lt | apply Qlt_not_le].
Qed.

Lemma Qltb_ge (a b : Q) : Qltb a b = false <-> b <= a.
Proof. unfold Qltb. now rewrite negb_false_iff, Qle_bool_iff. Qed.

Lemma Qeq_bool_false (a b : Q) : Qeq_bool a b = false <-> ~ a == b.
Proof. rewrite <- not_true_iff_false, Qeq_bool_iff. tauto. Qed.

Lemma add_of_Z (a b : Z) : add (of_Z a) (of_Z b) = of_Z (a + b).
Proof. simpl. apply fin_of_Z. now rewrite inject_Z_plus. Qed.

Lemma neg_of_Z (a : Z) : neg (of_Z a) = of_Z (- a).
Proof. simpl. apply fin_of_Z. now rewrite inject_Z_opp. Qed.

Lemma sub_of_Z (a b : Z) : sub (of_Z a) (of_Z b) = of_Z (a - b).
Proof. unfold sub. now rewrite neg_of_Z, add_of_Z. Qed.

Lemma gtb_of_Z (a b : Z) : gtb (of_Z a) (of_Z b) = (b <? a)%Z.
Proof.
  unfold gtb; simpl. apply eq_true_iff_eq.
  now rewrite Qltb_lt, Z.ltb_lt, <- Zlt_Qlt.
Qed.

Lemma leb_of_Z (a b : Z) : leb (of_Z a) (of_Z b) = (a <=? b)%Z.
Proof.
  simpl. apply eq_true_iff_eq.
  now rewrite Qle_bool_iff, Z.leb_le, <- Zle_Qle.
Qed.

Lemma add_fin (a b : Q) : add (Fin a) (Fin b) = fin (a + b).
Proof. reflexivity. Qed.

Lemma mul_fin (a b : Q) : mul (Fin a) (Fin b) = fin (a * b).
Proof. reflexivity. Qed.

Lemma div_fin (a b : Q) : ~ b == 0 -> div (Fin a) (Fin b) = fin (a / b).
Proof.
  intros Hb. unfold div. now rewrite (proj2 (Qeq_bool_false b 0) Hb).
Qed.

Lemma Math_log_ordinary (E : Engine) (y : Q) :
  0 < y -> ~ y == 1 -> Math_log (Fin y) = fin (log_approx y).
Proof.
  intros H0 H1. unfold Math_log.
  rewrite (proj2 (Qltb_ge y 0)) by lra.
  rewrite (proj2 (Qeq_bool_false y 0)) by lra.
  now rewrite (proj2 (Qeq_bool_false y 1) H1).
Qed.

Lemma is_integer_inject_Z (z : Z) : is_integer (inject_Z z) = true.
Proof. unfold is_integer. rewrite Qfloor_Z. apply Qeq_bool_refl. Qed.

Lemma Math_floor_fin (q : Q) : Math_floor (fin q) = of_Z (Qfloor q).
Proof. unfold fin, Math_floor. now rewrite (Qfloor_comp _ _ (Qred_correct q)). Qed.

Lemma Math_ceil_fin (q : Q) : Math_ceil (fin q) = of_Z (Qceiling q).
Proof. unfold fin, Math_ceil. now rewrite (Qceiling_comp _ _ (Qred_correct q)). Qed.

Lemma half_pos (rate : Q) : 0 < rate -> 0 < rate / 2.
Proof. intros H. apply Qlt_shift_div_l; lra. Qed.

(** [x * n / (rate / 2)] as the model computes it. *)
Lemma scale_to_bins (x rate : Q) (n : Z) :
  0 < rate ->
  div (mul (Fin x) (of_Z n)) (div (Fin rate) (Fin 2)) = fin (x * inject_Z n / (rate / 2)).
Proof.
  intros Hrate. unfold of_Z. rewrite mul_fin.
  rewrite (@div_fin rate 2) by lra. unfold fin.
  pose proof (half_pos Hrate) as Hhalf.
  rewrite div_fin by (rewrite Qred_correct; intros H; rewrite H in Hhalf; lra).
  apply fin_Qeq. now rewrite !Qred_correct.
Qed.

(** ** Array reads *)

Lemma index_of_Z (A : Type) (arr : list A) (z : Z) :
  index arr (of_Z z) =
  if (0 <=? z)%Z then nth_error arr (Z.to_nat z) else None.
Proof.
  unfold index, of_Z. now rewrite is_integer_inject_Z, Qfloor_Z.
Qed.

Lemma index_of_nat (A : Type) (arr : list A) (i : nat) :
  index arr (of_nat i) = nth_error arr i.
Proof.
  unfold of_nat. rewrite index_of_Z.
  destruct (Z.leb_spec 0 (Z.of_nat i)); [now rewrite Nat2Z.id | lia].
Qed.

Lemma length_set_inside (arr : list value) (i : nat) (v : value) :
  (i < length arr)%nat -> length (set arr i v) = length arr.
Proof.
  revert i; induction arr as [|x arr IH]; intros [|i] H; simpl in *; try lia.
  now rewrite IH by lia.
Qed.

Lemma nth_error_set_same (arr : list value) (i : nat) (v : value) :
  nth_error (set arr i v) i = Some v.
Proof.
  revert arr; induction i as [|i IH]; intros [|x arr]; simpl; auto.
Qed.

Lemma nth_error_set_other (arr : list value) (i j : nat) (v : value) :
  (i < length arr)%nat -> i <> j -> nth_error (set arr i v) j = nth_error arr j.
Proof.
  revert i j; induction arr as [|x arr IH]; intros [|i] [|j] H Hij; simpl in *;
    try lia; auto.
  apply IH; lia.
Qed.

(** Filling the slots [0 .. k-1] in order: slot [k] of an array whose first
    [k] entries are [done]. *)
Lemma set_next (done : list value) (rest : list value) (k : nat) (u v : value) :
  length done = k -> set (done ++ u :: rest) k v = (done ++ [v]) ++ rest.
Proof.
  intros <-. induction done as [|x done IH]; simpl; [reflexivity|]. now rewrite IH.
Qed.

(** ** Loops *)

Lemma for_range_S (S : Type) (lo count : nat) (body : nat -> S -> S) (s : S) :
  for_range lo (Datatypes.S count) body s =
  body (lo + count)%nat (for_range lo count body s).
Proof.
  unfold for_range. now rewrite seq_S, fold_left_app.
Qed.

Lemma for_range_O (S : Type) (lo : nat) (body : nat -> S -> S) (s : S) :
  for_range lo 0 body s = s.
Proof. reflexivity. Qed.

(** An invariant kept by every round holds when the loop ends. *)
Lemma for_range_invariant (S : Type) (P : nat -> S -> Prop)
    (lo count : nat) (body : nat -> S -> S) (s : S) :
  P 0%nat s ->
  (forall k s, (k < count)%nat -> P k s -> P (Datatypes.S k) (body (lo + k)%nat s)) ->
  P count (for_range lo count body s).
Proof.
  intros H0 Hstep. induction count as [|count IH]; [exact H0|].
  rewrite for_range_S. apply Hstep; [lia|]. apply IH.
  intros k s' Hk. apply Hstep. lia.
Qed.

End Facts.

(* ================================================================== *)
(** * Rounding to binary64 *)
(* ================================================================== *)

Module Rounding.
Import JS Facts.

(** ** Powers of two *)

Lemma pow2_nonneg (k : Z) : (0 <= k)%Z -> pow2 k = inject_Z (2 ^ k).
Proof. intros H. unfold pow2. destruct (Z.leb_spec 0 k); [reflexivity|lia]. Qed.

Lemma pow2_neg (k : Z) : (k < 0)%Z -> pow2 k == / inject_Z (2 ^ (- k)).
Proof.
  intros H. unfold pow2. destruct (Z.leb_spec 0 k); [lia|].
  assert (Hp : (0 < 2 ^ (- k))%Z) by (apply Z.pow_pos_nonneg; lia).
  destruct (2 ^ (- k))%Z as [|p|p] eqn:Hpow; try lia. reflexivity.
Qed.

Lemma pow2_pos (k : Z) : 0 < pow2 k.
Proof.
  unfold pow2. destruct (Z.leb_spec 0 k).
  - assert (0 < 2 ^ k)%Z by (apply Z.pow_pos_nonneg; lia).
    unfold Qlt, inject_Z; simpl; lia.
  - reflexivity.
Qed.

Lemma pow2_opp (k : Z) : pow2 (- k) == / pow2 k.
Proof.
  destruct (Z.lt_trichotomy k 0) as [H|[->|H]].
  - rewrite (pow2_neg H), pow2_nonneg by lia. now rewrite Qinv_involutive.
  - reflexivity.
  - rewrite pow2_neg by lia. rewrite Z.opp_involutive. now rewrite pow2_nonneg by lia.
Qed.

Lemma pow2_add_nonneg (a b : Z) :
  (0 <= a)%Z -> (0 <= b)%Z -> pow2 (a + b) == pow2 a * pow2 b.
Proof.
  intros Ha Hb. rewrite !pow2_nonneg by lia.
  rewrite Z.pow_add_r by lia. now rewrite inject_Z_mult.
Qed.

Lemma pow2_add (a b : Z) : pow2 (a + b) == pow2 a * pow2 b.
Proof.
  assert (Hsub : forall x y : Z, (0 <= y)%Z -> pow2 (x - y) == pow2 x * / pow2 y).
  { intros x y Hy.
    pose proof (pow2_pos x) as Hx. pose proof (pow2_pos y) as Hpy.
    destruct (Z.le_gt_cases 0 x) as [H0|H0].
    - destruct (Z.le_gt_cases y x) as [Hyx|Hyx].
      + assert (E : pow2 x == pow2 (x - y) * pow2 y).
        { rewrite <- pow2_add_nonneg by lia. now replace (x - y + y)%Z with x by lia. }
        rewrite E. field. lra.
      + replace (x - y)%Z with (- (y - x))%Z by lia. rewrite pow2_opp.
        assert (E : pow2 y == pow2 (y - x) * pow2 x).
        { rewrite <- pow2_add_nonneg by lia. now replace (y - x + x)%Z with y by lia. }
        pose proof (pow2_pos (y - x)). rewrite E. field. split; lra.
    - replace (x - y)%Z with (- (y + - x))%Z by lia. rewrite pow2_opp.
      rewrite pow2_add_nonneg by lia.
      replace x with (- - x)%Z at 2 by lia. rewrite (pow2_opp (- x)).
      pose proof (pow2_pos (- x)). field. split; lra. }
  destruct (Z.le_gt_cases 0 b) as [Hb|Hb].
  - pose proof (Hsub (a + b)%Z b Hb) as E.
    replace (a + b - b)%Z with a in E by lia.
    pose proof (pow2_pos b). rewrite E. field. lra.
  - replace (a + b)%Z with (a - - b)%Z by lia. rewrite Hsub by lia.
    rewrite pow2_opp. rewrite Qinv_involutive. reflexivity.
Qed.

Lemma pow2_ge_one (k : Z) : (0 <= k)%Z -> 1 <= pow2 k.
Proof.
  intros H. rewrite pow2_nonneg by exact H.
  assert (1 <= 2 ^ k)%Z by (apply (Z.pow_le_mono_r 2 0 k); lia).
  change 1 with (inject_Z 1). now rewrite <- Zle_Qle.
Qed.

Lemma pow2_le (a b : Z) : (a <= b)%Z -> pow2 a <= pow2 b.
Proof.
  intros H. replace b with (a + (b - a))%Z by lia. rewrite pow2_add.
  pose proof (pow2_pos a). pose proof (@pow2_ge_one (b - a) ltac:(lia)). nra.
Qed.

Lemma pow2_lt (a b : Z) : (a < b)%Z -> pow2 a < pow2 b.
Proof.
  intros H. replace b with (a + (b - a))%Z by lia. rewrite pow2_add.
  pose proof (pow2_pos a).
  assert (2 <= pow2 (b - a)).
  { rewrite pow2_nonneg by lia.
    assert (2 ^ 1 <= 2 ^ (b - a))%Z by (apply Z.pow_le_mono_r; lia).
    change 2 with (inject_Z 2). rewrite <- Zle_Qle. lia. }
  nra.
Qed.

Lemma pow2_lt_inv (a b : Z) : pow2 a < pow2 b -> (a < b)%Z.
Proof.
  intros H. destruct (Z.lt_ge_cases a b) as [|Hge]; [assumption|].
  pose proof (pow2_le Hge). lra.
Qed.

(** ** The binary logarithm *)

Lemma Qlog2_spec (a : Q) : 0 < a -> pow2 (Qlog2 a) <= a < pow2 (Qlog2 a + 1).
Proof.
  intros Ha. destruct a as [n d].
  assert (Hn : (0 < n)%Z) by (unfold Qlt in Ha; simpl in Ha; lia).
  pose proof (Z.log2_spec n Hn) as [Hn1 Hn2].
  pose proof (Z.log2_spec (Zpos d) (Pos2Z.is_pos d)) as [Hd1 Hd2].
  pose proof (Z.log2_nonneg n) as Hln. pose proof (Z.log2_nonneg (Zpos d)) as Hld.
  set (ln := Z.log2 n) in *. set (ld := Z.log2 (Zpos d)) in *.
  assert (EN : (n # d) * inject_Z (Zpos d) == inject_Z n)
    by (unfold Qeq, Qmult, inject_Z; simpl; lia).
  assert (N1 : pow2 ln <= inject_Z n)
    by (rewrite pow2_nonneg by lia; now rewrite <- Zle_Qle).
  assert (N2 : inject_Z n < pow2 (ln + 1))
    by (rewrite pow2_nonneg by lia; rewrite <- Zlt_Qlt; unfold Z.succ in Hn2; lia).
  assert (D1 : pow2 ld <= inject_Z (Zpos d))
    by (rewrite pow2_nonneg by lia; now rewrite <- Zle_Qle).
  assert (D2 : inject_Z (Zpos d) < pow2 (ld + 1))
    by (rewrite pow2_nonneg by lia; rewrite <- Zlt_Qlt; unfold Z.succ in Hd2; lia).
  pose proof (pow2_pos ld) as Pld. pose proof (pow2_pos (ld + 1)) as Pld1.
  assert (Upper : forall k, (k = ln + 1 - ld)%Z -> (n # d) < pow2 k).
  { intros k ->. replace (ln + 1 - ld)%Z with ((ln + 1) + - ld)%Z by lia.
    rewrite pow2_add, pow2_opp. apply Qlt_shift_div_l; [exact Pld|].
    set (a := n # d) in *. nra. }
  assert (Lower : forall k, (k = ln - (ld + 1))%Z -> pow2 k <= (n # d)).
  { intros k ->. replace (ln - (ld + 1))%Z with (ln + - (ld + 1))%Z by lia.
    rewrite pow2_add, pow2_opp. apply Qle_shift_div_r; [exact Pld1|].
    set (a := n # d) in *. nra. }
  unfold Qlog2. cbn [Qnum Qden]. fold ln ld.
  destruct (Qle_bool (pow2 (ln - ld)) (n # d)) eqn:Hc.
  - apply Qle_bool_iff in Hc. split; [exact Hc|]. apply Upper. lia.
  - split; [apply Lower; lia|].
    replace (ln - ld - 1 + 1)%Z with (ln - ld)%Z by lia.
    apply Qnot_le_lt. intros H. apply Qle_bool_iff in H. congruence.
Qed.

Lemma Qlog2_le (a b : Q) : 0 < a -> a <= b -> (Qlog2 a <= Qlog2 b)%Z.
Proof.
  intros Ha Hab.
  destruct (Qlog2_spec Ha) as [Ha1 _].
  destruct (@Qlog2_spec b ltac:(lra)) as [_ Hb2].
  assert (H : pow2 (Qlog2 a) < pow2 (Qlog2 b + 1)) by lra.
  apply pow2_lt_inv in H. lia.
Qed.

Lemma Qlog2_below (a : Q) (k : Z) : 0 < a -> a < pow2 k -> (Qlog2 a < k)%Z.
Proof.
  intros Ha Hk. destruct (Qlog2_spec Ha) as [H1 _].
  apply pow2_lt_inv. lra.
Qed.

Lemma Qlog2_comp (a b : Q) : 0 < a -> a == b -> Qlog2 a = Qlog2 b.
Proof.
  intros Ha Hab.
  assert (Hb : 0 < b) by (rewrite <- Hab; exact Ha).
  pose proof (@Qlog2_le a b Ha ltac:(rewrite Hab; apply Qle_refl)).
  pose proof (@Qlog2_le b a Hb ltac:(rewrite Hab; apply Qle_refl)).
  lia.
Qed.

(** ** The nearest integer *)

Lemma nearest_even_cases (x : Q) :
  (nearest_even x = Qfloor x /\ x - inject_Z (Qfloor x) <= 1 # 2)
  \/ (nearest_even x = (Qfloor x + 1)%Z /\ 1 # 2 <= x - inject_Z (Qfloor x)).
Proof.
  unfold nearest_even.
  destruct (Qcompare (x - inject_Z (Qfloor x)) (1 # 2)) eqn:Hc.
  - apply Qeq_alt in Hc. destruct (Z.even (Qfloor x)); [left|right]; split; auto; lra.
  - apply Qlt_alt in Hc. left. split; [reflexivity|lra].
  - apply Qgt_alt in Hc. right. split; [reflexivity|lra].
Qed.

Lemma nearest_even_le (x : Q) (z : Z) : x <= inject_Z z -> (nearest_even x <= z)%Z.
Proof.
  intros Hx. pose proof (Qfloor_le x) as Hf.
  assert (Hfz : (Qfloor x <= z)%Z) by (rewrite Zle_Qle; lra).
  destruct (nearest_even_cases x) as [[-> _]|[-> Hhalf]]; [exact Hfz|].
  assert (H : inject_Z (Qfloor x) < inject_Z z) by lra.
  rewrite <- Zlt_Qlt in H. lia.
Qed.

Lemma nearest_even_ge (x : Q) (z : Z) : inject_Z z <= x -> (z <= nearest_even x)%Z.
Proof.
  intros Hx.
  assert (Hfz : (z <= Qfloor x)%Z).
  { rewrite <- (Qfloor_Z z). now apply Qfloor_resp_le. }
  destruct (nearest_even_cases x) as [[-> _]|[-> _]]; lia.
Qed.

Lemma nearest_even_comp (x y : Q) : x == y -> nearest_even x = nearest_even y.
Proof.
  intros H. unfold nearest_even. rewrite (Qfloor_comp _ _ H).
  replace (Qcompare (x - inject_Z (Qfloor y)) (1 # 2))
    with (Qcompare (y - inject_Z (Qfloor y)) (1 # 2)); [reflexivity|].
  symmetry. apply Qcompare_comp; [now rewrite H|reflexivity].
Qed.

(** ** The nearest double *)

(** The value [round64] gives to a positive [q], before the range check. *)
Lemma round64_pos (q : Q) :
  0 < q ->
  round64 q
  = let r := inject_Z (nearest_even (q / pow2 (last_bit q))) * pow2 (last_bit q) in
    if Qle_bool (pow2 1024) r then PInf else fin r.
Proof.
  intros Hq. unfold round64.
  assert (H0 : Qeq_bool q 0 = false) by (apply Qeq_bool_false; lra).
  assert (H1 : Qle_bool 0 q = true) by (apply Qle_bool_iff; lra).
  rewrite H0, H1.
  assert (Habs : Qabs q = q).
  { destruct q as [n d]. unfold Qlt in Hq. simpl in Hq.
    destruct n; try lia. reflexivity. }
  now rewrite Habs.
Qed.

Lemma dyadic_pos (c : Q) : ClosedForm.dyadic c -> 0 < c.
Proof.
  intros (k & j & Hk & _ & ->). pose proof (pow2_pos j).
  assert (0 < inject_Z k) by (unfold Qlt, inject_Z; simpl; lia). nra.
Qed.

Lemma dyadic_below (c : Q) (k j : Z) :
  (0 < k < 2 ^ 53)%Z -> c == inject_Z k * pow2 j -> c < pow2 (53 + j).
Proof.
  intros Hk ->. rewrite pow2_add. pose proof (pow2_pos j).
  assert (inject_Z k < pow2 53).
  { rewrite pow2_nonneg by lia. rewrite <- Zlt_Qlt. lia. }
  nra.
Qed.

(** Scaling a dyadic number by a lower power of two gives an integer. *)
Lemma dyadic_scaled (k j e : Z) :
  (e <= j)%Z -> inject_Z k * pow2 j / pow2 e == inject_Z (k * 2 ^ (j - e)).
Proof.
  intros He. pose proof (pow2_pos e).
  replace j with ((j - e) + e)%Z at 1 by lia. rewrite pow2_add.
  rewrite (@pow2_nonneg (j - e)) by lia. rewrite inject_Z_mult. field. lra.
Qed.

Section Positive.
Variable q : Q.
Hypothesis Hq : 0 < q.

Let e := last_bit q.
Let r := inject_Z (nearest_even (q / pow2 e)) * pow2 e.

Lemma rounded_upper (c : Q) : ClosedForm.dyadic c -> q <= c -> r <= c.
Proof.
  intros (k & j & Hk & Hj & Hc) Hqc.
  assert (Hcpos : 0 < c) by lra.
  assert (Hlog : (Qlog2 q < 53 + j)%Z).
  { apply Qlog2_below; [exact Hq|]. pose proof (@dyadic_below c k j Hk Hc). lra. }
  assert (He : (e <= j)%Z) by (unfold e, last_bit; lia).
  pose proof (pow2_pos e) as Hpe.
  assert (Hscaled : q / pow2 e <= inject_Z (k * 2 ^ (j - e))).
  { rewrite <- (@dyadic_scaled k j e He), <- Hc.
    apply Qle_shift_div_l; [exact Hpe|].
    unfold Qdiv. rewrite <- Qmult_assoc, (Qmult_comm (/ pow2 e)), Qmult_inv_r by lra.
    lra. }
  apply nearest_even_le in Hscaled. rewrite Zle_Qle in Hscaled.
  rewrite <- (@dyadic_scaled k j e He), <- Hc in Hscaled.
  assert (E : c / pow2 e * pow2 e == c) by (field; lra).
  unfold r. rewrite <- E. apply Qmult_le_compat_r; [exact Hscaled|lra].
Qed.

Lemma rounded_lower (c : Q) : ClosedForm.dyadic c -> c <= q -> c <= r.
Proof.
  intros (k & j & Hk & Hj & Hc) Hcq.
  pose proof (pow2_pos e) as Hpe.
  destruct (Z.le_gt_cases e j) as [He|He].
  - assert (Hscaled : inject_Z (k * 2 ^ (j - e)) <= q / pow2 e).
    { rewrite <- (@dyadic_scaled k j e He), <- Hc.
      apply Qle_shift_div_l; [exact Hpe|].
      unfold Qdiv. rewrite <- Qmult_assoc, (Qmult_comm (/ pow2 e)), Qmult_inv_r by lra.
      lra. }
    apply nearest_even_ge in Hscaled. rewrite Zle_Qle in Hscaled.
    rewrite <- (@dyadic_scaled k j e He), <- Hc in Hscaled.
    assert (E : c / pow2 e * pow2 e == c) by (field; lra).
    unfold r. rewrite <- E. apply Qmult_le_compat_r; [exact Hscaled|lra].
  - assert (Ee : e = (Qlog2 q - 52)%Z) by (unfold e, last_bit in *; lia).
    destruct (Qlog2_spec Hq) as [Hlow _].
    assert (Hscaled : inject_Z (2 ^ 52) <= q / pow2 e).
    { apply Qle_shift_div_l; [exact Hpe|].
      rewrite <- (@pow2_nonneg 52) by lia. rewrite <- pow2_add.
      replace (52 + e)%Z with (Qlog2 q) by lia. exact Hlow. }
    apply nearest_even_ge in Hscaled. rewrite Zle_Qle in Hscaled.
    rewrite <- (@pow2_nonneg 52) in Hscaled by lia.
    assert (Hr : pow2 (53 + j) <= r).
    { unfold r. apply Qle_trans with (pow2 52 * pow2 e).
      - rewrite <- pow2_add. apply pow2_le. lia.
      - nra. }
    pose proof (@dyadic_below c k j Hk Hc). lra.
Qed.

Lemma rounded_nonneg : 0 <= r.
Proof.
  pose proof (pow2_pos e) as Hpe.
  assert (H : inject_Z 0 <= q / pow2 e).
  { change (inject_Z 0) with 0. apply Qle_shift_div_l; [exact Hpe|]. lra. }
  apply nearest_even_ge in H. rewrite Zle_Qle in H. change (inject_Z 0) with 0 in H.
  unfold r. nra.
Qed.

End Positive.

(** A positive number between two doubles rounds to a double between
    them. *)
Lemma round64_between (q lo hi : Q) :
  ClosedForm.dyadic lo -> ClosedForm.dyadic hi -> lo <= q <= hi -> hi < pow2 1024 ->
  exists r : Q, round64 q = Fin r /\ lo <= r <= hi.
Proof.
  intros Hlo Hhi [H1 H2] Hmax.
  assert (Hq : 0 < q) by (pose proof (dyadic_pos Hlo); lra).
  rewrite (round64_pos Hq). cbv zeta.
  pose proof (rounded_upper Hq Hhi H2) as Hu.
  pose proof (rounded_lower Hq Hlo H1) as Hl.
  destruct (Qle_bool (pow2 1024) _) eqn:Hc; [apply Qle_bool_iff in Hc; lra|].
  eexists. split; [reflexivity|]. rewrite Qred_correct. split; assumption.
Qed.

Lemma round64_upper (q hi : Q) :
  0 < q -> ClosedForm.dyadic hi -> q <= hi -> hi < pow2 1024 ->
  exists r : Q, round64 q = Fin r /\ 0 <= r <= hi.
Proof.
  intros Hq Hhi H2 Hmax. rewrite (round64_pos Hq). cbv zeta.
  pose proof (rounded_upper Hq Hhi H2) as Hu.
  pose proof (rounded_nonneg Hq) as Hl.
  destruct (Qle_bool (pow2 1024) _) eqn:Hc; [apply Qle_bool_iff in Hc; lra|].
  eexists. split; [reflexivity|]. rewrite Qred_correct. split; assumption.
Qed.

Lemma round64_lower (q lo : Q) :
  ClosedForm.dyadic lo -> lo <= q ->
  round64 q = PInf \/ exists r : Q, round64 q = Fin r /\ lo <= r.
Proof.
  intros Hlo H1.
  assert (Hq : 0 < q) by (pose proof (dyadic_pos Hlo); lra).
  rewrite (round64_pos Hq). cbv zeta.
  pose proof (rounded_lower Hq Hlo H1) as Hl.
  destruct (Qle_bool (pow2 1024) _); [now left|right].
  eexists. split; [reflexivity|]. now rewrite Qred_correct.
Qed.

Lemma round64_zero (q : Q) : q == 0 -> round64 q = Fin 0.
Proof.
  intros H. unfold round64.
  now replace (Qeq_bool q 0) with true by (symmetry; now apply Qeq_bool_iff).
Qed.

(** Rounding commutes with the change of sign. *)
Lemma round64_opp (q : Q) : round64 (- q) = neg (round64 q).
Proof.
  destruct (Qeq_bool q 0) eqn:H0.
  - apply Qeq_bool_iff in H0. rewrite (round64_zero H0).
    rewrite round64_zero by (rewrite H0; reflexivity). reflexivity.
  - apply Qeq_bool_false in H0. unfold round64.
    assert (H0' : Qeq_bool (- q) 0 = false) by (apply Qeq_bool_false; lra).
    assert (Habs : Qabs (- q) = Qabs q).
    { destruct q as [n d]. unfold Qabs, Qopp. cbn [Qnum Qden]. now rewrite Z.abs_opp. }
    rewrite H0', Habs. replace (Qeq_bool q 0) with false
      by (symmetry; now apply Qeq_bool_false).
    set (r := inject_Z (nearest_even (Qabs q / pow2 (last_bit (Qabs q))))
              * pow2 (last_bit (Qabs q))).
    destruct (Qle_bool 0 q) eqn:Hs.
    + apply Qle_bool_iff in Hs.
      replace (Qle_bool 0 (- q)) with false
        by (symmetry; apply not_true_is_false; intros H; apply Qle_bool_iff in H; lra).
      destruct (Qle_bool (pow2 1024) r); [reflexivity|].
      cbn [neg]. apply fin_Qeq. now rewrite Qred_correct.
    + assert (Hneg : q < 0).
      { apply Qnot_le_lt. intros H. apply Qle_bool_iff in H. congruence. }
      replace (Qle_bool 0 (- q)) with true by (symmetry; apply Qle_bool_iff; lra).
      destruct (Qle_bool (pow2 1024) r); [reflexivity|].
      cbn [neg]. apply fin_Qeq. rewrite Qred_correct. ring.
Qed.

Lemma dyadic_Z (z : Z) : (0 < z < 2 ^ 53)%Z -> ClosedForm.dyadic (inject_Z z).
Proof.
  intros Hz. exists z, 0%Z. split; [exact Hz|]. split; [lia|].
  change (pow2 0) with 1. ring.
Qed.

Lemma dyadic_below_max (c : Q) : c < pow2 53 -> c < pow2 1024.
Proof. intros H. pose proof (@pow2_lt 53 1024 ltac:(lia)). lra. Qed.

(** Integers of less than 54 bits are doubles. *)
Lemma round64_Z (z : Z) : (Z.abs z < 2 ^ 53)%Z -> round64 (inject_Z z) = of_Z z.
Proof.
  assert (Hpos : forall p : Z, (0 < p < 2 ^ 53)%Z -> round64 (inject_Z p) = of_Z p).
  { intros p Hp.
    assert (Hmax : inject_Z p < pow2 1024).
    { apply dyadic_below_max. rewrite pow2_nonneg by lia. rewrite <- Zlt_Qlt. lia. }
    assert (Hq : 0 < inject_Z p) by (unfold Qlt, inject_Z; simpl; lia).
    rewrite (round64_pos Hq). cbv zeta.
    pose proof (rounded_upper Hq (dyadic_Z Hp) (Qle_refl _)) as Hu.
    pose proof (rounded_lower Hq (dyadic_Z Hp) (Qle_refl _)) as Hl.
    destruct (Qle_bool (pow2 1024) _) eqn:Hc; [apply Qle_bool_iff in Hc; lra|].
    apply fin_of_Z. now apply Qle_antisym. }
  intros Hz. destruct (Z.lt_trichotomy z 0) as [Hneg|[->|Hp]].
  - replace z with (- - z)%Z by lia. rewrite inject_Z_opp, round64_opp.
    rewrite Hpos by lia. unfold of_Z. cbn [neg]. rewrite <- inject_Z_opp.
    unfold fin. now rewrite Qred_inject_Z.
  - reflexivity.
  - apply Hpos. lia.
Qed.

(** [round64] on some rationals: the nearest double, the even one of two
    equally near, [Infinity] from halfway beyond the largest double, and the
    multiples of [2 ^ (-1074)] near 0. *)
Lemma round64_samples :
  round64 (1 # 10) = Fin (3602879701896397 # 36028797018963968)
  /\ round64 (1 # 3) = Fin (6004799503160661 # 18014398509481984)
  /\ round64 (1600 # 3) = Fin (4691249611844267 # 8796093022208)
  /\ round64 (- (2 # 3)) = Fin (- 6004799503160661 # 9007199254740992)
  /\ round64 (inject_Z (2 ^ 53 + 1)) = of_Z (2 ^ 53)
  /\ round64 (inject_Z (2 ^ 53 + 3)) = of_Z (2 ^ 53 + 4)
  /\ round64 (inject_Z (2 ^ 1024 - 2 ^ 970 - 1)) = of_Z (2 ^ 1024 - 2 ^ 971)
  /\ round64 (inject_Z (2 ^ 1024 - 2 ^ 970)) = PInf
  /\ round64 (pow2 (-1075)) = Fin 0
  /\ round64 (3 * pow2 (-1075)) = Fin (pow2 (-1073))
  /\ round64 (5 * pow2 (-1076)) = Fin (pow2 (-1074)).
Proof. repeat split; vm_compute; reflexivity. Qed.

End Rounding.

(* ================================================================== *)
(** * The loops of [processAudioData] *)
(* ================================================================== *)

Module ProcessFacts.
Import JS AudioProcessor Facts ClosedForm.

Lemma for_range_project (S T : Type) (p : S -> T)
    (body : nat -> S -> S) (bodyT : nat -> T -> T) (lo count : nat) (s : S) :
  (forall i s, p (body i s) = bodyT i (p s)) ->
  p (for_range lo count body s) = for_range lo count bodyT (p s).
Proof.
  intros H. induction count as [|count IH]; [reflexivity|].
  now rewrite !for_range_S, H, IH.
Qed.

(** A loop that stores [f i] in slot [i] of a fresh array builds
    [f 0, ..., f (n-1)]. *)
Lemma fill_loop (f : nat -> value) (n : nat) :
  for_range 0 n (fun i arr => set arr i (f i)) (repeat VUndef n) = map f (seq 0 n).
Proof.
  assert (H : forall k, (k <= n)%nat ->
            for_range 0 k (fun i arr => set arr i (f i)) (repeat VUndef n)
            = map f (seq 0 k) ++ repeat VUndef (n - k)).
  { induction k as [|k IH]; intros Hk.
    - simpl. now rewrite Nat.sub_0_r.
    - rewrite for_range_S, IH by lia. rewrite seq_S, map_app.
      replace (n - k)%nat with (Datatypes.S (n - Datatypes.S k)) by lia.
      cbn [repeat map Nat.add].
      now rewrite set_next by now rewrite length_map, length_seq. }
  rewrite H by lia. now rewrite Nat.sub_diag, app_nil_r.
Qed.

(** A loop that rewrites slot [i] from its own content is a [map]. *)
Lemma inplace_loop (g : value -> value) (body : nat -> list value -> list value)
    (arr : list value) :
  (forall i a, (i < length a)%nat -> body i a = set a i (g (get a (of_nat i)))) ->
  for_range 0 (length arr) body arr = map g arr.
Proof.
  intros Hbody.
  assert (H : forall k, (k <= length arr)%nat ->
            for_range 0 k body arr = map g (firstn k arr) ++ skipn k arr).
  { induction k as [|k IH]; intros Hk; [reflexivity|].
    rewrite for_range_S, IH by lia. cbn [Nat.add].
    assert (Hlen : length (map g (firstn k arr)) = k)
      by (rewrite length_map, length_firstn; lia).
    destruct (skipn k arr) as [|u rest] eqn:Hskip.
    { apply (f_equal (@length _)) in Hskip. rewrite length_skipn in Hskip.
      simpl in Hskip. lia. }
    assert (Hk1 : firstn (Datatypes.S k) arr = firstn k arr ++ [u]).
    { rewrite <- (firstn_skipn k arr) at 1. rewrite Hskip.
      rewrite firstn_app, length_firstn.
      replace (Datatypes.S k - Nat.min k (length arr))%nat with 1%nat by lia.
      rewrite firstn_firstn. replace (Nat.min (Datatypes.S k) k) with k by lia.
      reflexivity. }
    assert (Hk2 : skipn (Datatypes.S k) arr = rest).
    { replace (Datatypes.S k) with (1 + k)%nat by lia.
      rewrite <- skipn_skipn, Hskip. reflexivity. }
    rewrite Hk1, Hk2, map_app.
    rewrite Hbody by (rewrite length_app; simpl; lia).
    unfold get. rewrite index_of_nat, nth_error_app2 by lia.
    rewrite Hlen, Nat.sub_diag. cbn [nth_error map].
    now rewrite set_next by exact Hlen. }
  rewrite H by lia. now rewrite firstn_all, skipn_all, app_nil_r.
Qed.

Lemma map_read_seq (A : Type) (inj : A -> number) (arr : list A) :
  map (fun i => read inj arr (of_nat i)) (seq 0 (length arr))
  = map (fun a => VNum (inj a)) arr.
Proof.
  apply nth_error_ext. intros k.
  rewrite !nth_error_map.
  destruct (Nat.lt_ge_cases k (length arr)) as [Hk|Hk].
  - rewrite nth_error_seq. destruct (Nat.ltb_spec k (length arr)); [|lia]. simpl.
    unfold read. rewrite index_of_nat.
    destruct (nth_error arr k) eqn:Hn; [reflexivity|].
    apply nth_error_None in Hn. lia.
  - rewrite (proj2 (nth_error_None _ _)) by now rewrite length_seq.
    now rewrite (proj2 (nth_error_None arr k)).
Qed.

Section Loops.
Context {E : Engine}.

Lemma scan_frequency_array (frequencyData : list byte) (n : nat) :
  fst (fst (for_range 0 n (scan_frequency frequencyData) (repeat VUndef n, 0%nat, Fin 0)))
  = map (fun i => get_u8 frequencyData (of_nat i)) (seq 0 n).
Proof.
  rewrite (for_range_project (fun s => fst (fst s))
             (scan_frequency frequencyData)
             (fun i arr => set arr i (get_u8 frequencyData (of_nat i)))).
  - apply fill_loop.
  - intros i [[arr mi] mv]. unfold scan_frequency.
    now destruct (gtb _ mv).
Qed.

Lemma scan_frequency_max (frequencyData : list byte) (n : nat) (arr : list value) :
  (fun s => (snd (fst s), snd s))
    (for_range 0 n (scan_frequency frequencyData) (arr, 0%nat, Fin 0))
  = for_range 0 n (scan_max frequencyData) (0%nat, Fin 0).
Proof.
  apply (for_range_project (fun s : list value * nat * number => (snd (fst s), snd s))
           (scan_frequency frequencyData) (scan_max frequencyData)).
  intros i [[a mi] mv]. unfold scan_frequency, scan_max. simpl.
  now destruct (gtb _ mv).
Qed.

Lemma scan_time_array (timeData : list byte) (n : nat) :
  fst (for_range 0 n (scan_time timeData) (repeat VUndef n, Fin 0))
  = map (fun i => VNum (normalized (get_u8 timeData (of_nat i)))) (seq 0 n).
Proof.
  rewrite (for_range_project (@fst _ _) (scan_time timeData)
             (fun i arr => set arr i (VNum (normalized (get_u8 timeData (of_nat i)))))).
  - apply fill_loop.
  - now intros i [arr vs].
Qed.

Lemma scan_time_volume (timeData : list byte) (n : nat) (arr : list value) :
  snd (for_range 0 n (scan_time timeData) (arr, Fin 0))
  = for_range 0 n (scan_volume timeData) (Fin 0).
Proof.
  apply (for_range_project (@snd _ _) (scan_time timeData) (scan_volume timeData)).
  now intros i [a vs].
Qed.

Lemma set_set (arr : list value) (i : nat) (u v : value) :
  set (set arr i u) i v = set arr i v.
Proof.
  revert arr; induction i as [|i IH]; intros [|x arr]; simpl; auto; now rewrite IH.
Qed.

Lemma normalize_loop (logarithmic : bool) (maxFrequencyValue : number)
    (arr : list value) :
  for_range 0 (length arr) (normalize_bin logarithmic maxFrequencyValue) arr
  = map (normalize_value logarithmic maxFrequencyValue) arr.
Proof.
  apply inplace_loop. intros i a Hi.
  unfold normalize_bin, normalize_value.
  destruct logarithmic; [|reflexivity].
  rewrite set_set. do 2 f_equal.
  unfold get at 1. now rewrite index_of_nat, nth_error_set_same.
Qed.

(** [processAudioData] with its loops in closed form, for a buffer length
    that [new Array] accepts. *)
Lemma processAudioData_unfold (audioData : AudioData) (options : DataProcessorOptions) :
  (0 <= bufferLength audioData < 2 ^ 32)%Z ->
  let n := Z.to_nat (bufferLength audioData) in
  let raw := map (fun i => get_u8 (frequencyData audioData) (of_nat i)) (seq 0 n) in
  let '(maxFrequencyIndex, maxFrequencyValue) :=
    for_range 0 n (scan_max (frequencyData audioData)) (0%nat, Fin 0) in
  let volume :=
    div (for_range 0 n (scan_volume (timeData audioData)) (Fin 0))
        (of_Z (bufferLength audioData)) in
  processAudioData audioData options =
  Normal {|
    Processed.frequencyData :=
      if or_default true (normalize options) && gtb maxFrequencyValue (Fin 0)
      then map (normalize_value (or_default false (logarithmic options))
                                maxFrequencyValue) raw
      else raw;
    Processed.timeData :=
      map (fun i => VNum (normalized (get_u8 (timeData audioData) (of_nat i)))) (seq 0 n);
    Processed.volume := volume;
    Processed.peakLevel := div maxFrequencyValue (Fin 255);
    Processed.isActive := gtb volume (Fin (5 # 100));
    Processed.dominant := {|
      Processed.frequency :=
        div (mul (of_nat maxFrequencyIndex) (div (sampleRate audioData) (Fin 2)))
            (of_Z (bufferLength audioData));
      Processed.amplitude := div maxFrequencyValue (Fin 255);
      Processed.index := maxFrequencyIndex
    |}
  |}.
Proof.
  intros Hn n raw.
  pose proof (scan_frequency_array (frequencyData audioData) n) as Harr.
  pose proof (scan_frequency_max (frequencyData audioData) n (repeat VUndef n)) as Hmax.
  pose proof (scan_time_array (timeData audioData) n) as Htarr.
  pose proof (scan_time_volume (timeData audioData) n (repeat VUndef n)) as Hvol.
  unfold processAudioData, new_Array.
  replace ((0 <=? bufferLength audioData)%Z && (bufferLength audioData <? 2 ^ 32)%Z)
    with true by (symmetry; apply andb_true_iff; split;
                  [apply Z.leb_le | apply Z.ltb_lt]; lia).
  cbn [bind]. fold n.
  destruct (for_range 0 n (scan_frequency (frequencyData audioData)) _)
    as [[arr mi] mv].
  destruct (for_range 0 n (scan_time (timeData audioData)) _) as [tarr vs].
  simpl in Harr, Hmax, Htarr, Hvol. subst arr tarr vs.
  rewrite <- Hmax. fold raw.
  destruct (or_default true (normalize options) && gtb mv (Fin 0)); [|reflexivity].
  replace n with (length raw) at 1
    by (unfold raw; now rewrite length_map, length_seq).
  now rewrite normalize_loop.
Qed.

End Loops.
End ProcessFacts.

(* ================================================================== *)
(** * [processAudioData]: frame shape, silence, normalisation *)
(* ================================================================== *)

Module ProcessTheorems.
Import JS AudioProcessor Facts ClosedForm ProcessFacts Examples.

Lemma new_Array_invalid (n : Z) : ~ valid_length n -> new_Array n = Throw RangeError.
Proof.
  unfold valid_length, new_Array. intros H.
  destruct (Z.leb_spec 0 n); destruct (Z.ltb_spec n (2 ^ 32)); simpl; auto; lia.
Qed.

Section WithEngine.
Context {E : Engine}.

(** C1 (as the code has it): [processAudioData] does not look at the
    lengths of the two arrays and has no validation error.  For every frame
    whose [bufferLength] is an array length it returns a result whose two
    arrays have [bufferLength] entries, whatever the lengths of
    [timeSamples] and [frequencyMagnitudes]; its only failure is the
    [RangeError] of [new Array] at a [bufferLength] that is no array length. *)
Theorem processAudioData_no_validation
    (audioData : AudioData) (options : DataProcessorOptions) :
  (valid_length (bufferLength audioData) ->
   exists r, processAudioData audioData options = Normal r
     /\ length (Processed.frequencyData r) = Z.to_nat (bufferLength audioData)
     /\ length (Processed.timeData r) = Z.to_nat (bufferLength audioData))
  /\ (~ valid_length (bufferLength audioData) ->
      processAudioData audioData options = Throw RangeError).
Proof.
  split.
  - intros Hn. pose proof (processAudioData_unfold audioData options Hn) as H.
    cbv zeta in H.
    destruct (for_range 0 _ (scan_max _) _) as [mi mv].
    eexists; split; [exact H|]. simpl.
    split; [|now rewrite length_map, length_seq].
    destruct (_ && _); now rewrite ?length_map, length_seq.
  - intros Hn. unfold processAudioData.
    now rewrite (new_Array_invalid Hn).
Qed.

End WithEngine.

Lemma processAudioData_no_validation_witness :
  valid_length (bufferLength mismatched_frame)
  /\ exists r, processAudioData mismatched_frame no_options = Normal r
       /\ length (Processed.frequencyData r) = 2%nat
       /\ length (Processed.timeData r) = 2%nat.
Proof.
  assert (H : valid_length (bufferLength mismatched_frame))
    by (unfold valid_length; simpl; lia).
  split; [exact H|].
  exact (proj1 (processAudioData_no_validation mismatched_frame no_options) H).
Defined.

(** C1, as stated, fails: a frame whose arrays differ in length and a frame
    with empty arrays are both processed into a result, not an error. *)
Lemma processAudioData_accepts_malformed :
  length (timeData mismatched_frame) <> length (frequencyData mismatched_frame)
  /\ processAudioData mismatched_frame no_options =
     Normal {|
       Processed.frequencyData := [VNum (Fin (1 # 2)); VNum (Fin 1)];
       Processed.timeData := [VNum (Fin 0); VNum NaN];
       Processed.volume := NaN;
       Processed.peakLevel := Fin (4 # 51);
       Processed.isActive := false;
       Processed.dominant := {|
         Processed.frequency := Fin 11025;
         Processed.amplitude := Fin (4 # 51);
         Processed.index := 1 |} |}
  /\ timeData empty_frame = [] /\ frequencyData empty_frame = []
  /\ processAudioData empty_frame no_options =
     Normal {|
       Processed.frequencyData := [];
       Processed.timeData := [];
       Processed.volume := NaN;
       Processed.peakLevel := Fin 0;
       Processed.isActive := false;
       Processed.dominant := {|
         Processed.frequency := NaN;
         Processed.amplitude := Fin 0;
         Processed.index := 0 |} |}.
Proof.
  split; [simpl; lia|]. repeat split; vm_compute; reflexivity.
Qed.

(** ** Silence *)

Lemma of_byte_byteZ (b : byte) : of_byte b = of_Z (byteZ b).
Proof. reflexivity. Qed.

Lemma byteZ_range (b : byte) : (0 <= byteZ b <= 255)%Z.
Proof. unfold byteZ. pose proof (Byte.to_N_bounded b). lia. Qed.

Lemma get_u8_repeat (b : byte) (n i : nat) :
  get_u8 (repeat b n) (of_nat i) = if (i <? n)%nat then VNum (of_byte b) else VUndef.
Proof.
  unfold get_u8, read. rewrite index_of_nat.
  destruct (Nat.ltb_spec i n) as [H|H].
  - now rewrite nth_error_repeat.
  - now rewrite (proj2 (nth_error_None _ _)) by now rewrite repeat_length.
Qed.

Lemma raw_repeat (b : byte) (n : nat) :
  map (fun i => get_u8 (repeat b n) (of_nat i)) (seq 0 n) = repeat (VNum (of_byte b)) n.
Proof.
  pose proof (map_read_seq of_byte (repeat b n)) as H.
  rewrite repeat_length, map_repeat in H. exact H.
Qed.

Lemma time_repeat (b : byte) (n : nat) :
  map (fun i => VNum (normalized (get_u8 (repeat b n) (of_nat i)))) (seq 0 n)
  = repeat (VNum (normalized (VNum (of_byte b)))) n.
Proof.
  rewrite <- (map_map (fun i => get_u8 (repeat b n) (of_nat i))
                      (fun v => VNum (normalized v))).
  now rewrite raw_repeat, map_repeat.
Qed.

Lemma scan_max_zero (n : nat) :
  for_range 0 n (scan_max (repeat x00 n)) (0%nat, Fin 0) = (0%nat, Fin 0).
Proof.
  apply (for_range_invariant (fun _ s => s = (0%nat, Fin 0))); [reflexivity|].
  intros k s Hk ->. unfold scan_max. rewrite get_u8_repeat.
  now destruct (_ <? _)%nat.
Qed.

Lemma scan_volume_centre (n : nat) :
  for_range 0 n (scan_volume (repeat x80 n)) (Fin 0) = Fin 0.
Proof.
  apply (for_range_invariant (fun _ s => s = Fin 0)); [reflexivity|].
  intros k s Hk ->. unfold scan_volume. rewrite get_u8_repeat.
  destruct (Nat.ltb_spec (0 + k) n); [reflexivity|simpl in *; lia].
Qed.

Lemma div_zero_of_Z (n : Z) : (n <> 0)%Z -> div (Fin 0) (of_Z n) = Fin 0.
Proof.
  intros Hn. unfold div, of_Z.
  destruct (Qeq_bool (inject_Z n) 0) eqn:H0.
  - apply Qeq_bool_iff in H0. unfold Qeq, inject_Z in H0; simpl in H0. lia.
  - change (Fin 0) with (fin 0). apply fin_Qeq. unfold Qdiv. ring.
Qed.

Lemma mul_zero_fin (q : Q) : mul (Fin 0) (Fin q) = Fin 0.
Proof. simpl. change (Fin 0) with (fin 0). apply fin_Qeq. ring. Qed.

Section WithEngine.
Context {E : Engine}.

(** C3 (as the code has it): for every frame of at least one bin whose
    magnitudes are all zero and whose waveform bytes are all 128 (the centre
    of the unsigned waveform), [processAudioData] returns volume 0,
    [isActive = false] and dominant amplitude 0.  Normalisation is skipped
    (the levels are the raw zeros, nothing is divided by the zero maximum)
    and every number of the result is finite. *)
Theorem silence_invariant (n : nat) (rate : Q) (options : DataProcessorOptions) :
  (1 <= n)%nat -> valid_length (Z.of_nat n) ->
  processAudioData (silent_frame n (Fin rate)) options =
  Normal {|
    Processed.frequencyData := repeat (VNum (Fin 0)) n;
    Processed.timeData := repeat (VNum (Fin 0)) n;
    Processed.volume := Fin 0;
    Processed.peakLevel := Fin 0;
    Processed.isActive := false;
    Processed.dominant := {|
      Processed.frequency := Fin 0;
      Processed.amplitude := Fin 0;
      Processed.index := 0 |} |}.
Proof.
  intros Hn Hvalid.
  pose proof (processAudioData_unfold (silent_frame n (Fin rate)) options Hvalid) as H.
  cbv zeta in H. cbn [silent_frame frequencyData timeData sampleRate bufferLength] in H.
  rewrite Nat2Z.id in H.
  rewrite scan_max_zero, scan_volume_centre, raw_repeat, time_repeat in H.
  rewrite div_zero_of_Z in H by lia.
  rewrite H. rewrite andb_false_r.
  replace (div (mul (of_nat 0) (div (Fin rate) (Fin 2))) (of_Z (Z.of_nat n)))
    with (Fin 0).
  - reflexivity.
  - change (div (Fin rate) (Fin 2)) with (fin (rate / 2)).
    unfold fin. change (of_nat 0) with (Fin 0).
    rewrite mul_zero_fin. symmetry. apply div_zero_of_Z. lia.
Qed.

End WithEngine.

Lemma silence_invariant_witness :
  (1 <= 4)%nat /\ valid_length (Z.of_nat 4)
  /\ exists r, processAudioData (silent_frame 4 (Fin 44100)) no_options = Normal r
       /\ Processed.volume r = Fin 0
       /\ Processed.isActive r = false
       /\ Processed.amplitude (Processed.dominant r) = Fin 0.
Proof.
  assert (H1 : (1 <= 4)%nat) by lia.
  assert (H2 : valid_length (Z.of_nat 4)) by (unfold valid_length; simpl; lia).
  split; [exact H1|]. split; [exact H2|].
  eexists. split; [exact (silence_invariant 44100 no_options H1 H2)|].
  repeat split.
Defined.

(** C3, as stated, fails: when the waveform bytes are zero as well, every
    sample is at full negative deflection and the volume is 1. *)
Lemma all_zero_frame_is_loud :
  Forall (fun b => b = x00) (frequencyData all_zero_frame)
  /\ Forall (fun b => b = x00) (timeData all_zero_frame)
  /\ exists r, processAudioData all_zero_frame no_options = Normal r
       /\ Processed.volume r = Fin 1
       /\ Processed.isActive r = true.
Proof.
  split; [repeat constructor|]. split; [repeat constructor|].
  eexists. split; [vm_compute; reflexivity|]. split; reflexivity.
Qed.

End ProcessTheorems.

(* ================================================================== *)
(** * [processAudioData]: the normalisation bound *)
(* ================================================================== *)

Module NormalizeTheorems.
Import JS AudioProcessor Facts ClosedForm ProcessFacts ProcessTheorems Examples.

Lemma get_u8_inside (fd : list byte) (k : nat) (b : byte) :
  nth_error fd k = Some b -> get_u8 fd (of_nat k) = VNum (of_Z (byteZ b)).
Proof. intros H. unfold get_u8, read. now rewrite index_of_nat, H. Qed.

(** The maximum found by the first loop: it bounds every magnitude, and
    unless it is zero it is the magnitude stored at the index found. *)
Lemma scan_max_spec (fd : list byte) (k : nat) :
  (k <= length fd)%nat ->
  exists (mi : nat) (m : Z),
    for_range 0 k (scan_max fd) (0%nat, Fin 0) = (mi, of_Z m)
    /\ (0 <= m)%Z
    /\ (forall j b, (j < k)%nat -> nth_error fd j = Some b -> (byteZ b <= m)%Z)
    /\ ((m = 0%Z /\ mi = 0%nat)
        \/ (0 < m)%Z /\ (mi < k)%nat
           /\ exists b, nth_error fd mi = Some b /\ byteZ b = m).
Proof.
  induction k as [|k IH]; intros Hk.
  - exists 0%nat, 0%Z. repeat split; lia.
  - destruct IH as (mi & m & Hloop & Hm & Hall & Hat); [lia|].
    rewrite for_range_S, Hloop. cbn [Nat.add].
    destruct (nth_error fd k) as [b|] eqn:Hb;
      [|apply nth_error_None in Hb; lia].
    unfold scan_max. rewrite (get_u8_inside _ _ Hb). cbn [ToNumber snd].
    rewrite gtb_of_Z. destruct (Z.ltb_spec m (byteZ b)) as [Hlt|Hge].
    + exists k, (byteZ b). repeat split; try lia.
      * intros j c Hj Hc. destruct (Nat.eq_dec j k) as [->|Hne].
        -- rewrite Hb in Hc. injection Hc as <-. lia.
        -- pose proof (Hall j c ltac:(lia) Hc). lia.
      * right. repeat split; try lia. now exists b.
    + exists mi, m. repeat split; try lia.
      * intros j c Hj Hc. destruct (Nat.eq_dec j k) as [->|Hne].
        -- rewrite Hb in Hc. injection Hc as <-. lia.
        -- apply (Hall j c); [lia|exact Hc].
      * destruct Hat as [Hz|(Hp & Hi & Hex)]; [now left|right].
        repeat split; auto; lia.
Qed.

Lemma div_of_Z (b m : Z) :
  (m <> 0)%Z -> div (of_Z b) (of_Z m) = fin (inject_Z b / inject_Z m).
Proof.
  intros Hm. unfold div, of_Z.
  destruct (Qeq_bool (inject_Z m) 0) eqn:H0; [|reflexivity].
  apply Qeq_bool_iff in H0. unfold Qeq, inject_Z in H0; simpl in H0. lia.
Qed.

Lemma quotient_range (b m : Z) :
  (0 <= b <= m)%Z -> (0 < m)%Z -> 0 <= inject_Z b / inject_Z m <= 1.
Proof.
  intros Hb Hm.
  assert (Hm' : 0 < inject_Z m) by (unfold Qlt, inject_Z; simpl; lia).
  split.
  - apply Qle_shift_div_l; [exact Hm'|]. rewrite Qmult_0_l.
    unfold Qle, inject_Z; simpl; lia.
  - apply Qle_shift_div_r; [exact Hm'|]. rewrite Qmult_1_l.
    rewrite <- Zle_Qle. lia.
Qed.

Lemma fin_range (q lo hi : Q) :
  lo <= q <= hi -> exists q', fin q = Fin q' /\ lo <= q' <= hi.
Proof.
  intros H. exists (Qred q). split; [reflexivity|]. now rewrite Qred_correct.
Qed.

Section WithEngine.
Context {E : Engine}.

(** The log scaling of a level in [[0, 1]] stays in [[0, 1]]. *)
Lemma log_scale_range (q : Q) :
  log_monotone E -> 0 <= q <= 1 ->
  unit_level
    (VNum (div (Math_log (add (mul (Math_max (Fin q) (Fin (1 # 1000)))
                                   (sub (Fin 10) (Fin 1))) (Fin 1)))
               (Math_log (Fin 10)))).
Proof.
  intros [Hten Hpos Hinc] Hq.
  assert (Hmax : exists v, Math_max (Fin q) (Fin (1 # 1000)) = Fin v
                           /\ (1 # 1000) <= v <= 1).
  { unfold Math_max, ltb. destruct (Qltb q (1 # 1000)) eqn:Hc.
    - exists (1 # 1000). split; [reflexivity|]. lra.
    - apply Qltb_ge in Hc. exists q. split; [reflexivity|]. lra. }
  destruct Hmax as (v & -> & Hv).
  change (sub (Fin 10) (Fin 1)) with (Fin 9).
  rewrite mul_fin. unfold fin at 1. rewrite add_fin. unfold fin at 1.
  set (y := Qred (Qred (v * 9) + 1)).
  assert (Hy : y == v * 9 + 1)
    by (unfold y; rewrite Qred_correct, Qred_correct; reflexivity).
  assert (Hy1 : 1 < y) by lra.
  assert (Hy10 : y <= 10) by lra.
  rewrite (@Math_log_ordinary E y) by lra.
  rewrite (@Math_log_ordinary E 10) by lra.
  unfold fin. rewrite div_fin by (rewrite Qred_correct; lra).
  unfold fin.
  eexists. split; [reflexivity|].
  rewrite !Qred_correct.
  assert (H0 : 0 <= log_approx y) by (apply Hpos; lra).
  assert (H1 : log_approx y <= log_approx 10) by (apply Hinc; lra).
  split.
  - apply Qle_shift_div_l; [exact Hten|]. lra.
  - apply Qle_shift_div_r; [exact Hten|]. lra.
Qed.

Lemma normalize_value_range (logarithmic : bool) (b m : Z) :
  (logarithmic = true -> log_monotone E) ->
  (0 <= b <= m)%Z -> (0 < m)%Z ->
  unit_level (normalize_value logarithmic (of_Z m) (VNum (of_Z b))).
Proof.
  intros Hlog Hb Hm. unfold normalize_value. cbn [ToNumber].
  rewrite div_of_Z by lia.
  destruct (fin_range (quotient_range Hb Hm)) as (q & -> & Hq).
  destruct logarithmic.
  - apply log_scale_range; auto.
  - now exists q.
Qed.

(** The maximum itself is mapped to 1, with and without log scaling. *)
Lemma normalize_value_maximum (logarithmic : bool) (m : Z) :
  (logarithmic = true -> log_monotone E) -> (0 < m)%Z ->
  normalize_value logarithmic (of_Z m) (VNum (of_Z m)) = VNum (Fin 1).
Proof.
  intros Hlog Hm. unfold normalize_value. cbn [ToNumber].
  rewrite div_of_Z by lia.
  assert (H1 : fin (inject_Z m / inject_Z m) = Fin 1).
  { change (Fin 1) with (fin 1). apply fin_Qeq. field.
    intros H0. unfold Qeq, inject_Z in H0; simpl in H0. lia. }
  rewrite H1. destruct logarithmic; [|reflexivity].
  destruct (Hlog eq_refl) as [Hten _ _].
  change (Math_max (Fin 1) (Fin (1 # 1000))) with (Fin 1).
  change (add (mul (Fin 1) (sub (Fin 10) (Fin 1))) (Fin 1)) with (Fin 10).
  rewrite (@Math_log_ordinary E 10) by lra.
  unfold fin. rewrite div_fin by (rewrite Qred_correct; lra).
  f_equal. change (Fin 1) with (fin 1). apply fin_Qeq. field.
  rewrite Qred_correct. lra.
Qed.


Lemma raw_well_formed (fd : list byte) :
  map (fun i => get_u8 fd (of_nat i)) (seq 0 (length fd))
  = map (fun b => VNum (of_Z (byteZ b))) fd.
Proof. exact (map_read_seq of_byte fd). Qed.

(** C6 (as the code has it): for every frame whose magnitude array has
    [bufferLength] entries, processed with [normalize = true], every element
    of the output [frequencyData] lies in [[0, 1]] (under log scaling: for an
    engine whose [Math.log] is non-negative and increasing above 1).  When the
    largest raw magnitude is positive, every bin holding it, the dominant bin
    among them, maps to exactly 1: that is the quotient itself when
    [logarithmic] is off, and the log scaling keeps it at 1.  When every
    magnitude is zero the normalisation is skipped and all levels, the
    dominant bin included, stay 0. *)
Theorem normalization_bound (audioData : AudioData) (options : DataProcessorOptions) :
  valid_length (bufferLength audioData) ->
  length (frequencyData audioData) = Z.to_nat (bufferLength audioData) ->
  or_default true (normalize options) = true ->
  (or_default false (logarithmic options) = true -> log_monotone E) ->
  exists r, processAudioData audioData options = Normal r
    /\ Forall unit_level (Processed.frequencyData r)
    /\ (forall k b, holds_maximum (frequencyData audioData) k b -> (0 < byteZ b)%Z ->
          nth_error (Processed.frequencyData r) k = Some (VNum (Fin 1)))
    /\ ((exists j c, nth_error (frequencyData audioData) j = Some c /\ (0 < byteZ c)%Z) ->
          (exists b, holds_maximum (frequencyData audioData)
                       (Processed.index (Processed.dominant r)) b)
          /\ nth_error (Processed.frequencyData r)
                       (Processed.index (Processed.dominant r)) = Some (VNum (Fin 1)))
    /\ ((forall j c, nth_error (frequencyData audioData) j = Some c -> byteZ c = 0%Z) ->
          Processed.frequencyData r
          = repeat (VNum (Fin 0)) (Z.to_nat (bufferLength audioData))).
Proof.
  intros Hvalid Hlen Hnorm Hlog.
  pose proof (processAudioData_unfold audioData options Hvalid) as H.
  cbv zeta in H. rewrite <- Hlen in H. rewrite raw_well_formed in H.
  destruct (scan_max_spec (frequencyData audioData) (Nat.le_refl _))
    as (mi & m & Hloop & Hm & Hall & Hat).
  rewrite Hloop, Hnorm in H. cbn [andb] in H.
  change (Fin 0) with (of_Z 0) in H. rewrite gtb_of_Z in H.
  assert (Hall' : forall j c, nth_error (frequencyData audioData) j = Some c ->
                              (byteZ c <= m)%Z).
  { intros j c Hc. apply (Hall j c); [|exact Hc].
    apply nth_error_Some. now rewrite Hc. }
  eexists. split; [exact H|]. cbn [Processed.frequencyData Processed.dominant Processed.index].
  destruct Hat as [[-> ->]|(Hpos & Hmi & bm & Hbm & Hbmm)].
  - (* every magnitude is zero *)
    cbn [Z.ltb Z.compare].
    assert (Hzero : forall j c, nth_error (frequencyData audioData) j = Some c ->
                                byteZ c = 0%Z).
    { intros j c Hc. pose proof (Hall' j c Hc). pose proof (byteZ_range c). lia. }
    split; [|split; [|split]].
    + apply Forall_forall. intros v Hv. apply in_map_iff in Hv.
      destruct Hv as (c & <- & Hc). apply In_nth_error in Hc. destruct Hc as [j Hc].
      rewrite (Hzero j c Hc). exists 0. split; [reflexivity|lra].
    + intros k b [Hk _] Hb. pose proof (Hzero k b Hk). lia.
    + intros (j & c & Hc & Hcpos). pose proof (Hzero j c Hc). lia.
    + intros _. rewrite <- Hlen.
      clear - Hzero. revert Hzero.
      induction (frequencyData audioData) as [|c fd IH]; intros Hzero; [reflexivity|].
      cbn [map length repeat]. rewrite (Hzero 0%nat c eq_refl). f_equal.
      apply IH. intros j d Hd. exact (Hzero (Datatypes.S j) d Hd).
  - (* the maximum is positive *)
    destruct (Z.ltb_spec 0 m) as [_|]; [|lia].
    assert (Hat1 : forall k b, nth_error (frequencyData audioData) k = Some b ->
                     byteZ b = m ->
                     nth_error
                       (map (normalize_value (or_default false (logarithmic options)) (of_Z m))
                          (map (fun b => VNum (of_Z (byteZ b))) (frequencyData audioData))) k
                     = Some (VNum (Fin 1))).
    { intros k b Hk Hb. rewrite !nth_error_map, Hk. cbn [option_map]. rewrite Hb.
      f_equal. now apply normalize_value_maximum. }
    split; [|split; [|split]].
    + apply Forall_forall. intros v Hv. apply in_map_iff in Hv.
      destruct Hv as (u & <- & Hu). apply in_map_iff in Hu.
      destruct Hu as (c & <- & Hc). apply In_nth_error in Hc. destruct Hc as [j Hc].
      apply normalize_value_range; [exact Hlog| |exact Hpos].
      pose proof (byteZ_range c). pose proof (Hall' j c Hc). lia.
    + intros k b [Hk Hmax] Hb. apply (Hat1 k b Hk).
      pose proof (Hall' k b Hk). pose proof (Hmax mi bm Hbm). lia.
    + intros _. split; [|now apply (Hat1 mi bm)].
      exists bm. split; [exact Hbm|]. intros j c Hc. rewrite Hbmm. now apply (Hall' j c).
    + intros Hzero. pose proof (Hzero mi bm Hbm). lia.
Qed.

End WithEngine.
End NormalizeTheorems.

(* ================================================================== *)
(** * The reference engine meets what the theorems ask of an engine *)
(* ================================================================== *)

Module ReferenceFacts.
Import JS ClosedForm Reference.

Lemma ratio_nonneg (x : Q) : 1 <= x -> 0 <= (x - 1) / (x + 1).
Proof. intros H. apply Qle_shift_div_l; lra. Qed.

Lemma ratio_increasing (x y : Q) :
  1 <= x -> x <= y -> (x - 1) / (x + 1) <= (y - 1) / (y + 1).
Proof.
  intros Hx Hxy. apply Qle_shift_div_l; [lra|].
  setoid_replace ((x - 1) / (x + 1) * (y + 1)) with ((x - 1) * (y + 1) / (x + 1))
    by (field; lra).
  apply Qle_shift_div_r; [lra|]. nra.
Qed.

Lemma odd_series_increasing (s t : Q) :
  0 <= s -> s <= t -> 2 * s + (2 # 3) * (s * s * s) <= 2 * t + (2 # 3) * (t * t * t).
Proof.
  intros Hs Hst.
  assert (H2 : s * s <= t * t) by (apply Qmult_le_compat_nonneg; split; lra).
  assert (H3 : s * s * s <= t * t * t).
  { apply Qmult_le_compat_nonneg; split; try lra.
    apply Qmult_le_0_compat; lra. }
  lra.
Qed.

Lemma engine_log_monotone : log_monotone engine.
Proof.
  split; cbn [log_approx engine]; unfold log_series.
  - vm_compute. reflexivity.
  - intros y Hy. pose proof (ratio_nonneg Hy) as Ht.
    pose proof (odd_series_increasing (Qle_refl 0) Ht) as H. lra.
  - intros x y Hx Hxy.
    apply odd_series_increasing; [now apply ratio_nonneg|now apply ratio_increasing].
Qed.

End ReferenceFacts.

Module NormalizeExamples.
Import JS AudioProcessor ClosedForm ProcessTheorems NormalizeTheorems.
Import Reference ReferenceFacts Examples.

Lemma normalization_bound_witness :
  valid_length (bufferLength small_frame)
  /\ length (frequencyData small_frame) = Z.to_nat (bufferLength small_frame)
  /\ or_default true (normalize normalize_log) = true
  /\ log_monotone engine
  /\ exists r, processAudioData small_frame normalize_log = Normal r
       /\ Forall unit_level (Processed.frequencyData r)
       /\ nth_error (Processed.frequencyData r) 1 = Some (VNum (Fin 1)).
Proof.
  assert (H1 : valid_length (bufferLength small_frame))
    by (unfold valid_length; simpl; lia).
  assert (H2 : length (frequencyData small_frame) = Z.to_nat (bufferLength small_frame))
    by reflexivity.
  assert (H3 : or_default true (normalize normalize_log) = true) by reflexivity.
  repeat (split; [assumption || exact engine_log_monotone|]).
  destruct (normalization_bound small_frame normalize_log H1 H2 H3
              (fun _ => engine_log_monotone))
    as (r & Hr & Hall & Hmax & _).
  exists r. split; [exact Hr|]. split; [exact Hall|].
  apply (Hmax 1%nat x14); [|reflexivity].
  split; [reflexivity|].
  intros [|[|[|j]]] c Hc; simpl in Hc;
    try (injection Hc as <-; vm_compute; discriminate).
  destruct j; discriminate.
Defined.

(** C6, as stated, fails on a frame without any energy: with
    [normalize = true] the bin holding the largest raw magnitude (bin 0, at
    magnitude 0) is left at 0, not mapped to 1. *)
Lemma silent_maximum_stays_zero :
  or_default true (normalize normalize_only) = true
  /\ exists r, processAudioData all_zero_frame normalize_only = Normal r
       /\ holds_maximum (frequencyData all_zero_frame)
                        (Processed.index (Processed.dominant r)) x00
       /\ nth_error (Processed.frequencyData r) (Processed.index (Processed.dominant r))
          = Some (VNum (Fin 0))
       /\ VNum (Fin 0) <> VNum (Fin 1).
Proof.
  split; [reflexivity|]. eexists. split; [vm_compute; reflexivity|].
  cbn [Processed.index Processed.dominant Processed.frequencyData].
  split; [|split; [reflexivity|discriminate]].
  split; [reflexivity|].
  intros [|[|j]] c Hc; simpl in Hc; try (injection Hc as <-; vm_compute; discriminate).
  destruct j; discriminate.
Qed.

End NormalizeExamples.

(* ================================================================== *)
(** * [TempoAnalyzer] *)
(* ================================================================== *)

Module TempoTheorems.
Import JS BeatDetection Facts.

(** ** The sort *)

Lemma insert_sorted_perm (x : Z) (l : list Z) : Permutation (x :: l) (insert_sorted x l).
Proof.
  induction l as [|y l IH]; simpl; [apply Permutation_refl|].
  destruct (x <=? y)%Z; [apply Permutation_refl|].
  eapply perm_trans; [apply perm_swap|]. now apply perm_skip.
Qed.

Lemma sort_numeric_perm (l : list Z) : Permutation l (sort_numeric l).
Proof.
  induction l as [|x l IH]; simpl; [constructor|].
  eapply perm_trans; [apply perm_skip, IH|]. apply insert_sorted_perm.
Qed.

Lemma insert_sorted_sorted (x : Z) (l : list Z) :
  Sorted Z.le l -> Sorted Z.le (insert_sorted x l).
Proof.
  induction 1 as [|y l Hl IH Hy]; simpl; [repeat constructor|].
  destruct (Z.leb_spec x y) as [Hxy|Hxy].
  - repeat constructor; assumption.
  - constructor; [exact IH|].
    destruct l as [|z l]; simpl.
    + constructor. lia.
    + destruct (x <=? z)%Z; constructor; [lia|]. now inversion Hy.
Qed.

Lemma sort_numeric_sorted (l : list Z) : Sorted Z.le (sort_numeric l).
Proof.
  induction l as [|x l IH]; simpl; [constructor|]. now apply insert_sorted_sorted.
Qed.

Lemma sort_numeric_length (l : list Z) : length (sort_numeric l) = length l.
Proof. symmetry. apply Permutation_length, sort_numeric_perm. Qed.

(** ** The interval loop *)

Lemma push_loop (A : Type) (f : nat -> A) (lo count : nat) :
  for_range lo count (fun i acc => acc ++ [f i]) [] = map f (seq lo count).
Proof.
  induction count as [|count IH]; [reflexivity|].
  now rewrite for_range_S, IH, seq_S, map_app.
Qed.

Lemma differences_intervals (beatTimes : list Z) :
  map (fun i => (nth i beatTimes 0 - nth (i - 1) beatTimes 0)%Z)
      (seq 1 (length beatTimes - 1))
  = TempoSpec.intervals beatTimes.
Proof.
  induction beatTimes as [|a rest IH]; [reflexivity|].
  destruct rest as [|b r]; [reflexivity|].
  change (length (a :: b :: r) - 1)%nat with (Datatypes.S (length r)).
  change (TempoSpec.intervals (a :: b :: r))
    with ((b - a)%Z :: TempoSpec.intervals (b :: r)).
  rewrite <- IH.
  change (length (b :: r) - 1)%nat with (length r - 0)%nat. rewrite Nat.sub_0_r.
  cbn [seq map]. f_equal.
  rewrite <- (seq_shift (length r) 1), map_map. apply map_ext_in.
  intros i Hi. apply in_seq in Hi.
  destruct i as [|i]; [lia|]. cbn [nth Nat.sub]. now rewrite Nat.sub_0_r.
Qed.

(** ** The quartile reads *)

Lemma floor_fraction (n : nat) (a : Z) (b : positive) :
  Math_floor (mul (of_nat n) (Fin (a # b))) = of_Z (Z.of_nat n * a / Zpos b).
Proof.
  unfold of_nat, of_Z. rewrite mul_fin. unfold fin, Math_floor. f_equal.
  rewrite (Qfloor_comp _ _ (Qred_correct _)).
  unfold Qfloor, Qmult, inject_Z; simpl. reflexivity.
Qed.

Lemma read_quartile (sorted : list Z) (k : nat) (c : Z) (d : positive) :
  (Z.of_nat (length sorted) * c / Zpos d = Z.of_nat k)%Z ->
  (k < length sorted)%nat ->
  ToNumber (read of_Z sorted (Math_floor (mul (of_nat (length sorted)) (Fin (c # d)))))
  = of_Z (nth k sorted 0%Z).
Proof.
  intros Hk Hlt. rewrite floor_fraction, Hk.
  unfold read. fold (of_nat k). rewrite index_of_nat.
  destruct (nth_error sorted k) as [z|] eqn:Hz.
  - simpl. f_equal. symmetry. now apply nth_error_nth.
  - apply nth_error_None in Hz. lia.
Qed.

Lemma quarter (n : nat) : (Z.of_nat n * 25 / 100 = Z.of_nat (n / 4))%Z.
Proof.
  rewrite Nat2Z.inj_div. change 100%Z with (4 * 25)%Z.
  now rewrite Z.div_mul_cancel_r by lia.
Qed.

Lemma three_quarters (n : nat) : (Z.of_nat n * 75 / 100 = Z.of_nat (3 * n / 4))%Z.
Proof.
  rewrite Nat2Z.inj_div, Nat2Z.inj_mul. change 100%Z with (4 * 25)%Z.
  replace (Z.of_nat n * 75)%Z with ((Z.of_nat 3 * Z.of_nat n) * 25)%Z by lia.
  now rewrite Z.div_mul_cancel_r by lia.
Qed.

(** ** The bounds and the mean *)

Lemma bounds_within (q1 q3 i : Z) :
  let iqr := sub (of_Z q3) (of_Z q1) in
  geb (of_Z i) (sub (of_Z q1) (mul (Fin (15 # 10)) iqr))
  && leb (of_Z i) (add (of_Z q3) (mul (Fin (15 # 10)) iqr))
  = TempoSpec.within q1 q3 i.
Proof.
  cbv zeta. rewrite sub_of_Z. unfold TempoSpec.within, of_Z.
  rewrite mul_fin. unfold sub, neg, fin. rewrite !add_fin. unfold fin, geb, leb.
  f_equal; apply Qleb_comp; try reflexivity; rewrite !Qred_correct.
  - unfold Qminus. setoid_replace (15 # 10) with (3 # 2) by reflexivity. reflexivity.
  - setoid_replace (15 # 10) with (3 # 2) by reflexivity. reflexivity.
Qed.

Lemma sum_loop (l : list Z) (acc : Z) :
  fold_left (fun sum i => add sum (of_Z i)) l (of_Z acc)
  = of_Z (acc + TempoSpec.total l).
Proof.
  revert acc; induction l as [|x l IH]; intros acc; simpl.
  - now rewrite Z.add_0_r.
  - change (fin (inject_Z acc + inject_Z x)) with (add (of_Z acc) (of_Z x)).
    rewrite add_of_Z, IH. f_equal. lia.
Qed.

Lemma average_mean (l : list Z) :
  div64 (fold_left (fun sum i => add sum (of_Z i)) l (Fin 0)) (of_nat (length l))
  = TempoSpec.mean l.
Proof.
  change (Fin 0) with (of_Z 0). rewrite sum_loop. reflexivity.
Qed.

(** [getTempo] in the words of the specification. *)
Lemma getTempo_refines (beatTimes : TempoAnalyzer) :
  getTempo beatTimes = TempoSpec.getTempo beatTimes.
Proof.
  unfold getTempo, TempoSpec.getTempo.
  destruct (Nat.ltb_spec (length beatTimes) 4) as [|Hlen]; [reflexivity|].
  rewrite push_loop, differences_intervals.
  set (intervals := TempoSpec.intervals beatTimes).
  set (sorted := sort_numeric intervals).
  assert (Hsorted : (3 <= length sorted)%nat).
  { unfold sorted, intervals. rewrite sort_numeric_length, <- differences_intervals.
    rewrite length_map, length_seq. lia. }
  assert (Hq1 : (length sorted / 4 < length sorted)%nat)
    by (apply Nat.Div0.div_lt_upper_bound; lia).
  assert (Hq3 : (3 * length sorted / 4 < length sorted)%nat)
    by (apply Nat.Div0.div_lt_upper_bound; lia).
  rewrite (read_quartile sorted 25 100 (quarter _) Hq1).
  rewrite (read_quartile sorted 75 100 (three_quarters _) Hq3).
  fold (TempoSpec.Q1 sorted). fold (TempoSpec.Q3 sorted).
  rewrite (filter_ext _ _ (bounds_within (TempoSpec.Q1 sorted) (TempoSpec.Q3 sorted))).
  destruct (filter _ intervals) as [|i kept] eqn:Hkept; [reflexivity|].
  cbn [length Nat.eqb]. rewrite <- Hkept at 1 2.
  rewrite Hkept. now rewrite average_mean.
Qed.

Lemma Math_round_half_up (q : Q) :
  exists z : Z, Math_round (Fin q) = of_Z z /\ TempoSpec.rounds_to q z.
Proof.
  exists (Qfloor (q + (1 # 2))). split; [reflexivity|]. unfold TempoSpec.rounds_to.
  pose proof (Qfloor_le (q + (1 # 2))) as Hlow.
  pose proof (Qlt_floor (q + (1 # 2))) as Hhigh.
  rewrite inject_Z_plus in Hhigh. change (inject_Z 1) with 1 in Hhigh.
  split; lra.
Qed.

(** C2: [getTempo] is 0 below four stored timestamps; otherwise it takes the
    [n - 1] consecutive intervals, sorts them, reads Q1 and Q3 at
    [floor (0.25 * len)] and [floor (0.75 * len)] of the sorted array, keeps
    the intervals inside [[Q1 - 1.5 * IQR, Q3 + 1.5 * IQR]], returns 0 when
    none is left and else [round (60000 / mean)] of those kept: the method
    equals [TempoSpec.getTempo] on every state.  The sort gives the
    intervals in ascending order, [round] is the nearest integer, upwards
    from a half, and the mean and the quotient are the quotients of
    doubles.  From a fresh analyzer, [addBeat] at 0, 500, 1000 and 1500
    gives a tempo of 120.  Three more states show the parts at work: the
    outlier 900 among intervals of 100 is dropped only because the
    intervals are sorted (tempo 600), intervals of 700 give 86 for the
    quotient 85.71..., and the intervals 533, 533, 534 give 112, the
    quotient of the rounded mean lying just below 112.5. *)
Theorem getTempo_spec :
  (forall beatTimes : TempoAnalyzer, getTempo beatTimes = TempoSpec.getTempo beatTimes)
  /\ (forall l : list Z, Sorted Z.le (sort_numeric l) /\ Permutation l (sort_numeric l))
  /\ (forall q : Q, exists z : Z, Math_round (Fin q) = of_Z z /\ TempoSpec.rounds_to q z)
  /\ getTempo (addBeat (addBeat (addBeat (addBeat new_TempoAnalyzer 0) 500) 1000) 1500)
     = Fin 120
  /\ getTempo [0; 100; 1000; 1100; 1200; 1300]%Z = Fin 600
  /\ getTempo [0; 700; 1400; 2100]%Z = Fin 86
  /\ getTempo [0; 533; 1066; 1600]%Z = Fin 112.
Proof.
  split; [exact getTempo_refines|].
  split; [intros l; split; [apply sort_numeric_sorted|apply sort_numeric_perm]|].
  split; [exact Math_round_half_up|].
  repeat split; vm_compute; reflexivity.
Qed.

(** C9 (the code at the failing input): four beats recorded at one and the
    same millisecond leave three intervals of 0, all of which survive the
    filter; their mean is 0 and [getTempo] returns [60000 / 0], which is
    [+Infinity], instead of a guarded 0. *)
Theorem getTempo_unguarded_division :
  getTempo (addBeat (addBeat (addBeat (addBeat new_TempoAnalyzer 1000) 1000) 1000) 1000)
  = PInf
  /\ is_finite PInf = false.
Proof. split; vm_compute; reflexivity. Qed.

End TempoTheorems.

(* ================================================================== *)
(** * [BeatDetector.detect]: the band and its loop *)
(* ================================================================== *)

Module BeatFacts.
Import JS AudioProcessor BeatDetection Facts ClosedForm BeatSpec.

Lemma In_Z_range (lo hi i : Z) : In i (Z_range lo hi) <-> (lo <= i <= hi)%Z.
Proof.
  unfold Z_range. rewrite in_map_iff. split.
  - intros (k & <- & Hk). apply in_seq in Hk. lia.
  - intros H. exists (Z.to_nat (i - lo)). split; [lia|]. apply in_seq. lia.
Qed.

Lemma loop_indices_integers (l h : Z) :
  loop_indices (inject_Z l) (inject_Z h) = map of_Z (Z_range l h).
Proof.
  unfold loop_indices, Z_range. rewrite map_map.
  replace (Qfloor (inject_Z h - inject_Z l)) with (h - l)%Z.
  - apply map_ext. intros k. apply fin_of_Z. now rewrite inject_Z_plus.
  - unfold Qminus. rewrite <- inject_Z_opp, <- inject_Z_plus. now rewrite Qfloor_Z.
Qed.

Lemma get_u8_defined (fd : list byte) (i : Z) :
  get_u8 fd (of_Z i) <> VUndef <-> (0 <= i < Z.of_nat (length fd))%Z.
Proof.
  unfold get_u8, read. rewrite index_of_Z.
  destruct (Z.leb_spec 0 i) as [Hi|Hi].
  - destruct (nth_error fd (Z.to_nat i)) as [b|] eqn:Hb.
    + split; [|discriminate]. intros _.
      assert (Z.to_nat i < length fd)%nat by (apply nth_error_Some; now rewrite Hb). lia.
    + apply nth_error_None in Hb. split; [congruence|lia].
  - split; [congruence|lia].
Qed.

Section WithEngine.
Context {E : Engine}.

Lemma energy_reads (fd : list byte) (l : list number) (acc : number * list number) :
  snd (fold_left (energy_step fd) l acc) = snd acc ++ l.
Proof.
  revert acc; induction l as [|i l IH]; intros acc; simpl.
  - now rewrite app_nil_r.
  - rewrite IH. simpl. now rewrite <- app_assoc.
Qed.

Lemma band_indices_finite (self : BeatDetector.t) (audioData : AudioData)
    (lo hi rate : Q) :
  sampleRate audioData = Fin rate -> 0 < rate ->
  Options.frequencyRange (BeatDetector.options self) = {| low := Fin lo; high := Fin hi |} ->
  band_indices self audioData
  = (of_Z (low_index lo rate (bufferLength audioData)),
     of_Z (high_index hi rate (bufferLength audioData))).
Proof.
  intros Hrate Hpos Hrange. unfold band_indices. rewrite Hrate, Hrange. cbn [low high].
  rewrite !scale_to_bins by exact Hpos.
  now rewrite Math_floor_fin, Math_ceil_fin.
Qed.

(** With a finite band and a positive sample rate the loop has finite bounds
    and [detect] returns. *)
Lemma detect_returns (self : BeatDetector.t) (audioData : option AudioData) (now : Z) :
  finite_band self -> well_formed_call (audioData, now) ->
  exists self' info,
    detect self audioData now = Some (self', info)
    /\ BeatDetector.options self' = BeatDetector.options self.
Proof.
  intros (lo & hi & Hband) Hcall. destruct audioData as [audioData|].
  - destruct Hcall as (rate & Hrate & Hpos). unfold detect.
    rewrite (band_indices_finite self audioData Hrate Hpos Hband).
    unfold of_Z at 1 2. cbn [sum_energy].
    destruct (fold_left _ _ _) as [energy reads]. now eexists _, _.
  - now eexists _, _.
Qed.

Lemma detect_all_returns (calls : list (option AudioData * Z)) :
  forall self : BeatDetector.t,
  finite_band self -> Forall well_formed_call calls ->
  exists results, detect_all self calls = Some results.
Proof.
  induction calls as [|[audioData now] rest IH]; intros self Hband Hcalls.
  - now exists [].
  - destruct (@detect_returns self audioData now Hband (Forall_inv Hcalls))
      as (self' & info & Hd & Hopts).
    destruct (IH self') as [results Hrest].
    + unfold finite_band. now rewrite Hopts.
    + exact (Forall_inv_tail Hcalls).
    + exists ((self, info) :: results). cbn [detect_all]. now rewrite Hd, Hrest.
Qed.

End WithEngine.
End BeatFacts.

(* ================================================================== *)
(** * [BeatDetector] *)
(* ================================================================== *)

Module BeatTheorems.
Import JS AudioProcessor BeatDetection Facts ClosedForm BeatSpec BeatFacts Examples.

Lemma gtb_of_Z_mono (a b : Z) (m : number) :
  (a <= b)%Z -> gtb (of_Z a) m = true -> gtb (of_Z b) m = true.
Proof.
  intros Hab. unfold gtb, of_Z. destruct m as [q| | |]; simpl; auto.
  rewrite !Qltb_lt. intros H. eapply Qlt_le_trans; [exact H|].
  rewrite <- Zle_Qle. exact Hab.
Qed.

Lemma last_beat_cons (initial : Z) (info : BeatInfo.t) (infos : list BeatInfo.t) :
  last_beat initial (info :: infos)
  = last_beat (if BeatInfo.isBeat info then BeatInfo.time info else initial) infos.
Proof. reflexivity. Qed.

Section WithEngine.
Context {E : Engine}.

(** What one call does to the fields the refractory rule depends on. *)
Lemma detect_step (self self' : BeatDetector.t) (audioData : option AudioData)
    (now : Z) (info : BeatInfo.t) :
  detect self audioData now = Some (self', info) ->
  BeatDetector.options self' = BeatDetector.options self
  /\ BeatInfo.time info = now
  /\ BeatDetector.lastBeatTime self'
     = (if BeatInfo.isBeat info then now else BeatDetector.lastBeatTime self)
  /\ match audioData with
     | Some _ =>
         BeatInfo.isBeat info
         = beat_condition (BeatDetector.options self) (BeatInfo.delta info)
                          (now - BeatDetector.lastBeatTime self)
     | None => BeatInfo.isBeat info = false /\ BeatInfo.delta info = Fin 0
     end.
Proof.
  destruct audioData as [audioData|].
  - unfold detect. destruct (band_indices self audioData) as [lowIndex highIndex].
    destruct (sum_energy _ lowIndex highIndex) as [[energy reads]|]; [|discriminate].
    intros H. rewrite sub_of_Z in H. injection H as <- <-.
    unfold beat_condition.
    cbn [BeatInfo.isBeat BeatInfo.delta BeatInfo.time
         BeatDetector.options BeatDetector.lastBeatTime].
    repeat split.
  - cbn [detect]. intros H. injection H as <- <-. repeat split.
Qed.

Lemma detect_all_cons (self : BeatDetector.t) (audioData : option AudioData) (now : Z)
    (rest : list (option AudioData * Z)) (results : list (BeatDetector.t * BeatInfo.t)) :
  detect_all self ((audioData, now) :: rest) = Some results ->
  exists self' info results',
    detect self audioData now = Some (self', info)
    /\ detect_all self' rest = Some results'
    /\ results = (self, info) :: results'.
Proof.
  cbn [detect_all].
  destruct (detect self audioData now) as [[self' info]|] eqn:Hd; [|discriminate].
  destruct (detect_all self' rest) as [results'|] eqn:Hr; cbn [option_map]; [|discriminate].
  intros H. injection H as <-. now exists self', info, results'.
Qed.

(** Every call of a run sees the options the run started with, and a last
    beat time that is the time of the latest earlier beat. *)
Lemma detect_all_nth (calls : list (option AudioData * Z)) :
  forall (self : BeatDetector.t) (results : list (BeatDetector.t * BeatInfo.t)),
  detect_all self calls = Some results ->
  forall (k : nat) (pre : BeatDetector.t) (info : BeatInfo.t),
  nth_error results k = Some (pre, info) ->
  exists audioData now,
    nth_error calls k = Some (audioData, now)
    /\ BeatInfo.time info = now
    /\ BeatDetector.options pre = BeatDetector.options self
    /\ BeatDetector.lastBeatTime pre
       = last_beat (BeatDetector.lastBeatTime self) (map snd (firstn k results))
    /\ match audioData with
       | Some _ =>
           BeatInfo.isBeat info
           = beat_condition (BeatDetector.options self) (BeatInfo.delta info)
                            (now - BeatDetector.lastBeatTime pre)
       | None => BeatInfo.isBeat info = false /\ BeatInfo.delta info = Fin 0
       end.
Proof.
  induction calls as [|[audioData now] rest IH]; intros self results Hrun k pre info Hk.
  - injection Hrun as <-. destruct k; discriminate.
  - destruct (detect_all_cons _ _ _ _ Hrun) as (self' & info0 & results' & Hd & Hrest & ->).
    destruct (detect_step _ _ _ Hd) as (Hopts & Htime & Hlast & Hbeat).
    destruct k as [|k]; cbn [nth_error] in Hk.
    + injection Hk as <- <-. exists audioData, now. cbn [nth_error firstn map].
      repeat split; auto.
    + destruct (IH self' results' Hrest k pre info Hk)
        as (a & t & Hcall & Ht & Ho & Hl & Hb).
      exists a, t. cbn [nth_error firstn map snd]. rewrite last_beat_cons.
      rewrite Htime, <- Hlast, <- Hopts. repeat split; auto.
Qed.

(** After a state whose last beat is not later than any coming call, every
    beat of the run is more than [minTimeBetweenBeats] after that last
    beat. *)
Lemma beats_after (calls : list (option AudioData * Z)) :
  forall (self : BeatDetector.t) (results : list (BeatDetector.t * BeatInfo.t)),
  detect_all self calls = Some results ->
  Sorted Z.le (map snd calls) ->
  Forall (fun c => (BeatDetector.lastBeatTime self <= snd c)%Z) calls ->
  forall r, In r results -> BeatInfo.isBeat (snd r) = true ->
  gtb (of_Z (BeatInfo.time (snd r) - BeatDetector.lastBeatTime self))
      (Options.minTimeBetweenBeats (BeatDetector.options self)) = true.
Proof.
  induction calls as [|[audioData now] rest IH]; intros self results Hrun Hsort Hafter r Hr Hbeat.
  - injection Hrun as <-. destruct Hr.
  - destruct (detect_all_cons _ _ _ _ Hrun) as (self' & info0 & results' & Hd & Hrest & ->).
    destruct (detect_step _ _ _ Hd) as (Hopts & Htime & Hlast & Hcond).
    cbn [map snd] in Hsort.
    assert (Hsort' : Sorted Z.le (map snd rest)) by now inversion Hsort.
    assert (Hnow : Forall (Z.le now) (map snd rest))
      by (apply Sorted_extends; [exact Z.le_trans|exact Hsort]).
    pose proof (Forall_inv Hafter) as Hc. pose proof (Forall_inv_tail Hafter) as Hcs.
    cbn [snd] in Hc.
    destruct Hr as [<-|Hr].
    + cbn [snd] in *.
      destruct audioData; [|destruct Hcond; congruence].
      rewrite Hcond in Hbeat. apply andb_true_iff in Hbeat. now rewrite Htime.
    + assert (Hle : (BeatDetector.lastBeatTime self <= BeatDetector.lastBeatTime self')%Z)
        by (rewrite Hlast; destruct (BeatInfo.isBeat info0); lia).
      assert (Hafter' : Forall (fun c => (BeatDetector.lastBeatTime self' <= snd c)%Z) rest).
      { rewrite Hlast. destruct (BeatInfo.isBeat info0); [|exact Hcs].
        rewrite Forall_map in Hnow. exact Hnow. }
      pose proof (IH self' results' Hrest Hsort' Hafter' r Hr Hbeat) as H.
      rewrite Hopts in H. revert H. apply gtb_of_Z_mono. lia.
Qed.

(** Two beats of one run at non-decreasing times are more than
    [minTimeBetweenBeats] apart. *)
Lemma beats_apart (calls : list (option AudioData * Z)) :
  forall (self : BeatDetector.t) (results : list (BeatDetector.t * BeatInfo.t)),
  detect_all self calls = Some results ->
  Sorted Z.le (map snd calls) ->
  forall (i j : nat) (ri rj : BeatDetector.t * BeatInfo.t),
  (i < j)%nat ->
  nth_error results i = Some ri -> nth_error results j = Some rj ->
  BeatInfo.isBeat (snd ri) = true -> BeatInfo.isBeat (snd rj) = true ->
  gtb (of_Z (BeatInfo.time (snd rj) - BeatInfo.time (snd ri)))
      (Options.minTimeBetweenBeats (BeatDetector.options self)) = true.
Proof.
  induction calls as [|[audioData now] rest IH];
    intros self results Hrun Hsort i j ri rj Hij Hi Hj Hbi Hbj.
  - injection Hrun as <-. destruct i; discriminate.
  - destruct (detect_all_cons _ _ _ _ Hrun) as (self' & info0 & results' & Hd & Hrest & ->).
    destruct (detect_step _ _ _ Hd) as (Hopts & Htime & Hlast & Hcond).
    cbn [map snd] in Hsort.
    assert (Hsort' : Sorted Z.le (map snd rest)) by now inversion Hsort.
    destruct j as [|j]; [lia|]. cbn [nth_error] in Hj.
    destruct i as [|i]; cbn [nth_error] in Hi.
    + injection Hi as <-. cbn [snd] in *.
      assert (Hnow : Forall (Z.le now) (map snd rest))
        by (apply Sorted_extends; [exact Z.le_trans|exact Hsort]).
      rewrite Hbi in Hlast. rewrite Htime, <- Hlast, <- Hopts.
      apply (@beats_after rest self' results' Hrest Hsort'); auto.
      * rewrite Hlast. rewrite Forall_map in Hnow. exact Hnow.
      * eapply nth_error_In; exact Hj.
    + rewrite <- Hopts. apply (IH self' results' Hrest Hsort' i j); auto. lia.
Qed.

(** C8: called without a frame, [detect] returns the zero-valued result
    with [isBeat = false] (stamped with the current time) and the detector it
    was called on, with its energy history, average energy, last beat time
    and options as they were.  Such calls are therefore invisible to the
    other calls of a run: dropping them leaves every remaining call with the
    same starting state and the same result. *)
Theorem detect_null_frame (self : BeatDetector.t) (now : Z) :
  detect self None now =
  Some (self,
        {| BeatInfo.isBeat := false;
           BeatInfo.energy := Fin 0;
           BeatInfo.averageEnergy := Fin 0;
           BeatInfo.delta := Fin 0;
           BeatInfo.time := now |})
  /\ forall calls : list (option AudioData * Z),
       detect_all self (filter has_frame calls)
       = option_map (frame_results calls) (detect_all self calls).
Proof.
  split; [reflexivity|].
  intros calls. revert self.
  induction calls as [|[[frame|] t] rest IH]; intros self; [reflexivity| |].
  - cbn [filter has_frame fst detect_all].
    destruct (detect self (Some frame) t) as [[self' info]|]; [|reflexivity].
    rewrite IH. now destruct (detect_all self' rest).
  - cbn [filter has_frame fst detect_all detect]. rewrite IH.
    now destruct (detect_all self rest).
Qed.

(** C5: every run of [detect] on a detector with a finite band, over
    frames with a positive sample rate, returns a result for each call.  In
    every run, a call with a frame reports [isBeat = true] exactly when
    [delta > threshold] and the time since the last reported beat (the
    initial [lastBeatTime] before the first one) exceeds
    [minTimeBetweenBeats]; a call without a frame reports no beat and
    [delta = 0], so that for a threshold that is not negative the same
    equivalence holds at every call.  When the times of the calls do not
    decrease, any two calls that both report a beat are more than
    [minTimeBetweenBeats] apart.  With the default options, after 43 quiet
    frames, a spike is a beat, the same spike 100 ms later is not, and the
    one 400 ms after the beat is. *)
Theorem beat_refractory (self : BeatDetector.t) (calls : list (option AudioData * Z)) :
  let threshold := Options.threshold (BeatDetector.options self) in
  let minTimeBetweenBeats := Options.minTimeBetweenBeats (BeatDetector.options self) in
  (finite_band self -> Forall well_formed_call calls ->
   exists results, detect_all self calls = Some results)
  /\ (forall results, detect_all self calls = Some results ->
      (forall k pre info, nth_error results k = Some (pre, info) ->
         exists audioData now,
           nth_error calls k = Some (audioData, now)
           /\ BeatInfo.time info = now
           /\ BeatDetector.lastBeatTime pre
              = last_beat (BeatDetector.lastBeatTime self) (map snd (firstn k results))
           /\ (audioData <> None ->
               BeatInfo.isBeat info
               = gtb (BeatInfo.delta info) threshold
                 && gtb (of_Z (now - BeatDetector.lastBeatTime pre)) minTimeBetweenBeats)
           /\ (audioData = None -> BeatInfo.isBeat info = false)
           /\ (geb threshold (Fin 0) = true ->
               BeatInfo.isBeat info
               = gtb (BeatInfo.delta info) threshold
                 && gtb (of_Z (now - BeatDetector.lastBeatTime pre)) minTimeBetweenBeats))
      /\ (Sorted Z.le (map snd calls) ->
          forall i j ri rj, (i < j)%nat ->
            nth_error results i = Some ri -> nth_error results j = Some rj ->
            BeatInfo.isBeat (snd ri) = true -> BeatInfo.isBeat (snd rj) = true ->
            gtb (of_Z (BeatInfo.time (snd rj) - BeatInfo.time (snd ri)))
                minTimeBetweenBeats = true))
  /\ option_map (map (fun r => BeatInfo.isBeat (snd r)))
                (detect_all default_detector refractory_calls)
     = Some (repeat false 43 ++ [true; false; true]).
Proof.
  intros threshold minTimeBetweenBeats. split; [|split].
  - intros Hband Hcalls. now apply detect_all_returns.
  - intros results Hrun. split.
    + intros k pre info Hk.
      destruct (@detect_all_nth calls self results Hrun k pre info Hk)
        as (a & t & Hc & Ht & _ & Hl & Hb).
      exists a, t. split; [exact Hc|]. split; [exact Ht|]. split; [exact Hl|].
      destruct a as [frame|].
      * split; [intros _; exact Hb|]. split; [discriminate|]. intros _; exact Hb.
      * destruct Hb as [Hbeat Hdelta]. split; [congruence|]. split; [auto|].
        intros Hthr. rewrite Hbeat, Hdelta. symmetry. apply andb_false_iff. left.
        fold threshold. unfold geb, gtb in *.
        destruct threshold as [q| | |]; simpl in *; try reflexivity; try discriminate.
        apply Qltb_ge. now apply Qle_bool_iff.
    + intros Hsort i j ri rj. now apply (@beats_apart calls self results Hrun Hsort).
  - vm_compute. reflexivity.
Qed.

End WithEngine.

Lemma beat_refractory_witness :
  finite_band default_detector
  /\ Forall well_formed_call three_spikes
  /\ Sorted Z.le (map snd three_spikes)
  /\ exists results,
       detect_all (E := Reference.engine) default_detector three_spikes = Some results
       /\ map (fun r => BeatInfo.isBeat (snd r)) results = [true; false; false; true]
       /\ forall i j ri rj, (i < j)%nat ->
            nth_error results i = Some ri -> nth_error results j = Some rj ->
            BeatInfo.isBeat (snd ri) = true -> BeatInfo.isBeat (snd rj) = true ->
            gtb (of_Z (BeatInfo.time (snd rj) - BeatInfo.time (snd ri))) (Fin 250) = true.
Proof.
  assert (Hband : finite_band default_detector) by (exists 60, 120; reflexivity).
  assert (Hcalls : Forall well_formed_call three_spikes).
  { repeat constructor; exists 44100; split; reflexivity. }
  assert (Hsort : Sorted Z.le (map snd three_spikes))
    by (repeat constructor; simpl; lia).
  repeat (split; [assumption|]).
  destruct (@beat_refractory Reference.engine default_detector three_spikes)
    as (Htotal & Hrun & _).
  destruct (Htotal Hband Hcalls) as [results Hresults].
  exists results. split; [exact Hresults|]. split.
  - assert (Hsome : Some (map (fun r => BeatInfo.isBeat (snd r)) results)
                    = Some [true; false; false; true]).
    { change (Some (map (fun r => BeatInfo.isBeat (snd r)) results))
        with (option_map (map (fun r => BeatInfo.isBeat (snd r))) (Some results)).
      rewrite <- Hresults. vm_compute. reflexivity. }
    now injection Hsome.
  - exact (proj2 (Hrun results Hresults) Hsort).
Defined.

End BeatTheorems.

(* ================================================================== *)
(** * [BeatDetector.detect]: the bins it reads *)
(* ================================================================== *)

Module ReadTheorems.
Import JS AudioProcessor BeatDetection Facts ClosedForm BeatSpec BeatFacts Examples.

Section WithEngine.
Context {E : Engine}.

(** C10 (as the code has it): for a finite band and a frame of
    [bufferLength >= 1] bins at a positive sample rate, [detect] reads
    [frequencyData] at every index from
    [floor (low * bufferLength / nyquist)] to
    [ceil (high * bufferLength / nyquist)], both included, the upper end not
    clamped to the array.  When that range is not empty, all reads are in
    bounds exactly when [low >= 0] and the upper index is at most
    [bufferLength - 1], and for [high >= nyquist] the loop reads index
    [ceil (high * bufferLength / nyquist) >= bufferLength], past the end of
    the array, and gets [undefined]. *)
Theorem detect_reads_unclamped (self : BeatDetector.t) (audioData : AudioData)
    (lo hi rate : Q) :
  sampleRate audioData = Fin rate -> 0 < rate ->
  (1 <= bufferLength audioData)%Z ->
  length (frequencyData audioData) = Z.to_nat (bufferLength audioData) ->
  Options.frequencyRange (BeatDetector.options self) = {| low := Fin lo; high := Fin hi |} ->
  let n := bufferLength audioData in
  let lowIndex := low_index lo rate n in
  let highIndex := high_index hi rate n in
  detect_reads self audioData = Some (map of_Z (Z_range lowIndex highIndex))
  /\ (forall i, In i (Z_range lowIndex highIndex) <-> (lowIndex <= i <= highIndex)%Z)
  /\ ((lowIndex <= highIndex)%Z ->
      ((forall i, In i (Z_range lowIndex highIndex) ->
                  get_u8 (frequencyData audioData) (of_Z i) <> VUndef)
       <-> (0 <= lo /\ (highIndex <= n - 1)%Z)))
  /\ ((lowIndex <= highIndex)%Z -> rate / 2 <= hi ->
      In highIndex (Z_range lowIndex highIndex)
      /\ (n <= highIndex)%Z
      /\ get_u8 (frequencyData audioData) (of_Z highIndex) = VUndef).
Proof.
  intros Hrate Hpos Hn Hlen Hrange n lowIndex highIndex.
  assert (Hnq : 0 < inject_Z n) by (unfold Qlt, inject_Z; simpl; lia).
  pose proof (half_pos Hpos) as Hnyq.
  assert (Hlow : (0 <= lowIndex)%Z <-> 0 <= lo).
  { unfold lowIndex, low_index. fold n. set (nyq := rate / 2) in *. split; intros H.
    - destruct (Qlt_le_dec lo 0) as [Hneg|]; [exfalso|assumption].
      assert (Hx : lo * inject_Z n / nyq < 0)
        by (apply Qlt_shift_div_r; [exact Hnyq|]; nra).
      pose proof (Qfloor_le (lo * inject_Z n / nyq)) as Hfl.
      assert (Hz : inject_Z (Qfloor (lo * inject_Z n / nyq)) < inject_Z 0)
        by (eapply Qle_lt_trans; [exact Hfl|exact Hx]).
      rewrite <- Zlt_Qlt in Hz. lia.
    - change 0%Z with (Qfloor 0). apply Qfloor_resp_le.
      apply Qle_shift_div_l; [exact Hnyq|]. nra. }
  assert (Hdefined : forall i, get_u8 (frequencyData audioData) (of_Z i) <> VUndef
                               <-> (0 <= i <= n - 1)%Z).
  { intros i. rewrite get_u8_defined, Hlen. fold n. lia. }
  split; [|split; [|split]].
  - unfold detect_reads. rewrite (band_indices_finite self audioData Hrate Hpos Hrange).
    fold n lowIndex highIndex. unfold of_Z at 1 2. cbn [sum_energy option_map].
    now rewrite energy_reads, loop_indices_integers.
  - intros i. apply In_Z_range.
  - intros Hne. split.
    + intros Hall. split.
      * apply Hlow. apply (Hdefined lowIndex). apply Hall, In_Z_range. lia.
      * apply (Hdefined highIndex). apply Hall, In_Z_range. lia.
    + intros [Hlo Hhi] i Hi. apply In_Z_range in Hi. apply Hdefined.
      apply Hlow in Hlo. lia.
  - intros Hne Hhi.
    assert (Hpast : (n <= highIndex)%Z).
    { unfold highIndex, high_index. fold n. set (nyq := rate / 2) in *.
      rewrite <- (Qceiling_Z n) at 1. apply Qceiling_resp_le.
      apply Qle_shift_div_l; [exact Hnyq|]. nra. }
    split; [apply In_Z_range; lia|]. split; [exact Hpast|].
    destruct (get_u8 (frequencyData audioData) (of_Z highIndex)) eqn:Hget; [reflexivity|].
    assert (Hd : get_u8 (frequencyData audioData) (of_Z highIndex) <> VUndef)
      by (rewrite Hget; discriminate).
    apply Hdefined in Hd. lia.
Qed.

End WithEngine.

Lemma detect_reads_unclamped_witness :
  sampleRate quiet_frame = Fin 44100 /\ 0 < 44100
  /\ (1 <= bufferLength quiet_frame)%Z
  /\ length (frequencyData quiet_frame) = Z.to_nat (bufferLength quiet_frame)
  /\ Options.frequencyRange (BeatDetector.options wide_detector)
     = {| low := Fin 20000; high := Fin 22050 |}
  /\ detect_reads (E := Reference.engine) wide_detector quiet_frame
     = Some (map of_Z (Z_range 928 1024))
  /\ get_u8 (frequencyData quiet_frame) (of_Z 1024) = VUndef.
Proof.
  assert (H1 : sampleRate quiet_frame = Fin 44100) by reflexivity.
  assert (H2 : 0 < 44100) by reflexivity.
  assert (H3 : (1 <= bufferLength quiet_frame)%Z) by (simpl; lia).
  assert (H4 : length (frequencyData quiet_frame) = Z.to_nat (bufferLength quiet_frame))
    by reflexivity.
  assert (H5 : Options.frequencyRange (BeatDetector.options wide_detector)
               = {| low := Fin 20000; high := Fin 22050 |}) by reflexivity.
  repeat (split; [assumption|]).
  destruct (@detect_reads_unclamped Reference.engine wide_detector quiet_frame
              20000 22050 44100 H1 H2 H3 H4 H5) as (Hreads & _ & _ & Hpast).
  split; [exact Hreads|].
  apply Hpast; [vm_compute; discriminate|vm_compute; discriminate].
Defined.

(** C10, as stated, fails on a band whose ends are exchanged: with
    [low = 40000] and [high = 30000] (both above the Nyquist frequency 22050)
    the bounds are 1857 and 1394, the loop body never runs, and no index is
    read, so nothing is read past the end and all reads are in bounds
    although [ceil (high * bufferLength / nyquist) <= bufferLength - 1]
    fails. *)
Lemma inverted_band_reads_nothing :
  Options.frequencyRange (BeatDetector.options inverted_detector)
  = {| low := Fin 40000; high := Fin 30000 |}
  /\ geb (Fin 30000) (div (sampleRate quiet_frame) (Fin 2)) = true
  /\ band_indices inverted_detector quiet_frame
     = (Fin 1857, Fin 1394)
  /\ detect_reads (E := Reference.engine) inverted_detector quiet_frame = Some []
  /\ ~ (1394 <= bufferLength quiet_frame - 1)%Z.
Proof.
  repeat split; try (vm_compute; reflexivity). simpl. lia.
Qed.

End ReadTheorems.

(* ================================================================== *)
(** * [extractFrequencyBands] *)
(* ================================================================== *)

Module BandTheorems.
Import JS AudioProcessor Facts ClosedForm ProcessFacts Examples.

Lemma Math_round_fin (q : Q) : Math_round (fin q) = of_Z (Qfloor (q + (1 # 2))).
Proof.
  unfold fin, Math_round. f_equal. apply Qfloor_comp. now rewrite Qred_correct.
Qed.

Lemma Math_min_of_Z (a b : Z) : Math_min (of_Z a) (of_Z b) = of_Z (Z.min a b).
Proof.
  change (Math_min (of_Z a) (of_Z b))
    with (if gtb (of_Z a) (of_Z b) then of_Z b else of_Z a).
  rewrite gtb_of_Z. destruct (Z.ltb_spec b a); f_equal; lia.
Qed.

Lemma get_num_inside (data : list number) (k : Z) :
  (0 <= k < Z.of_nat (length data))%Z ->
  get_num data (of_Z k) = VNum (nth (Z.to_nat k) data NaN).
Proof.
  intros Hk. unfold get_num, read. rewrite index_of_Z.
  destruct (Z.leb_spec 0 k); [|lia].
  destruct (nth_error data (Z.to_nat k)) as [x|] eqn:Hx.
  - f_equal. symmetry. now apply nth_error_nth.
  - apply nth_error_None in Hx. lia.
Qed.

(** The loop of [extractFrequencyBands] is a [map] over the bands. *)
Lemma extract_map (frequencyData bands : list number) (sampleRate bufferLength : number) :
  extractFrequencyBands frequencyData (Some bands) (Some sampleRate) (Some bufferLength)
  = map (fun c => get_num frequencyData (band_index_number c sampleRate bufferLength)) bands.
Proof.
  unfold extractFrequencyBands. cbn [or_default].
  rewrite (fill_loop
             (fun i => get_num frequencyData
                         (band_index_number (ToNumber (get_num bands (of_nat i)))
                                            sampleRate bufferLength))).
  rewrite <- (map_map (fun i => get_num bands (of_nat i))
                      (fun v => get_num frequencyData
                                  (band_index_number (ToNumber v) sampleRate bufferLength))).
  unfold get_num at 2. rewrite (map_read_seq (fun x : number => x) bands).
  now rewrite map_map.
Qed.

Lemma band_index_number_finite (c r : Q) (n : Z) :
  0 < r -> band_index_number (Fin c) (Fin r) (of_Z n) = of_Z (band_index c r n).
Proof.
  intros Hr. unfold band_index_number, band_index.
  rewrite scale_to_bins by exact Hr.
  rewrite Math_round_fin. change (Fin 1) with (of_Z 1).
  now rewrite sub_of_Z, Math_min_of_Z.
Qed.

Lemma band_index_bounds (c r : Q) (n : Z) :
  0 < r -> 0 <= c -> (1 <= n)%Z -> (0 <= band_index c r n <= n - 1)%Z.
Proof.
  intros Hr Hc Hn. unfold band_index.
  pose proof (half_pos Hr) as Hnyq. set (nyq := r / 2) in *.
  assert (Hx : 0 <= c * inject_Z n / nyq).
  { apply Qle_shift_div_l; [exact Hnyq|].
    assert (0 < inject_Z n) by (unfold Qlt, inject_Z; simpl; lia). nra. }
  assert (H0 : (0 <= Qfloor (c * inject_Z n / nyq + (1 # 2)))%Z).
  { change 0%Z with (Qfloor 0). apply Qfloor_resp_le. lra. }
  lia.
Qed.

(** C7 (as the code has it): for every requested band centre
    [extractFrequencyBands] computes
    [index = round (centre * bufferLength / nyquist)], limits it from above
    by [bufferLength - 1] (it applies [Math.min] only, the index is not
    raised to 0) and returns the magnitude at that index.  For centres that
    are not negative, a positive sample rate and
    [1 <= bufferLength <= magnitudes.length], the index lies in
    [[0, bufferLength - 1]] and the read is in bounds.  With centre 60 Hz,
    sample rate 44100 and buffer length 1024 the index is
    [round (60 * 1024 / 22050) = 3] and the result is [magnitudes[3]]. *)
Theorem extract_bands_index (frequencyData bands : list number)
    (sampleRate bufferLength : number) :
  extractFrequencyBands frequencyData (Some bands) (Some sampleRate) (Some bufferLength)
  = map (fun c => get_num frequencyData (band_index_number c sampleRate bufferLength)) bands
  /\ (forall (c r : Q) (n : Z),
        sampleRate = Fin r -> 0 < r -> bufferLength = of_Z n ->
        (1 <= n <= Z.of_nat (length frequencyData))%Z -> 0 <= c ->
        band_index_number (Fin c) sampleRate bufferLength = of_Z (band_index c r n)
        /\ (0 <= band_index c r n <= n - 1)%Z
        /\ get_num frequencyData (band_index_number (Fin c) sampleRate bufferLength)
           = VNum (nth (Z.to_nat (band_index c r n)) frequencyData NaN))
  /\ extractFrequencyBands frequencyData (Some [Fin 60]) (Some (Fin 44100))
                           (Some (Fin 1024))
     = [get_num frequencyData (Fin 3)].
Proof.
  split; [apply extract_map|]. split.
  - intros c r n -> Hr -> Hn Hc.
    pose proof (band_index_bounds Hr Hc (proj1 Hn)) as Hb.
    rewrite band_index_number_finite by exact Hr.
    repeat split; try lia. apply get_num_inside. lia.
  - rewrite extract_map. cbn [map].
    replace (band_index_number (Fin 60) (Fin 44100) (Fin 1024)) with (Fin 3)
      by (vm_compute; reflexivity).
    reflexivity.
Qed.

Lemma extract_bands_index_witness :
  (1 <= 4 <= Z.of_nat (length four_bins))%Z /\ 0 < 44100 /\ 0 <= 16000
  /\ band_index_number (Fin 16000) (Fin 44100) (of_Z 4) = of_Z 3
  /\ get_num four_bins (band_index_number (Fin 16000) (Fin 44100) (of_Z 4))
     = VNum (Fin 4).
Proof.
  assert (H1 : (1 <= 4 <= Z.of_nat (length four_bins))%Z) by (simpl; lia).
  assert (H2 : 0 < 44100) by reflexivity.
  assert (H3 : 0 <= 16000) by discriminate.
  repeat (split; [assumption|]).
  destruct (proj1 (proj2 (extract_bands_index four_bins [Fin 16000] (Fin 44100) (of_Z 4)))
              16000 44100 4%Z eq_refl H2 eq_refl H1 H3) as (Hi & _ & Hg).
  split; [exact Hi|exact Hg].
Defined.

(** C7, as stated, fails for a negative band centre: the index
    [round (-22050 * 4 / 22050) = -4] is left as it is by
    [Math.min (index, bufferLength - 1)] and the read, outside
    [[0, bufferLength - 1]], yields [undefined]. *)
Lemma negative_centre_out_of_bounds :
  band_index_number (Fin (-22050)) (Fin 44100) (of_nat (length four_bins)) = Fin (-4)
  /\ extractFrequencyBands four_bins (Some [Fin (-22050)]) None None = [VUndef].
Proof. split; vm_compute; reflexivity. Qed.

End BandTheorems.

(* ================================================================== *)
(** * [calculateSpectrumCharacteristics]: flatness *)
(* ================================================================== *)

Module SpectrumTheorems.
Import JS AudioProcessor Facts Rounding ClosedForm ProcessFacts Examples.

Lemma read_back (data : list number) :
  map (fun i => ToNumber (get_num data (of_nat i))) (seq 0 (length data)) = data.
Proof.
  rewrite <- (map_map (fun i => get_num data (of_nat i)) ToNumber).
  unfold get_num. rewrite (map_read_seq (fun x : number => x) data), map_map.
  apply map_id.
Qed.

(** A loop over the indices of an array whose body uses only the element
    read is a fold over the array. *)
Lemma index_loop_fold (S : Type) (f : S -> number -> S) (data : list number) (s : S) :
  for_range 0 (length data) (fun i acc => f acc (ToNumber (get_num data (of_nat i)))) s
  = fold_left f data s.
Proof.
  unfold for_range.
  rewrite <- (read_back data) at 2.
  generalize (seq 0 (length data)) s. intros l.
  induction l as [|i l IH]; intros s'; [reflexivity|]. simpl. apply IH.
Qed.

Lemma fold_sum_product (data : list number) (s p : number) :
  fold_left SpectrumSpec.sum_product data (s, p)
  = (fold_left add data s, fold_left mul64 (filter (fun a => gtb a (Fin 0)) data) p).
Proof.
  revert s p; induction data as [|a data IH]; intros s p; [reflexivity|].
  cbn [fold_left filter]. unfold SpectrumSpec.sum_product at 2. cbn [fst snd].
  rewrite IH. now destruct (gtb a (Fin 0)).
Qed.

(** The mean of a list is positive exactly when its total is. *)
Lemma mean_positive (s : number) (n : nat) :
  (n = 0%nat -> s = Fin 0) ->
  gtb (div s (of_nat n)) (Fin 0) = gtb s (Fin 0).
Proof.
  intros Hempty. destruct n as [|n].
  - now rewrite Hempty.
  - assert (Hn : 0 < inject_Z (Z.of_nat (Datatypes.S n)))
      by (unfold Qlt, inject_Z; simpl; lia).
    unfold of_nat, of_Z. destruct s as [q| | |]; try reflexivity.
    rewrite div_fin by lra. unfold fin, gtb, ltb.
    apply eq_true_iff_eq. rewrite !Qltb_lt, Qred_correct. split; intros H.
    + apply (Qmult_lt_compat_r _ _ (inject_Z (Z.of_nat (Datatypes.S n)))) in H;
          [|exact Hn].
      rewrite Qmult_0_l in H. unfold Qdiv in H.
      rewrite <- Qmult_assoc, (Qmult_comm (/ _)), Qmult_inv_r, Qmult_1_r in H by lra.
      exact H.
    + apply Qlt_shift_div_l; [exact Hn|]. lra.
Qed.

Section WithEngine.
Context {E : Engine}.

Lemma accumulate_sum_product (data : list number) (nyquist bufferLength : number) :
  (fun s : number * number * number => (fst (fst s), snd s))
    (for_range 0 (length data) (accumulate data nyquist bufferLength)
               (Fin 0, Fin 0, Fin 1))
  = (SpectrumSpec.total data, SpectrumSpec.positive_product data).
Proof.
  transitivity
    (for_range 0 (length data)
       (fun i acc => SpectrumSpec.sum_product acc (ToNumber (get_num data (of_nat i))))
       (Fin 0, Fin 1)).
  - apply (for_range_project
             (fun s : number * number * number => (fst (fst s), snd s))
             (accumulate data nyquist bufferLength)
             (fun i acc => SpectrumSpec.sum_product acc (ToNumber (get_num data (of_nat i))))).
    intros i [[s w] p]. unfold accumulate, SpectrumSpec.sum_product. cbn [fst snd].
    now destruct (gtb _ (Fin 0)).
  - rewrite index_loop_fold. apply fold_sum_product.
Qed.



(** The guarded divisions: without any amplitude the centroid, the spread
    and the flatness are all 0. *)
Lemma zero_total_spectrum (data : list number) (sampleRate : option number) :
  SpectrumSpec.total data = Fin 0 ->
  calculateSpectrumCharacteristics data sampleRate
  = {| Spectrum.centroid := Fin 0; Spectrum.spread := Fin 0; Spectrum.flatness := Fin 0 |}.
Proof.
  intros Htotal. unfold calculateSpectrumCharacteristics.
  pose proof (accumulate_sum_product data
                (div (or_default (Fin 44100) sampleRate) (Fin 2))
                (of_nat (length data))) as H.
  destruct (for_range 0 (length data) _ _) as [[sum weightedSum] product].
  cbn [fst snd] in H. injection H as -> ->. rewrite Htotal.
  change (gtb (Fin 0) (Fin 0)) with false. cbv iota.
  now rewrite mean_positive by reflexivity.
Qed.

End WithEngine.












Section WithEngine.
Context {E : Engine}.


End WithEngine.



End SpectrumTheorems.

(* ================================================================== *)
(** * [TempoAnalyzer]: history and tempo *)
(* ================================================================== *)

Module TempoProperties.
Import JS BeatDetection Facts Rounding ClosedForm TempoTheorems Notions.

(** ** The bounded history *)

Lemma addBeat_most_recent (beatTimes : TempoAnalyzer) (time : Z) :
  (length beatTimes <= maxHistorySize)%nat ->
  addBeat beatTimes time = most_recent (beatTimes ++ [time]).
Proof.
  intros Hlen. unfold addBeat, most_recent. rewrite length_app. cbn [length].
  destruct (Nat.ltb_spec maxHistorySize (length beatTimes + 1)) as [H|H].
  - replace (length beatTimes + 1 - maxHistorySize)%nat with 1%nat by lia.
    now destruct (beatTimes ++ [time]).
  - now replace (length beatTimes + 1 - maxHistorySize)%nat with 0%nat by lia.
Qed.

Lemma most_recent_length (l : list Z) : (length (most_recent l) <= maxHistorySize)%nat.
Proof. unfold most_recent. rewrite length_skipn. lia. Qed.

Lemma most_recent_app (l more : list Z) :
  most_recent (most_recent l ++ more) = most_recent (l ++ more).
Proof.
  unfold most_recent.
  set (k := (length l - maxHistorySize)%nat).
  assert (Hk : (k <= length l)%nat) by (unfold k; lia).
  replace (skipn k l ++ more) with (skipn k (l ++ more))
    by (rewrite skipn_app; replace (k - length l)%nat with 0%nat by lia; reflexivity).
  rewrite length_skipn, skipn_skipn, length_app. f_equal. unfold k. lia.
Qed.

(** X1: a [TempoAnalyzer] never holds more than 24 timestamps, and after any
    number of [addBeat] calls on a fresh analyzer it holds exactly the most
    recent ones (at most 24), oldest first. *)
Theorem addBeat_keeps_most_recent (times : list Z) :
  fold_left addBeat times new_TempoAnalyzer = most_recent times
  /\ (length (fold_left addBeat times new_TempoAnalyzer) <= 24)%nat
  /\ ((length times <= 24)%nat -> fold_left addBeat times new_TempoAnalyzer = times).
Proof.
  assert (H : forall beatTimes, (length beatTimes <= maxHistorySize)%nat ->
            fold_left addBeat times beatTimes = most_recent (beatTimes ++ times)).
  { induction times as [|t times IH]; intros beatTimes Hlen.
    - rewrite app_nil_r. unfold most_recent.
      now replace (length beatTimes - maxHistorySize)%nat with 0%nat by lia.
    - cbn [fold_left]. rewrite addBeat_most_recent by exact Hlen.
      rewrite IH by apply most_recent_length.
      rewrite most_recent_app, <- app_assoc. reflexivity. }
  specialize (H [] ltac:(simpl; lia)). cbn [app] in H.
  unfold new_TempoAnalyzer. rewrite H. split; [reflexivity|]. split.
  - apply most_recent_length.
  - intros Hlen. unfold most_recent, maxHistorySize.
    now replace (length times - 24)%nat with 0%nat by lia.
Qed.

Lemma addBeat_keeps_most_recent_witness :
  (length [10; 20; 30]%Z <= 24)%nat
  /\ fold_left addBeat [10; 20; 30]%Z new_TempoAnalyzer = [10; 20; 30]%Z.
Proof.
  assert (H : (length [10; 20; 30]%Z <= 24)%nat) by (simpl; lia).
  split; [exact H|].
  exact (proj2 (proj2 (addBeat_keeps_most_recent [10; 20; 30]%Z)) H).
Defined.

(** ** The filter always leaves an interval *)

Lemma sorted_nth_le (l : list Z) (i j : nat) :
  Sorted Z.le l -> (i <= j)%nat -> (j < length l)%nat ->
  (nth i l 0 <= nth j l 0)%Z.
Proof.
  intros Hs. apply Sorted_StronglySorted in Hs; [|exact Z.le_trans].
  revert i j. induction Hs as [|x l Hl IH Hx]; intros i j Hij Hj; [simpl in Hj; lia|].
  destruct j as [|j]; [replace i with 0%nat by lia; lia|].
  destruct i as [|i]; cbn [nth].
  - rewrite Forall_forall in Hx. apply Hx, nth_In. simpl in Hj. lia.
  - apply IH; simpl in Hj; lia.
Qed.

Lemma within_quartile (q1 q3 : Z) : (q1 <= q3)%Z -> TempoSpec.within q1 q3 q1 = true.
Proof.
  intros H. unfold TempoSpec.within. apply andb_true_iff.
  assert (Hq : inject_Z q1 <= inject_Z q3) by now rewrite <- Zle_Qle.
  unfold Z.sub. rewrite inject_Z_plus, inject_Z_opp. split; apply Qle_bool_iff; lra.
Qed.

Lemma intervals_length (beatTimes : list Z) :
  length (TempoSpec.intervals beatTimes) = (length beatTimes - 1)%nat.
Proof. rewrite <- differences_intervals. now rewrite length_map, length_seq. Qed.

(** With four timestamps or more, the first quartile itself passes the
    filter. *)
Lemma first_quartile_survives (beatTimes : list Z) :
  (4 <= length beatTimes)%nat ->
  let sorted := sort_numeric (TempoSpec.intervals beatTimes) in
  In (TempoSpec.Q1 sorted)
     (filter (TempoSpec.within (TempoSpec.Q1 sorted) (TempoSpec.Q3 sorted))
             (TempoSpec.intervals beatTimes)).
Proof.
  intros Hlen sorted.
  assert (Hs : (3 <= length sorted)%nat)
    by (unfold sorted; rewrite sort_numeric_length, intervals_length; lia).
  assert (H3 : (3 * length sorted / 4 < length sorted)%nat)
    by (apply Nat.Div0.div_lt_upper_bound; lia).
  assert (H13 : (length sorted / 4 <= 3 * length sorted / 4)%nat)
    by (apply Nat.Div0.div_le_mono; lia).
  apply filter_In. split.
  - apply (Permutation_in _ (Permutation_sym (sort_numeric_perm _))).
    apply nth_In. fold sorted. lia.
  - apply within_quartile. unfold TempoSpec.Q1, TempoSpec.Q3.
    apply sorted_nth_le; [apply sort_numeric_sorted|exact H13|exact H3].
Qed.


(** The same with the surviving intervals as a sublist of all intervals. *)
Lemma tempo_of_surviving_intervals (beatTimes : TempoAnalyzer) :
  (4 <= length beatTimes)%nat ->
  exists surviving,
    (forall i, In i surviving -> In i (TempoSpec.intervals beatTimes))
    /\ surviving <> []
    /\ getTempo beatTimes = Math_round (div64 (Fin 60000) (TempoSpec.mean surviving)).
Proof.
  intros Hlen.
  pose proof (first_quartile_survives beatTimes Hlen) as Hin. cbv zeta in Hin.
  set (sorted := sort_numeric (TempoSpec.intervals beatTimes)) in *.
  set (surviving := filter _ _) in Hin.
  exists surviving. split; [|split].
  - intros i Hi. unfold surviving in Hi. now apply filter_In in Hi.
  - intros H0. rewrite H0 in Hin. destruct Hin.
  - rewrite getTempo_refines. unfold TempoSpec.getTempo.
    destruct (Nat.ltb_spec (length beatTimes) 4); [lia|].
    fold sorted surviving. destruct surviving; [destruct Hin|reflexivity].
Qed.

(** X2: with four stored timestamps or more (integral clock readings), at
    least one interval passes the outlier filter: the branch of [getTempo]
    returning 0 for an empty filter is never taken, and the result is
    [Math.round (60000 / mean)] of the surviving intervals, the mean and the
    quotient being quotients of doubles. *)
Theorem getTempo_filter_never_empty (beatTimes : TempoAnalyzer) :
  (4 <= length beatTimes)%nat ->
  let sorted := sort_numeric (TempoSpec.intervals beatTimes) in
  let surviving :=
    filter (TempoSpec.within (TempoSpec.Q1 sorted) (TempoSpec.Q3 sorted))
           (TempoSpec.intervals beatTimes) in
  surviving <> []
  /\ getTempo beatTimes = Math_round (div64 (Fin 60000) (TempoSpec.mean surviving)).
Proof.
  intros Hlen sorted surviving.
  pose proof (first_quartile_survives beatTimes Hlen) as Hin.
  fold sorted in Hin. cbv zeta in Hin. fold surviving in Hin.
  assert (Hne : surviving <> []) by (intros H0; rewrite H0 in Hin; destruct Hin).
  split; [exact Hne|].
  rewrite getTempo_refines. unfold TempoSpec.getTempo.
  destruct (Nat.ltb_spec (length beatTimes) 4); [lia|].
  fold sorted surviving. now destruct surviving.
Qed.

Lemma getTempo_filter_never_empty_witness :
  (4 <= length [0; 500; 1000; 1500; 2000; 2500; 3000; 9000]%Z)%nat
  /\ getTempo [0; 500; 1000; 1500; 2000; 2500; 3000; 9000]%Z
     = Math_round (div64 (Fin 60000) (TempoSpec.mean [500; 500; 500; 500; 500; 500]%Z)).
Proof.
  assert (H : (4 <= length [0; 500; 1000; 1500; 2000; 2500; 3000; 9000]%Z)%nat) by (simpl; lia).
  split; [exact H|].
  exact (proj2 (getTempo_filter_never_empty [0; 500; 1000; 1500; 2000; 2500; 3000; 9000]%Z H)).
Defined.

(** ** Strictly increasing timestamps *)

Lemma intervals_positive (beatTimes : list Z) :
  Sorted Z.lt beatTimes -> Forall (fun i => (1 <= i)%Z) (TempoSpec.intervals beatTimes).
Proof.
  induction 1 as [|a rest Hrest IH Ha]; [constructor|].
  destruct rest as [|b r]; [constructor|].
  change (TempoSpec.intervals (a :: b :: r))
    with ((b - a)%Z :: TempoSpec.intervals (b :: r)).
  constructor; [|exact IH]. inversion Ha; subst. lia.
Qed.

Lemma total_at_least (l : list Z) :
  Forall (fun i => (1 <= i)%Z) l -> (Z.of_nat (length l) <= TempoSpec.total l)%Z.
Proof.
  induction 1 as [|x l Hx Hl IH]; [simpl; lia|].
  cbn [TempoSpec.total fold_right length]. fold (TempoSpec.total l). lia.
Qed.

Lemma Math_round_fin_value (q : Q) : Math_round (fin q) = of_Z (Qfloor (q + (1 # 2))).
Proof.
  unfold fin, Math_round. f_equal. apply Qfloor_comp. now rewrite Qred_correct.
Qed.

(** The mean of a list of intervals that is not empty. *)
Lemma mean_value (l : list Z) :
  l <> [] ->
  TempoSpec.mean l
  = round64 (Qred (inject_Z (TempoSpec.total l) / inject_Z (Z.of_nat (length l)))).
Proof.
  intros Hl. unfold TempoSpec.mean, div64, of_nat, of_Z.
  rewrite div_fin; [reflexivity|].
  intros H0. unfold Qeq, inject_Z in H0; simpl in H0.
  destruct l; [congruence|simpl in H0; lia].
Qed.

Lemma Math_round_cell (r : Q) (z : Z) :
  inject_Z z - (1 # 2) <= r < inject_Z z + (1 # 2) -> Math_round (Fin r) = of_Z z.
Proof.
  intros [H1 H2]. unfold Math_round. f_equal.
  assert (Hlow : (z <= Qfloor (r + (1 # 2)))%Z).
  { rewrite <- (Qfloor_Z z). apply Qfloor_resp_le. lra. }
  assert (Hhigh : (Qfloor (r + (1 # 2)) < z + 1)%Z).
  { rewrite Zlt_Qlt. pose proof (Qfloor_le (r + (1 # 2))).
    rewrite inject_Z_plus. change (inject_Z 1) with 1. lra. }
  lia.
Qed.

Lemma dyadic_one : dyadic 1.
Proof. exact (dyadic_Z (z := 1) ltac:(lia)). Qed.

(** [60000 / r] rounded, for a divisor that is at least 1. *)
Lemma tempo_quotient_bounded (r : Q) :
  1 <= r ->
  exists bpm : Z,
    Math_round (div64 (Fin 60000) (Fin r)) = of_Z bpm /\ (0 <= bpm <= 60000)%Z.
Proof.
  intros Hr. unfold div64. rewrite div_fin by lra. unfold fin.
  set (x := Qred (60000 / r)).
  assert (Hx : 0 < x <= 60000).
  { unfold x. rewrite Qred_correct. split.
    - apply Qlt_shift_div_l; lra.
    - apply Qle_shift_div_r; lra. }
  assert (Hmax : inject_Z 60000 < pow2 1024).
  { apply dyadic_below_max. rewrite pow2_nonneg by lia. rewrite <- Zlt_Qlt. lia. }
  destruct (@round64_upper x (inject_Z 60000) (proj1 Hx)
              (dyadic_Z (z := 60000) ltac:(lia)) (proj2 Hx) Hmax) as (r' & -> & Hr').
  change (inject_Z 60000) with 60000 in Hr'.
  exists (Qfloor (r' + (1 # 2))). split; [reflexivity|]. split.
  - change 0%Z with (Qfloor 0). apply Qfloor_resp_le. lra.
  - change 60000%Z with (Qfloor (60000 + (1 # 2))). apply Qfloor_resp_le. lra.
Qed.

(** Four timestamps or more, increasing strictly: the mean of the surviving
    intervals is at least one millisecond. *)
Lemma getTempo_increasing_long (beatTimes : TempoAnalyzer) :
  Sorted Z.lt beatTimes -> (4 <= length beatTimes)%nat ->
  exists bpm : Z, getTempo beatTimes = of_Z bpm /\ (0 <= bpm <= 60000)%Z.
Proof.
  intros Hsorted Hlen.
  destruct (tempo_of_surviving_intervals beatTimes Hlen) as (surviving & Hsub & Hne & ->).
  assert (Hall : Forall (fun i => (1 <= i)%Z) surviving).
  { apply Forall_forall. intros i Hi.
    pose proof (intervals_positive Hsorted) as Hpos. rewrite Forall_forall in Hpos.
    apply Hpos, Hsub, Hi. }
  pose proof (total_at_least Hall) as Htotal.
  assert (Hlen' : (0 < Z.of_nat (length surviving))%Z)
    by (destruct surviving; [congruence|simpl; lia]).
  rewrite (mean_value Hne).
  set (len := inject_Z (Z.of_nat (length surviving))) in *.
  set (sum := inject_Z (TempoSpec.total surviving)) in *.
  assert (Hlenq : 0 < len) by (unfold len, Qlt, inject_Z; simpl; lia).
  assert (Hsumq : len <= sum) by (unfold len, sum; now rewrite <- Zle_Qle).
  assert (Hmean : 1 <= Qred (sum / len)).
  { rewrite Qred_correct. apply Qle_shift_div_l; [exact Hlenq|lra]. }
  destruct (round64_lower dyadic_one Hmean) as [->|(r & -> & Hr)].
  - exists 0%Z. split; [reflexivity|lia].
  - now apply tempo_quotient_bounded.
Qed.

Lemma getTempo_increasing (beatTimes : TempoAnalyzer) :
  Sorted Z.lt beatTimes ->
  exists bpm : Z, getTempo beatTimes = of_Z bpm /\ (0 <= bpm <= 60000)%Z.
Proof.
  intros Hsorted.
  destruct (Nat.lt_ge_cases (length beatTimes) 4) as [Hshort|Hlen].
  - exists 0%Z. split; [|lia]. unfold getTempo.
    now destruct (Nat.ltb_spec (length beatTimes) 4); [|lia].
  - now apply getTempo_increasing_long.
Qed.



(** ** A steady pulse *)

Lemma evenly_spaced_cons (t0 d : Z) (n : nat) :
  evenly_spaced t0 d (Datatypes.S n) = t0 :: evenly_spaced (t0 + d) d n.
Proof.
  unfold evenly_spaced. cbn [seq map]. f_equal; [f_equal; lia|].
  rewrite <- seq_shift, map_map. apply map_ext. intros k. lia.
Qed.

Lemma intervals_evenly_spaced (t0 d : Z) (n : nat) :
  TempoSpec.intervals (evenly_spaced t0 d n) = repeat d (n - 1).
Proof.
  revert t0. induction n as [|n IH]; intros t0; [reflexivity|].
  rewrite evenly_spaced_cons. destruct n as [|n]; [reflexivity|].
  rewrite evenly_spaced_cons.
  change (TempoSpec.intervals (t0 :: (t0 + d)%Z :: evenly_spaced (t0 + d + d) d n))
    with ((t0 + d - t0)%Z
          :: TempoSpec.intervals ((t0 + d)%Z :: evenly_spaced (t0 + d + d) d n)).
  rewrite <- evenly_spaced_cons, IH. cbn [Nat.sub repeat]. rewrite Nat.sub_0_r.
  f_equal. lia.
Qed.

Lemma sort_repeat (d : Z) (m : nat) : sort_numeric (repeat d m) = repeat d m.
Proof.
  induction m as [|m IH]; [reflexivity|]. cbn [repeat sort_numeric fold_right].
  fold (sort_numeric (repeat d m)). rewrite IH.
  destruct m; cbn [repeat insert_sorted]; [reflexivity|].
  now rewrite Z.leb_refl.
Qed.

Lemma nth_repeat_inside (d : Z) (m k : nat) : (k < m)%nat -> nth k (repeat d m) 0%Z = d.
Proof.
  intros H. apply nth_error_nth. now apply nth_error_repeat.
Qed.

Lemma within_same (d : Z) : TempoSpec.within d d d = true.
Proof. apply within_quartile. lia. Qed.

Lemma total_repeat (d : Z) (m : nat) : TempoSpec.total (repeat d m) = (Z.of_nat m * d)%Z.
Proof.
  induction m as [|m IH]; [reflexivity|].
  cbn [repeat TempoSpec.total fold_right]. fold (TempoSpec.total (repeat d m)). lia.
Qed.

(** ** The quotient [60000 / d] in doubles

    The double nearest to [60000 / d] is rounded by [Math.round] to the
    same integer as the exact quotient: the quotient is either a half
    integer, which is a double, or at least [1 / (2 * d)] away from the
    next one. *)

Lemma tiny_pow2 : tiny == pow2 (-20).
Proof. reflexivity. Qed.

Lemma half_pow2 : 1 # 2 == pow2 (-1).
Proof. reflexivity. Qed.

Lemma inject_Z_small (w : Z) : (0 <= w <= 60000)%Z -> 0 <= inject_Z w <= 60000.
Proof.
  intros H. change 0 with (inject_Z 0). change 60000 with (inject_Z 60000).
  rewrite <- !Zle_Qle. lia.
Qed.

Lemma dyadic_half_below (w : Z) :
  (1 <= w <= 60000)%Z -> dyadic (inject_Z w - (1 # 2)).
Proof.
  intros Hw. exists (2 * w - 1)%Z, (-1)%Z. split; [lia|]. split; [lia|].
  rewrite <- half_pow2. unfold Z.sub.
  rewrite inject_Z_plus, inject_Z_mult, inject_Z_opp.
  change (inject_Z 2) with 2. change (inject_Z 1) with 1. ring.
Qed.

Lemma dyadic_half_above (w : Z) :
  (0 <= w <= 60000)%Z -> dyadic (inject_Z w + (1 # 2)).
Proof.
  intros Hw. exists (2 * w + 1)%Z, (-1)%Z. split; [lia|]. split; [lia|].
  rewrite <- half_pow2. rewrite inject_Z_plus, inject_Z_mult.
  change (inject_Z 2) with 2. change (inject_Z 1) with 1. ring.
Qed.

Lemma dyadic_below_half_above (w : Z) :
  (0 <= w <= 60000)%Z -> dyadic (inject_Z w + (1 # 2) - tiny).
Proof.
  intros Hw. exists ((2 * w + 1) * 524288 - 1)%Z, (-20)%Z.
  split; [lia|]. split; [lia|].
  rewrite <- tiny_pow2. unfold Z.sub.
  rewrite inject_Z_plus, !inject_Z_mult, inject_Z_plus, inject_Z_mult, inject_Z_opp.
  change (inject_Z 2) with 2. change (inject_Z 1) with 1.
  change (inject_Z 524288) with 524288. unfold tiny. ring.
Qed.

Lemma dyadic_above_half_below (w : Z) :
  (1 <= w <= 60000)%Z -> dyadic (inject_Z w - (1 # 2) + tiny).
Proof.
  intros Hw. exists ((2 * w - 1) * 524288 + 1)%Z, (-20)%Z.
  split; [lia|]. split; [lia|].
  rewrite <- tiny_pow2. unfold Z.sub.
  rewrite inject_Z_plus, !inject_Z_mult, inject_Z_plus, inject_Z_mult, inject_Z_opp.
  change (inject_Z 2) with 2. change (inject_Z 1) with 1.
  change (inject_Z 524288) with 524288. unfold tiny. ring.
Qed.

Lemma below_max (c : Q) : c <= 60001 -> c < pow2 1024.
Proof.
  intros H. apply dyadic_below_max.
  assert (60001 < pow2 53)
    by (rewrite pow2_nonneg by lia; change 60001 with (inject_Z 60001);
        rewrite <- Zlt_Qlt; lia).
  lra.
Qed.

(** A positive [y] kept away from the half integer above it. *)
Lemma cell_up (y : Q) (w : Z) :
  0 < y -> (0 <= w <= 60000)%Z ->
  inject_Z w - (1 # 2) <= y <= inject_Z w + (1 # 2) - tiny ->
  exists r : Q,
    round64 y = Fin r /\ inject_Z w - (1 # 2) <= r /\ r < inject_Z w + (1 # 2).
Proof.
  intros Hy Hw [H1 H2]. pose proof (inject_Z_small Hw) as Hwq.
  assert (Hmax : inject_Z w + (1 # 2) - tiny < pow2 1024)
    by (apply below_max; unfold tiny; lra).
  destruct (Z.eq_dec w 0) as [->|Hne].
  - destruct (@round64_upper y _ Hy (dyadic_below_half_above Hw) H2 Hmax) as (r & Hr & Hb).
    exists r. split; [exact Hr|]. change (inject_Z 0) with 0 in *. unfold tiny in *.
    split; lra.
  - destruct (@round64_between y _ _ (@dyadic_half_below w ltac:(lia))
                (dyadic_below_half_above Hw) (conj H1 H2) Hmax) as (r & Hr & Hb).
    exists r. split; [exact Hr|]. unfold tiny in *. split; lra.
Qed.

(** A positive [y] kept away from the half integer below it. *)
Lemma cell_down (y : Q) (w : Z) :
  0 < y -> (0 <= w <= 60000)%Z ->
  inject_Z w - (1 # 2) + tiny <= y <= inject_Z w + (1 # 2) ->
  exists r : Q,
    round64 y = Fin r /\ inject_Z w - (1 # 2) < r /\ r <= inject_Z w + (1 # 2).
Proof.
  intros Hy Hw [H1 H2]. pose proof (inject_Z_small Hw) as Hwq.
  assert (Hmax : inject_Z w + (1 # 2) < pow2 1024) by (apply below_max; lra).
  destruct (Z.eq_dec w 0) as [->|Hne].
  - destruct (@round64_upper y _ Hy (dyadic_half_above Hw) H2 Hmax) as (r & Hr & Hb).
    exists r. split; [exact Hr|]. change (inject_Z 0) with 0 in *. split; lra.
  - destruct (@round64_between y _ _ (@dyadic_above_half_below w ltac:(lia))
                (dyadic_half_above Hw) (conj H1 H2) Hmax) as (r & Hr & Hb).
    exists r. split; [exact Hr|]. unfold tiny in *. split; lra.
Qed.

Lemma Qopp_opp (q : Q) : - - q = q.
Proof. destruct q as [n d]. unfold Qopp. cbn [Qnum Qden]. now rewrite Z.opp_involutive. Qed.

Lemma round64_negative (x : Q) (r : Q) :
  round64 (- x) = Fin r -> round64 x = Fin (Qred (- r)).
Proof.
  intros H. rewrite <- (Qopp_opp x), round64_opp, H. reflexivity.
Qed.

(** Divisors up to [2 ^ 19]. *)
Lemma quotient_stable_small (d : Z) :
  (d <> 0)%Z -> (Z.abs d <= 524288)%Z ->
  Math_round (round64 (Qred (60000 / inject_Z d)))
  = Math_round (Fin (Qred (60000 / inject_Z d))).
Proof.
  intros Hd Hsmall.
  set (x := Qred (60000 / inject_Z d)).
  set (z := Qfloor (x + (1 # 2))).
  assert (Hz1 : inject_Z z <= x + (1 # 2)) by apply Qfloor_le.
  assert (Hz2 : x + (1 # 2) < inject_Z z + 1).
  { pose proof (Qlt_floor (x + (1 # 2))) as H. fold z in H.
    rewrite inject_Z_plus in H. exact H. }
  assert (Hexact : Math_round (Fin x) = of_Z z) by reflexivity.
  rewrite Hexact.
  assert (Hnz : ~ inject_Z d == 0).
  { intros H0. unfold Qeq, inject_Z in H0; simpl in H0. lia. }
  assert (Hxd : x * inject_Z d == 60000).
  { unfold x. rewrite Qred_correct. field. exact Hnz. }
  destruct (Z.lt_trichotomy d 0) as [Hneg|[H0|Hpos]]; [|lia|].
  - (* a negative divisor *)
    set (D := inject_Z (- d)).
    assert (HD : 0 < D) by (unfold D, Qlt, inject_Z; simpl; lia).
    assert (HDmax : D <= 524288).
    { unfold D. change 524288 with (inject_Z 524288). rewrite <- Zle_Qle. lia. }
    assert (HD1 : 1 <= D).
    { unfold D. change 1 with (inject_Z 1). rewrite <- Zle_Qle. lia. }
    assert (HyD : - x * D == 60000).
    { unfold D. rewrite inject_Z_opp. rewrite <- Hxd. ring. }
    assert (Hy : 0 < - x) by nra.
    set (w := (- z)%Z).
    assert (Hwq : inject_Z w == - inject_Z z) by (unfold w; now rewrite inject_Z_opp).
    assert (Hw0 : (0 <= w)%Z).
    { assert (H : inject_Z (-1) < inject_Z w).
      { change (inject_Z (-1)) with (-1). lra. }
      rewrite <- Zlt_Qlt in H. lia. }
    assert (Hw1 : (w <= 60000)%Z).
    { assert (Hle : - x <= 60000) by nra.
      assert (H : inject_Z w < inject_Z 60001).
      { change (inject_Z 60001) with 60001. lra. }
      rewrite <- Zlt_Qlt in H. lia. }
    assert (HZ : ((2 * w - 1) * - d < 120000)%Z).
    { rewrite Zlt_Qlt. unfold Z.sub.
      rewrite inject_Z_mult, inject_Z_plus, inject_Z_mult. fold D.
      change (inject_Z 2) with 2. change (inject_Z (- (1))) with (- (1)).
      change (inject_Z 120000) with 120000. nra. }
    assert (HQ : (2 * inject_Z w - 1) * D <= 119999).
    { assert (H : ((2 * w - 1) * - d <= 119999)%Z) by lia.
      rewrite Zle_Qle in H. unfold Z.sub in H.
      rewrite inject_Z_mult, inject_Z_plus, inject_Z_mult, inject_Z_opp in H.
      exact H. }
    assert (Hgap : inject_Z w - (1 # 2) + tiny <= - x).
    { unfold tiny. apply Qnot_lt_le. intros Hc. nra. }
    assert (Htop : - x <= inject_Z w + (1 # 2)) by lra.
    destruct (@cell_down (- x) w Hy (conj Hw0 Hw1) (conj Hgap Htop))
      as (r & Hr & Hr1 & Hr2).
    rewrite (round64_negative _ Hr). apply Math_round_cell.
    rewrite Qred_correct. lra.
  - (* a positive divisor *)
    set (D := inject_Z d) in *.
    assert (HD : 0 < D) by (unfold D, Qlt, inject_Z; simpl; lia).
    assert (HDmax : D <= 524288).
    { unfold D. change 524288 with (inject_Z 524288). rewrite <- Zle_Qle. lia. }
    assert (HD1 : 1 <= D).
    { unfold D. change 1 with (inject_Z 1). rewrite <- Zle_Qle. lia. }
    assert (Hx : 0 < x) by nra.
    assert (Hz0 : (0 <= z)%Z).
    { assert (H : inject_Z (-1) < inject_Z z).
      { change (inject_Z (-1)) with (-1). lra. }
      rewrite <- Zlt_Qlt in H. lia. }
    assert (Hz60 : (z <= 60000)%Z).
    { assert (Hle : x <= 60000) by nra.
      assert (H : inject_Z z < inject_Z 60001).
      { change (inject_Z 60001) with 60001. lra. }
      rewrite <- Zlt_Qlt in H. lia. }
    assert (HZ : (120000 < (2 * z + 1) * d)%Z).
    { rewrite Zlt_Qlt. rewrite inject_Z_mult, inject_Z_plus, inject_Z_mult.
      fold D. change (inject_Z 2) with 2. change (inject_Z 1) with 1.
      change (inject_Z 120000) with 120000. nra. }
    assert (HQ : 120001 <= (2 * inject_Z z + 1) * D).
    { assert (H : (120001 <= (2 * z + 1) * d)%Z) by lia.
      rewrite Zle_Qle in H. rewrite inject_Z_mult, inject_Z_plus, inject_Z_mult in H.
      exact H. }
    assert (Hgap : x <= inject_Z z + (1 # 2) - tiny).
    { unfold tiny. apply Qnot_lt_le. intros Hc. nra. }
    assert (Hbottom : inject_Z z - (1 # 2) <= x) by lra.
    destruct (@cell_up x z Hx (conj Hz0 Hz60) (conj Hbottom Hgap))
      as (r & -> & Hr1 & Hr2).
    apply Math_round_cell. lra.
Qed.

Lemma dyadic_quarter : dyadic (1 # 4).
Proof. exists 1%Z, (-2)%Z. split; [lia|]. split; [lia|reflexivity]. Qed.

(** A quotient of at most a quarter rounds to 0, with either sign. *)
Lemma quotient_small (x : Q) :
  - (1 # 4) <= x <= 1 # 4 ->
  Math_round (round64 x) = of_Z 0 /\ Math_round (Fin x) = of_Z 0.
Proof.
  intros Hx. split; [|apply Math_round_cell; change (inject_Z 0) with 0; lra].
  assert (Hmax : 1 # 4 < pow2 1024) by (apply below_max; lra).
  destruct (Qlt_le_dec 0 x) as [Hpos|Hle].
  - destruct (@round64_upper x (1 # 4) Hpos dyadic_quarter (proj2 Hx) Hmax)
      as (r & -> & Hr).
    apply Math_round_cell. change (inject_Z 0) with 0. lra.
  - destruct (Qeq_dec x 0) as [H0|Hne].
    + rewrite (round64_zero H0). reflexivity.
    + assert (Hneg : 0 < - x) by lra.
      assert (Htop : - x <= 1 # 4) by lra.
      destruct (@round64_upper (- x) (1 # 4) Hneg dyadic_quarter Htop Hmax)
        as (r & Hr & Hb).
      rewrite (round64_negative _ Hr). apply Math_round_cell.
      rewrite Qred_correct. change (inject_Z 0) with 0. lra.
Qed.

Lemma dyadic_large : dyadic 524288.
Proof. exact (dyadic_Z (z := 524288) ltac:(lia)). Qed.

(** A divisor of at least [2 ^ 19], of either sign. *)
Lemma quotient_of_large (r : Q) :
  524288 <= r \/ r <= - (524288) -> - (1 # 4) <= Qred (60000 / r) <= 1 # 4.
Proof.
  intros Hr. rewrite Qred_correct. destruct Hr as [Hr|Hr].
  - split.
    + apply Qle_shift_div_l; lra.
    + apply Qle_shift_div_r; lra.
  - assert (E : 60000 / r == - (60000 / - r)) by (field; lra).
    rewrite E. split.
    + apply Qopp_le_compat. apply Qle_shift_div_r; lra.
    + assert (0 <= 60000 / - r) by (apply Qle_shift_div_l; lra). lra.
Qed.

(** [Math.round (60000 / d)] with the mean [d] and the quotient taken in
    doubles is the rounding of the exact quotient. *)
Lemma quotient_stable (d : Z) :
  Math_round (div64 (Fin 60000) (round64 (inject_Z d)))
  = Math_round (div (Fin 60000) (of_Z d)).
Proof.
  destruct (Z.eq_dec d 0) as [->|Hd]; [reflexivity|].
  assert (Hnz : ~ inject_Z d == 0).
  { intros H0. unfold Qeq, inject_Z in H0; simpl in H0. lia. }
  assert (Hexact : div (Fin 60000) (of_Z d) = Fin (Qred (60000 / inject_Z d)))
    by (unfold of_Z; now rewrite div_fin).
  rewrite Hexact.
  destruct (Z.le_gt_cases (Z.abs d) 524288) as [Hsmall|Hlarge].
  - rewrite round64_Z by lia. unfold div64. rewrite Hexact.
    now apply quotient_stable_small.
  - assert (Hq : 524288 <= inject_Z d \/ inject_Z d <= - (524288)).
    { destruct (Z.lt_trichotomy d 0) as [Hneg|[H0|Hpos]]; [right|lia|left].
      - change (- (524288)) with (inject_Z (-524288)). rewrite <- Zle_Qle. lia.
      - change 524288 with (inject_Z 524288). rewrite <- Zle_Qle. lia. }
    rewrite (proj2 (quotient_small (quotient_of_large Hq))).
    destruct Hq as [Hq|Hq].
    + destruct (round64_lower dyadic_large Hq) as [->|(r & -> & Hr)]; [reflexivity|].
      unfold div64. rewrite div_fin by lra. unfold fin.
      apply quotient_small. apply quotient_of_large. now left.
    + assert (Hpos : 524288 <= - inject_Z d) by lra.
      rewrite <- (Qopp_opp (inject_Z d)), round64_opp.
      destruct (round64_lower dyadic_large Hpos) as [->|(r & -> & Hr)]; [reflexivity|].
      cbn [neg]. unfold div64, fin.
      rewrite div_fin by (rewrite Qred_correct; lra). unfold fin.
      apply quotient_small. apply quotient_of_large. right. rewrite Qred_correct. lra.
Qed.

Lemma mean_repeat (d : Z) (m : nat) :
  (1 <= m)%nat -> TempoSpec.mean (repeat d m) = round64 (inject_Z d).
Proof.
  intros Hm.
  rewrite mean_value by (destruct m; [lia|discriminate]).
  rewrite total_repeat, repeat_length. f_equal.
  rewrite <- (Qred_inject_Z d). apply Qred_complete.
  rewrite inject_Z_mult. field.
  intros H0. unfold Qeq, inject_Z in H0; simpl in H0. lia.
Qed.

(** X4: for a steady pulse, four beats or more spaced [d] milliseconds
    apart, [getTempo] is [Math.round (60000 / d)], whatever the starting
    time and the number of beats; at [d = 500] it is 120. *)
Theorem getTempo_steady_pulse (t0 d : Z) (n : nat) :
  (4 <= n)%nat ->
  getTempo (evenly_spaced t0 d n) = Math_round (div (Fin 60000) (of_Z d))
  /\ getTempo (evenly_spaced t0 500 n) = Fin 120.
Proof.
  assert (H : forall d', (4 <= n)%nat ->
            getTempo (evenly_spaced t0 d' n) = Math_round (div (Fin 60000) (of_Z d'))).
  { intros d' Hn. rewrite getTempo_refines. unfold TempoSpec.getTempo.
    replace (length (evenly_spaced t0 d' n)) with n
      by (unfold evenly_spaced; now rewrite length_map, length_seq).
    destruct (Nat.ltb_spec n 4); [lia|].
    rewrite intervals_evenly_spaced, sort_repeat.
    unfold TempoSpec.Q1, TempoSpec.Q3. rewrite repeat_length.
    rewrite !nth_repeat_inside by (apply Nat.Div0.div_lt_upper_bound; lia).
    assert (Hfilter : filter (TempoSpec.within d' d') (repeat d' (n - 1)) = repeat d' (n - 1)).
    { induction (n - 1)%nat as [|m IH]; [reflexivity|].
      cbn [repeat filter]. now rewrite within_same, IH. }
    rewrite Hfilter.
    destruct (repeat d' (n - 1)) as [|x l] eqn:Hrep.
    { apply (f_equal (@length _)) in Hrep. rewrite repeat_length in Hrep.
      simpl in Hrep. lia. }
    rewrite <- Hrep. rewrite mean_repeat by lia. apply quotient_stable. }
  intros Hn. split; [now apply H|]. rewrite H by exact Hn. reflexivity.
Qed.

Lemma getTempo_steady_pulse_witness :
  (4 <= 6)%nat
  /\ getTempo (evenly_spaced 1000 250 6) = Math_round (div (Fin 60000) (of_Z 250)).
Proof.
  assert (H : (4 <= 6)%nat) by lia.
  split; [exact H|]. exact (proj1 (getTempo_steady_pulse 1000 250 H)).
Defined.

End TempoProperties.

(* ================================================================== *)
(** * [BeatDetector]: energies, silence, bands past the spectrum *)
(* ================================================================== *)

Module BeatProperties.
Import JS AudioProcessor BeatDetection Facts ClosedForm BeatSpec BeatFacts Examples Notions.

Lemma between_fin (lo hi q : Q) : lo <= q <= hi -> between lo hi (fin q).
Proof. intros H. exists (Qred q). split; [reflexivity|]. now rewrite Qred_correct. Qed.

Lemma between_zero : between 0 1 (Fin 0).
Proof. exists 0. split; [reflexivity|lra]. Qed.

Lemma byteZ_bounds (b : byte) : (0 <= byteZ b <= 255)%Z.
Proof. unfold byteZ. pose proof (Byte.to_N_bounded b). lia. Qed.

(** A weighted mean of two numbers of the unit interval. *)
Lemma between_convex (a m d : number) :
  between 0 1 a -> between 0 1 m -> between 0 1 d ->
  between 0 1 (add (mul a d) (mul m (sub (Fin 1) d))).
Proof.
  intros (qa & -> & Ha) (qm & -> & Hm) (qd & -> & Hd).
  cbn [sub neg add mul fin]. eexists. split; [reflexivity|].
  rewrite !Qred_correct. split; nra.
Qed.

Lemma between_difference (x y : number) :
  between 0 1 x -> between 0 1 y -> between (-1) 1 (sub x y).
Proof.
  intros (qx & -> & Hx) (qy & -> & Hy).
  cbn [sub neg add fin]. eexists. split; [reflexivity|].
  rewrite !Qred_correct. split; lra.
Qed.

(** The sum of numbers of the unit interval. *)
Lemma sum_between (l : list number) :
  Forall (between 0 1) l ->
  forall s : Q, 0 <= s ->
  exists t : Q, fold_left add l (Fin s) = Fin t
                /\ 0 <= t <= s + inject_Z (Z.of_nat (length l)).
Proof.
  induction 1 as [|x l (q & -> & Hq) _ IH]; intros s Hs.
  - exists s. split; [reflexivity|]. cbn [length Z.of_nat].
    change (inject_Z 0) with 0. lra.
  - cbn [fold_left]. rewrite add_fin. unfold fin.
    destruct (IH (Qred (s + q))) as (t & Ht & Hb); [rewrite Qred_correct; lra|].
    exists t. split; [exact Ht|]. rewrite Qred_correct in Hb.
    cbn [length]. rewrite Nat2Z.inj_succ, <- Z.add_1_r, inject_Z_plus.
    change (inject_Z 1) with 1. lra.
Qed.

Section WithEngine.
Context {E : Engine}.

(** The square of a byte over 255. *)
Lemma byte_energy (b : byte) :
  exists y : Q,
    Math_pow (div (of_byte b) (Fin 255)) (Fin 2) = Fin y
    /\ 0 <= y <= 1 /\ (b = x00 -> y == 0).
Proof.
  pose proof (byteZ_bounds b) as Hb. unfold of_byte, of_Z. fold (byteZ b).
  rewrite div_fin by discriminate. unfold fin.
  set (x := Qred (inject_Z (byteZ b) / 255)).
  assert (Hx : 0 <= x <= 1).
  { unfold x. rewrite Qred_correct. split.
    - apply Qle_shift_div_l; [reflexivity|]. rewrite Qmult_0_l.
      change 0 with (inject_Z 0). rewrite <- Zle_Qle. lia.
    - apply Qle_shift_div_r; [reflexivity|]. rewrite Qmult_1_l.
      change 255 with (inject_Z 255). rewrite <- Zle_Qle. lia. }
  unfold Math_pow. change (Qeq_bool 2 0) with false. cbv iota.
  change (Qltb 0 2) with true. change (is_integer 2) with true.
  change (Qfloor 2) with 2%Z. cbv iota.
  destruct (Qeq_bool x 0) eqn:Hzero.
  - exists 0. split; [reflexivity|]. split; [lra|reflexivity].
  - exists (Qred (Qpower x 2)). split; [reflexivity|].
    assert (Hsq : Qpower x 2 == x * x) by (simpl; reflexivity).
    rewrite Qred_correct, Hsq. split; [nra|].
    intros ->. apply Qeq_bool_false in Hzero. exfalso. apply Hzero.
    unfold x. now rewrite Qred_correct.
Qed.

(** The energy loop over bins inside the spectrum. *)
Lemma energy_sum_between (fd : list byte) (idxs : list Z) :
  Forall (fun i => (0 <= i < Z.of_nat (length fd))%Z) idxs ->
  forall (s : Q) (acc : list number), 0 <= s ->
  exists s' : Q,
    fst (fold_left (energy_step fd) (map of_Z idxs) (Fin s, acc)) = Fin s'
    /\ s <= s' <= s + inject_Z (Z.of_nat (length idxs))
    /\ (Forall (fun b => b = x00) fd -> s' == s).
Proof.
  induction 1 as [|i idxs Hi _ IH]; intros s acc Hs.
  - exists s. split; [reflexivity|]. cbn [length Z.of_nat].
    change (inject_Z 0) with 0. split; [lra|reflexivity].
  - cbn [map fold_left]. unfold energy_step at 2. cbn [fst snd].
    assert (Hread : exists b, nth_error fd (Z.to_nat i) = Some b).
    { destruct (nth_error fd (Z.to_nat i)) as [b|] eqn:Hb; [now exists b|].
      apply nth_error_None in Hb. lia. }
    destruct Hread as [b Hb].
    assert (Hget : get_u8 fd (of_Z i) = VNum (of_byte b)).
    { unfold get_u8, read. rewrite index_of_Z.
      destruct (Z.leb_spec 0 i); [now rewrite Hb|lia]. }
    rewrite Hget. cbn [ToNumber].
    destruct (byte_energy b) as (y & -> & Hy & Hzero).
    rewrite add_fin. unfold fin.
    destruct (IH (Qred (s + y)) (acc ++ [of_Z i])) as (s' & Hs' & Hb' & Hsil);
      [rewrite Qred_correct; lra|].
    exists s'. split; [exact Hs'|]. rewrite Qred_correct in Hb'.
    cbn [length]. rewrite Nat2Z.inj_succ, <- Z.add_1_r, inject_Z_plus.
    change (inject_Z 1) with 1.
    split; [lra|]. intros Hall. rewrite (Hsil Hall), Qred_correct.
    rewrite Forall_forall in Hall.
    rewrite (Hzero (Hall b (nth_error_In _ _ Hb))). lra.
Qed.

Lemma Z_range_length (lo hi : Z) : length (Z_range lo hi) = Z.to_nat (hi - lo + 1).
Proof. unfold Z_range. now rewrite length_map, length_seq. Qed.

(** The division by the number of bins of the band. *)
Lemma energy_normalised (s : Q) (l h : Z) :
  0 <= s <= inject_Z (Z.of_nat (Z.to_nat (h - l + 1))) ->
  exists e : Q,
    (if gtb (of_Z h) (of_Z l)
     then div (Fin s) (add (sub (of_Z h) (of_Z l)) (Fin 1))
     else Fin s) = Fin e
    /\ 0 <= e <= 1 /\ (s == 0 -> e == 0).
Proof.
  intros Hs. rewrite gtb_of_Z. destruct (Z.ltb_spec l h) as [Hlh|Hlh].
  - rewrite sub_of_Z. change (Fin 1) with (of_Z 1). rewrite add_of_Z. unfold of_Z.
    rewrite Z2Nat.id in Hs by lia.
    set (c := inject_Z (h - l + 1)) in *.
    assert (Hc : 0 < c) by (unfold c, Qlt, inject_Z; simpl; lia).
    rewrite div_fin by lra. exists (Qred (s / c)). split; [reflexivity|].
    rewrite Qred_correct. split; [split|].
    + apply Qle_shift_div_l; [exact Hc|lra].
    + apply Qle_shift_div_r; [exact Hc|lra].
    + intros ->. unfold Qdiv. ring.
  - exists s. split; [reflexivity|]. split; [|tauto].
    assert (Hone : inject_Z (Z.of_nat (Z.to_nat (h - l + 1))) <= 1).
    { change 1 with (inject_Z 1). rewrite <- Zle_Qle. lia. }
    lra.
Qed.

Lemma low_index_nonneg (lo rate : Q) (n : Z) :
  0 <= lo -> 0 < rate -> (0 <= n)%Z -> (0 <= low_index lo rate n)%Z.
Proof.
  intros Hlo Hrate Hn. unfold low_index.
  change 0%Z with (Qfloor 0). apply Qfloor_resp_le.
  pose proof (half_pos Hrate) as Hhalf.
  apply Qle_shift_div_l; [exact Hhalf|].
  assert (0 <= inject_Z n) by (change 0 with (inject_Z 0); now rewrite <- Zle_Qle).
  nra.
Qed.

(** One call on a frame that has the band inside. *)
Lemma detect_inside (self : BeatDetector.t) (audioData : AudioData) (now : Z) :
  healthy self ->
  between 0 1 (Options.decayRate (BeatDetector.options self)) ->
  band_inside (BeatDetector.options self) audioData ->
  exists (self' : BeatDetector.t) (info : BeatInfo.t) (e avg : Q),
    detect self (Some audioData) now = Some (self', info)
    /\ healthy self'
    /\ BeatInfo.energy info = Fin e /\ 0 <= e <= 1
    /\ BeatInfo.averageEnergy info = Fin avg /\ 0 <= avg <= 1
    /\ BeatInfo.delta info = sub (Fin e) (Fin avg)
    /\ (silent audioData -> e == 0).
Proof.
  intros (Hlen & Hhist & Havg) Hdecay (lo & hi & rate & Hrate & Hpos & Hband & Hlo & Hhi & Hn).
  unfold detect.
  rewrite (band_indices_finite self audioData Hrate Hpos Hband).
  unfold of_Z at 1 2. cbn [sum_energy]. rewrite loop_indices_integers.
  set (l := low_index lo rate (bufferLength audioData)) in *.
  set (h := high_index hi rate (bufferLength audioData)) in *.
  assert (Hl : (0 <= l)%Z) by (apply low_index_nonneg; [exact Hlo|exact Hpos|lia]).
  assert (Hidx : Forall (fun i => (0 <= i < Z.of_nat (length (frequencyData audioData)))%Z)
                        (Z_range l h)).
  { apply Forall_forall. intros i Hi. apply In_Z_range in Hi. lia. }
  destruct (@energy_sum_between (frequencyData audioData) (Z_range l h) Hidx 0 []
              (Qle_refl 0)) as (s' & Hs' & Hb' & Hsil).
  destruct (fold_left _ _ _) as [energy reads]. cbn [fst] in Hs'. subst energy.
  rewrite Z_range_length in Hb'.
  destruct (@energy_normalised s' l h) as (e & -> & He & Hzero); [lra|].
  set (history := tl (BeatDetector.energyHistory self ++ [Fin e])).
  assert (Hlen' : length history = historySize).
  { unfold history. destruct (BeatDetector.energyHistory self) as [|x rest];
      [discriminate|]. cbn [app tl]. rewrite length_app. cbn [length] in *. lia. }
  assert (Hhist' : Forall (between 0 1) history).
  { unfold history. destruct (BeatDetector.energyHistory self) as [|x rest];
      [discriminate|]. cbn [app tl]. apply Forall_app. split.
    - exact (Forall_inv_tail Hhist).
    - constructor; [|constructor]. exists e. split; [reflexivity|exact He]. }
  destruct (sum_between Hhist' (Qle_refl 0)) as (t & -> & Ht).
  rewrite Hlen' in Ht.
  assert (Hmean : between 0 1 (div (Fin t) (of_nat historySize))).
  { unfold of_nat, of_Z. rewrite div_fin by discriminate. apply between_fin.
    change (inject_Z (Z.of_nat historySize)) with 43 in *. split.
    - apply Qle_shift_div_l; [reflexivity|lra].
    - apply Qle_shift_div_r; [reflexivity|lra]. }
  pose proof (between_convex Havg Hmean Hdecay) as (avg & Havg' & Hb).
  rewrite Havg'.
  eexists _, _, e, avg. split; [reflexivity|].
  split.
  { split; [exact Hlen'|]. split; [exact Hhist'|].
    exists avg. split; [reflexivity|exact Hb]. }
  cbn [BeatInfo.energy BeatInfo.averageEnergy BeatInfo.delta].
  split; [reflexivity|]. split; [exact He|]. split; [reflexivity|].
  split; [exact Hb|]. split; [reflexivity|].
  intros Hsilent. apply Hzero, Hsil, Hsilent.
Qed.

Lemma detect_keeps_options (self self' : BeatDetector.t) (audioData : option AudioData)
    (now : Z) (info : BeatInfo.t) :
  detect self audioData now = Some (self', info) ->
  BeatDetector.options self' = BeatDetector.options self.
Proof.
  destruct audioData as [audioData|].
  - unfold detect. destruct (band_indices self audioData) as [lowIndex highIndex].
    destruct (sum_energy _ lowIndex highIndex) as [[energy reads]|]; [|discriminate].
    intros H. now injection H as <- <-.
  - cbn [detect]. intros H. now injection H as <- <-.
Qed.

(** A run on frames that have the band inside. *)
Lemma detect_all_inside (calls : list (option AudioData * Z)) :
  forall self : BeatDetector.t,
  healthy self ->
  between 0 1 (Options.decayRate (BeatDetector.options self)) ->
  calls_inside (BeatDetector.options self) calls ->
  exists results,
    detect_all self calls = Some results
    /\ Forall (fun r =>
                 healthy (fst r)
                 /\ between 0 1 (BeatInfo.energy (snd r))
                 /\ between 0 1 (BeatInfo.averageEnergy (snd r))
                 /\ between (-1) 1 (BeatInfo.delta (snd r)))
              results.
Proof.
  induction calls as [|[audioData now] rest IH]; intros self Hself Hdecay Hcalls.
  - exists []. split; [reflexivity|constructor].
  - pose proof (Forall_inv Hcalls) as Hcall. pose proof (Forall_inv_tail Hcalls) as Hrest.
    cbn [fst] in Hcall. cbn [detect_all]. destruct audioData as [audioData|].
    + destruct (detect_inside now Hself Hdecay Hcall)
        as (self' & info & e & avg & Hd & Hself' & He & Hbe & Ha & Hba & Hdl & _).
      pose proof (detect_keeps_options _ _ _ Hd) as Hopts. rewrite Hd.
      destruct (IH self') as (results & -> & Hall);
        [exact Hself'|now rewrite Hopts|unfold calls_inside; now rewrite Hopts|].
      eexists. split; [reflexivity|]. constructor; [|exact Hall]. cbn [fst snd].
      split; [exact Hself|]. rewrite He, Ha, Hdl.
      split; [now exists e|]. split; [now exists avg|].
      apply between_difference; [now exists e|now exists avg].
    + cbn [detect].
      destruct (IH self Hself Hdecay Hrest) as (results & -> & Hall).
      eexists. split; [reflexivity|]. constructor; [|exact Hall]. cbn [fst snd].
      split; [exact Hself|].
      cbn [BeatInfo.energy BeatInfo.averageEnergy BeatInfo.delta].
      split; [exact between_zero|]. split; [exact between_zero|].
      exists 0. split; [reflexivity|lra].
Qed.

Lemma constructor_healthy (options : Partial.t) : healthy (constructor options).
Proof.
  unfold healthy, constructor. cbn [BeatDetector.energyHistory BeatDetector.averageEnergy].
  split; [apply repeat_length|]. split; [|exact between_zero].
  apply Forall_forall. intros x Hx. apply repeat_spec in Hx. subst x. exact between_zero.
Qed.

Lemma reset_healthy (self : BeatDetector.t) : healthy (reset self).
Proof.
  unfold healthy, reset. cbn [BeatDetector.energyHistory BeatDetector.averageEnergy].
  split; [apply repeat_length|]. split; [|exact between_zero].
  apply Forall_forall. intros x Hx. apply repeat_spec in Hx. subst x. exact between_zero.
Qed.


(** X5: as long as the band falls on bins of the frames and the decay rate
    is between 0 and 1, a detector that starts with a full window of
    energies between 0 and 1 (as a new or reset one does) always returns,
    and every call reports an energy and an average energy between 0 and 1
    and a delta between -1 and 1, from a state that again has a window of 43
    energies between 0 and 1. *)
Theorem detect_energies_bounded (self : BeatDetector.t)
    (calls : list (option AudioData * Z)) :
  healthy self ->
  between 0 1 (Options.decayRate (BeatDetector.options self)) ->
  calls_inside (BeatDetector.options self) calls ->
  exists results,
    detect_all self calls = Some results
    /\ length results = length calls
    /\ Forall (fun r =>
                 healthy (fst r)
                 /\ between 0 1 (BeatInfo.energy (snd r))
                 /\ between 0 1 (BeatInfo.averageEnergy (snd r))
                 /\ between (-1) 1 (BeatInfo.delta (snd r)))
              results.
Proof.
  intros Hself Hdecay Hcalls.
  destruct (detect_all_inside Hself Hdecay Hcalls) as (results & Hrun & Hall).
  exists results. split; [exact Hrun|]. split; [|exact Hall].
  clear Hall Hself Hdecay Hcalls. revert self results Hrun.
  induction calls as [|[audioData now] rest IH]; intros self results Hrun.
  - now injection Hrun as <-.
  - cbn [detect_all] in Hrun.
    destruct (detect self audioData now) as [[self' info]|]; [|discriminate].
    destruct (detect_all self' rest) as [results'|] eqn:Hrest; [|discriminate].
    injection Hrun as <-. cbn [length]. f_equal. now apply (IH self').
Qed.

Lemma no_beat_on_silence (e avg : Q) (threshold : number) :
  e == 0 -> 0 <= avg -> geb threshold (Fin 0) = true ->
  gtb (sub (Fin e) (Fin avg)) threshold = false.
Proof.
  intros He Havg. cbn [sub neg add fin]. unfold geb, gtb.
  destruct threshold as [t| | |]; cbn [leb ltb]; try reflexivity; try discriminate.
  intros Ht. apply Qle_bool_iff in Ht. apply Qltb_ge.
  rewrite !Qred_correct. lra.
Qed.

(** X6: a detector that starts with a full window of energies between 0
    and 1 and an average energy between 0 and 1 (as a new or reset one
    does), with a decay rate between 0 and 1, a threshold that is not
    negative and a band that falls on bins of every frame, never makes a
    beat of frames whose spectrum is zero in every bin: the run returns and
    every call of it reports energy 0 and [isBeat = false]. *)
Theorem silence_never_beats (self : BeatDetector.t)
    (calls : list (option AudioData * Z)) :
  healthy self ->
  between 0 1 (Options.decayRate (BeatDetector.options self)) ->
  geb (Options.threshold (BeatDetector.options self)) (Fin 0) = true ->
  calls_inside (BeatDetector.options self) calls ->
  calls_silent calls ->
  exists results,
    detect_all self calls = Some results
    /\ Forall (fun r => BeatInfo.isBeat (snd r) = false
                        /\ between 0 0 (BeatInfo.energy (snd r)))
              results.
Proof.
  revert self. induction calls as [|[audioData now] rest IH];
    intros self Hself Hdecay Hthr Hcalls Hsilent.
  - exists []. split; [reflexivity|constructor].
  - pose proof (Forall_inv Hcalls) as Hcall. pose proof (Forall_inv_tail Hcalls) as Hrest.
    pose proof (Forall_inv Hsilent) as Hsil. pose proof (Forall_inv_tail Hsilent) as Hsils.
    cbn [fst] in Hcall, Hsil. cbn [detect_all]. destruct audioData as [audioData|].
    + destruct (detect_inside now Hself Hdecay Hcall)
        as (self' & info & e & avg & Hd & Hself' & He & Hbe & Ha & Hba & Hdl & Hzero).
      pose proof (detect_keeps_options _ _ _ Hd) as Hopts.
      destruct (BeatTheorems.detect_step _ _ _ Hd) as (_ & _ & _ & Hbeat).
      rewrite Hd.
      destruct (IH self') as (results & -> & Hall);
        [exact Hself'|now rewrite Hopts|now rewrite Hopts
        |unfold calls_inside; now rewrite Hopts|exact Hsils|].
      eexists. split; [reflexivity|]. constructor; [|exact Hall]. cbn [fst snd].
      split.
      * rewrite Hbeat. unfold beat_condition. rewrite Hdl.
        rewrite (@no_beat_on_silence e avg _ (Hzero Hsil) (proj1 Hba) Hthr). reflexivity.
      * exists e. split; [exact He|]. rewrite (Hzero Hsil). lra.
    + cbn [detect].
      destruct (IH self Hself Hdecay Hthr Hrest Hsils) as (results & -> & Hall).
      eexists. split; [reflexivity|]. constructor; [|exact Hall]. cbn [fst snd].
      split; [reflexivity|]. exists 0. split; [reflexivity|lra].
Qed.

Lemma add_nan_r (x : number) : add x NaN = NaN.
Proof. now destruct x. Qed.

Lemma energy_nan_stays (fd : list byte) (l : list number) :
  forall acc : number * list number,
  fst acc = NaN -> fst (fold_left (energy_step fd) l acc) = NaN.
Proof.
  induction l as [|i l IH]; intros acc Hacc; [exact Hacc|].
  cbn [fold_left]. apply IH. unfold energy_step. cbn [fst]. now rewrite Hacc.
Qed.

(** One index outside the spectrum turns the whole sum into [NaN]. *)
Lemma energy_sum_undefined (fd : list byte) (idxs : list Z) (i : Z) :
  In i idxs -> ~ (0 <= i < Z.of_nat (length fd))%Z ->
  forall acc : number * list number,
  fst (fold_left (energy_step fd) (map of_Z idxs) acc) = NaN.
Proof.
  intros Hin Hout. induction idxs as [|j idxs IH]; intros acc; [destruct Hin|].
  cbn [map fold_left]. destruct Hin as [->|Hin]; [|now apply IH].
  apply energy_nan_stays. unfold energy_step. cbn [fst].
  assert (Hread : get_u8 fd (of_Z i) = VUndef).
  { destruct (get_u8 fd (of_Z i)) as [|x] eqn:Hx; [reflexivity|].
    exfalso. apply Hout. apply get_u8_defined. now rewrite Hx. }
  rewrite Hread. cbn [ToNumber div]. unfold Math_pow.
  change (Qeq_bool 2 0) with false. cbv iota. apply add_nan_r.
Qed.

Lemma band_reaches_end (lo hi rate : Q) (n : Z) :
  0 < rate -> lo <= hi -> rate / 2 <= hi -> (0 < n)%Z ->
  (low_index lo rate n <= high_index hi rate n)%Z /\ (n <= high_index hi rate n)%Z.
Proof.
  intros Hrate Hlohi Hhi Hn. unfold low_index, high_index.
  pose proof (half_pos Hrate) as Hhalf. set (nyq := rate / 2) in *.
  assert (Hnq : 0 < inject_Z n) by (unfold Qlt, inject_Z; simpl; lia).
  assert (Hle : lo * inject_Z n / nyq <= hi * inject_Z n / nyq).
  { apply Qle_shift_div_l; [exact Hhalf|].
    unfold Qdiv. rewrite <- Qmult_assoc, (Qmult_comm (/ nyq)), Qmult_assoc.
    rewrite <- Qmult_assoc, Qmult_inv_r by lra. nra. }
  assert (Hend : inject_Z n <= hi * inject_Z n / nyq).
  { apply Qle_shift_div_l; [exact Hhalf|]. nra. }
  split.
  - rewrite Zle_Qle. eapply Qle_trans; [apply Qfloor_le|].
    eapply Qle_trans; [exact Hle|]. apply Qle_ceiling.
  - rewrite <- (Qceiling_Z n) at 1. apply Qceiling_resp_le. exact Hend.
Qed.

(** A state whose average energy is [NaN] keeps it and reports no beat. *)
Lemma detect_poisoned (self self' : BeatDetector.t) (audioData : option AudioData)
    (now : Z) (info : BeatInfo.t) :
  BeatDetector.averageEnergy self = NaN ->
  detect self audioData now = Some (self', info) ->
  BeatDetector.averageEnergy self' = NaN /\ BeatInfo.isBeat info = false.
Proof.
  intros Hnan. destruct audioData as [audioData|].
  - unfold detect. destruct (band_indices self audioData) as [lowIndex highIndex].
    destruct (sum_energy _ lowIndex highIndex) as [[energy reads]|]; [|discriminate].
    intros H. injection H as <- <-.
    cbn [BeatDetector.averageEnergy BeatInfo.isBeat]. rewrite Hnan.
    cbn [mul add]. split; [reflexivity|].
    unfold sub. cbn [neg]. rewrite add_nan_r. unfold gtb.
    now destruct (Options.threshold (BeatDetector.options self)).
  - cbn [detect]. intros H. injection H as <- <-. now split.
Qed.

Lemma detect_all_poisoned (calls : list (option AudioData * Z)) :
  forall (self : BeatDetector.t) (results : list (BeatDetector.t * BeatInfo.t)),
  BeatDetector.averageEnergy self = NaN ->
  detect_all self calls = Some results ->
  Forall (fun r => BeatInfo.isBeat (snd r) = false) results.
Proof.
  induction calls as [|[audioData now] rest IH]; intros self results Hnan Hrun.
  - injection Hrun as <-. constructor.
  - destruct (BeatTheorems.detect_all_cons _ _ _ _ Hrun)
      as (self' & info & results' & Hd & Hrest & ->).
    destruct (@detect_poisoned _ _ _ _ _ Hnan Hd) as [Hnan' Hbeat].
    constructor; [exact Hbeat|]. exact (IH self' results' Hnan' Hrest).
Qed.

(** X7: one frame on which the band is not empty and reaches the Nyquist
    frequency or beyond makes the detector deaf.  The call reads past the
    spectrum, so it reports energy [NaN] and no beat and leaves the average
    energy at [NaN]; from then on no call reports a beat, whatever the
    frames and whatever options are set afterwards, until [reset]. *)
Theorem band_past_end_silences_detector (self : BeatDetector.t)
    (audioData : AudioData) (now : Z) :
  BeatDetector.energyHistory self <> [] ->
  band_past_end (BeatDetector.options self) audioData ->
  exists (self' : BeatDetector.t) (info : BeatInfo.t),
    detect self (Some audioData) now = Some (self', info)
    /\ BeatInfo.energy info = NaN
    /\ BeatInfo.isBeat info = false
    /\ BeatDetector.averageEnergy self' = NaN
    /\ (forall (newOptions : Partial.t) (calls : list (option AudioData * Z)) results,
          detect_all (updateOptions self' newOptions) calls = Some results ->
          Forall (fun r => BeatInfo.isBeat (snd r) = false) results)
    /\ healthy (reset self').
Proof.
  intros Hhist (lo & hi & rate & Hrate & Hpos & Hband & Hlohi & Hhi & Hn & Hbins).
  destruct (band_reaches_end Hpos Hlohi Hhi Hbins) as [Hlh Hend].
  assert (Hd : exists self' info,
             detect self (Some audioData) now = Some (self', info)
             /\ BeatInfo.energy info = NaN /\ BeatInfo.isBeat info = false
             /\ BeatDetector.averageEnergy self' = NaN).
  { unfold detect.
    rewrite (band_indices_finite self audioData Hrate Hpos Hband).
    unfold of_Z at 1 2. cbn [sum_energy]. rewrite loop_indices_integers.
    set (l := low_index lo rate (bufferLength audioData)) in *.
    set (h := high_index hi rate (bufferLength audioData)) in *.
    assert (Hin : In h (Z_range l h)) by (apply In_Z_range; lia).
    assert (Hout : ~ (0 <= h < Z.of_nat (length (frequencyData audioData)))%Z) by lia.
    pose proof (@energy_sum_undefined (frequencyData audioData) (Z_range l h) h Hin Hout
                  (Fin 0, [])) as Hsum.
    destruct (fold_left _ _ _) as [energy reads]. cbn [fst] in Hsum. subst energy.
    assert (He : (if gtb (of_Z h) (of_Z l)
                  then div NaN (add (sub (of_Z h) (of_Z l)) (Fin 1)) else NaN) = NaN)
      by now destruct (gtb (of_Z h) (of_Z l)).
    rewrite He.
    destruct (BeatDetector.energyHistory self) as [|x rest]; [congruence|].
    cbn [app tl]. rewrite fold_left_app. cbn [fold_left]. rewrite add_nan_r.
    cbn [div mul]. rewrite add_nan_r. unfold sub at 1 2. cbn [neg add].
    eexists _, _. split; [reflexivity|].
    cbn [BeatInfo.energy BeatInfo.isBeat BeatDetector.averageEnergy].
    repeat split. unfold gtb at 1.
    now destruct (Options.threshold (BeatDetector.options self)). }
  destruct Hd as (self' & info & Hdetect & Henergy & Hbeat & Hnan).
  exists self', info. repeat (split; [assumption|]). split.
  - intros newOptions calls results Hrun.
    apply (@detect_all_poisoned calls (updateOptions self' newOptions) results);
      [exact Hnan|exact Hrun].
  - apply reset_healthy.
Qed.

End WithEngine.

Lemma flat_frame_inside (b : byte) :
  band_inside (BeatDetector.options default_detector) (flat_frame b).
Proof.
  exists 60, 120, 44100. repeat split; try reflexivity; discriminate.
Qed.

Lemma default_decay : between 0 1 (Options.decayRate (BeatDetector.options default_detector)).
Proof. exists (98 # 100). split; [reflexivity|]. split; discriminate. Qed.

Lemma detect_energies_bounded_witness :
  healthy default_detector
  /\ calls_inside (BeatDetector.options default_detector) bounded_calls
  /\ exists results,
       detect_all (E := Reference.engine) default_detector bounded_calls = Some results
       /\ length results = 3%nat
       /\ Forall (fun r => between 0 1 (BeatInfo.energy (snd r))) results.
Proof.
  assert (Hself : healthy default_detector) by apply constructor_healthy.
  assert (Hcalls : calls_inside (BeatDetector.options default_detector) bounded_calls).
  { repeat constructor; cbn [fst]; apply flat_frame_inside. }
  split; [exact Hself|]. split; [exact Hcalls|].
  destruct (@detect_energies_bounded Reference.engine default_detector bounded_calls
              Hself default_decay Hcalls) as (results & Hrun & Hlen & Hall).
  exists results. split; [exact Hrun|]. split; [exact Hlen|].
  revert Hall. apply Forall_impl. intros r H. apply H.
Defined.

Lemma silent_calls_inside :
  calls_inside (BeatDetector.options default_detector) silent_calls.
Proof.
  repeat constructor; cbn [fst]; exists 60, 120, 44100;
    repeat split; try reflexivity; discriminate.
Qed.

Lemma silent_calls_silent : calls_silent silent_calls.
Proof.
  repeat constructor; cbn [fst]; unfold silent; apply Forall_forall;
    intros b Hb; exact (repeat_spec _ _ _ Hb).
Qed.

Lemma silence_never_beats_witness :
  geb (Options.threshold (BeatDetector.options default_detector)) (Fin 0) = true
  /\ exists results,
       detect_all (E := Reference.engine) default_detector silent_calls = Some results
       /\ Forall (fun r => BeatInfo.isBeat (snd r) = false) results.
Proof.
  assert (Hthr : geb (Options.threshold (BeatDetector.options default_detector)) (Fin 0)
                 = true) by reflexivity.
  split; [exact Hthr|].
  destruct (@silence_never_beats Reference.engine default_detector silent_calls
              (constructor_healthy Partial.empty) default_decay Hthr
              silent_calls_inside silent_calls_silent) as (results & Hrun & Hall).
  exists results. split; [exact Hrun|].
  revert Hall. apply Forall_impl. intros r H. apply H.
Defined.

Lemma band_past_end_silences_detector_witness :
  BeatDetector.energyHistory wide_detector <> []
  /\ band_past_end (BeatDetector.options wide_detector) loud_frame
  /\ exists self' info,
       detect (E := Reference.engine) wide_detector (Some loud_frame) 0 = Some (self', info)
       /\ BeatInfo.energy info = NaN
       /\ BeatDetector.averageEnergy self' = NaN.
Proof.
  assert (Hhist : BeatDetector.energyHistory wide_detector <> []) by discriminate.
  assert (Hband : band_past_end (BeatDetector.options wide_detector) loud_frame).
  { exists 20000, 22050, 44100. repeat split; try reflexivity; discriminate. }
  split; [exact Hhist|]. split; [exact Hband|].
  destruct (@band_past_end_silences_detector Reference.engine wide_detector loud_frame 0
              Hhist Hband) as (self' & info & Hd & He & _ & Hnan & _).
  now exists self', info.
Defined.

End BeatProperties.

(* ================================================================== *)
(** * [createBeatAnalyzer] *)
(* ================================================================== *)

Module AnalyzerProperties.
Import JS AudioProcessor BeatDetection BeatAnalyzer Facts ClosedForm BeatSpec Examples Notions.

Lemma sorted_snoc (l : list Z) (x : Z) :
  Sorted Z.lt l -> Forall (fun t => (t < x)%Z) l -> Sorted Z.lt (l ++ [x]).
Proof.
  induction 1 as [|a l Hl IH Ha]; intros Hall; [repeat constructor|].
  cbn [app]. constructor.
  - apply IH. exact (Forall_inv_tail Hall).
  - destruct l as [|b l]; cbn [app]; constructor.
    + exact (Forall_inv Hall).
    + now inversion Ha.
Qed.

Lemma sorted_tl (l : list Z) : Sorted Z.lt l -> Sorted Z.lt (tl l).
Proof. intros H. destruct l; [exact H|]. now inversion H. Qed.

Lemma Forall_tl (A : Type) (P : A -> Prop) (l : list A) : Forall P l -> Forall P (tl l).
Proof. intros H. destruct l; [exact H|]. exact (Forall_inv_tail H). Qed.

(** A beat time that is later than all the stored ones keeps the stored
    times increasing. *)
Lemma addBeat_sorted (beatTimes : TempoAnalyzer) (last time : Z) :
  Sorted Z.lt beatTimes -> Forall (fun t => (t <= last)%Z) beatTimes ->
  (last < time)%Z ->
  Sorted Z.lt (addBeat beatTimes time)
  /\ Forall (fun t => (t <= time)%Z) (addBeat beatTimes time).
Proof.
  intros Hs Hall Hlt.
  assert (Hs' : Sorted Z.lt (beatTimes ++ [time])).
  { apply sorted_snoc; [exact Hs|]. revert Hall. apply Forall_impl. intros t Ht. lia. }
  assert (Hall' : Forall (fun t => (t <= time)%Z) (beatTimes ++ [time])).
  { apply Forall_app. split.
    - revert Hall. apply Forall_impl. intros t Ht. lia.
    - constructor; [lia|constructor]. }
  unfold addBeat. destruct (_ <? _)%nat.
  - split; [now apply sorted_tl|now apply Forall_tl].
  - now split.
Qed.

Lemma elapsed_positive (elapsed : Z) (minTime : number) :
  geb minTime (Fin 0) = true -> gtb (of_Z elapsed) minTime = true -> (0 < elapsed)%Z.
Proof.
  unfold geb, gtb, of_Z. destruct minTime as [m| | |]; cbn [leb ltb]; try discriminate.
  intros Hm Hgt. apply Qle_bool_iff in Hm. apply Qltb_lt in Hgt.
  assert (H : inject_Z 0 < inject_Z elapsed) by (change (inject_Z 0) with 0; lra).
  now rewrite <- Zlt_Qlt in H.
Qed.

Section WithEngine.
Context {E : Engine}.

Lemma analyzeBeat_inv (self self' : BeatAnalyzer.t) (audioData : option AudioData)
    (now : Z) (result : Result.t) :
  analyzeBeat self audioData now = Some (self', result) ->
  exists info,
    detect (detector self) audioData now = Some (detector self', info)
    /\ Result.beatInfo result = info
    /\ analyzer self'
       = (if BeatInfo.isBeat info then addBeat (analyzer self) (BeatInfo.time info)
          else analyzer self)
    /\ Result.tempo result = getTempo (analyzer self').
Proof.
  unfold analyzeBeat.
  destruct (detect (detector self) audioData now) as [[detector' info]|] eqn:Hd;
    [|discriminate].
  intros H. injection H as <- <-. exists info. repeat split.
Qed.

Lemma analyze_all_cons (self final : BeatAnalyzer.t) (audioData : option AudioData)
    (now : Z) (rest : list (option AudioData * Z)) (results : list Result.t) :
  analyze_all self ((audioData, now) :: rest) = Some (final, results) ->
  exists self' result results',
    analyzeBeat self audioData now = Some (self', result)
    /\ analyze_all self' rest = Some (final, results')
    /\ results = result :: results'.
Proof.
  cbn [analyze_all].
  destruct (analyzeBeat self audioData now) as [[self' result]|] eqn:Hstep; [|discriminate].
  destruct (analyze_all self' rest) as [[final' results']|] eqn:Hrest;
    cbn [option_map fst snd]; [|discriminate].
  intros H. injection H as <- <-. now exists self', result, results'.
Qed.

(** The stored beat times increase and none is later than the last beat
    the detector remembers. *)
Lemma analyze_all_increasing (calls : list (option AudioData * Z)) :
  forall (self final : BeatAnalyzer.t) (results : list Result.t),
  geb (Options.minTimeBetweenBeats (BeatDetector.options (detector self))) (Fin 0) = true ->
  Sorted Z.lt (analyzer self) ->
  Forall (fun t => (t <= BeatDetector.lastBeatTime (detector self))%Z) (analyzer self) ->
  analyze_all self calls = Some (final, results) ->
  Sorted Z.lt (analyzer final)
  /\ Forall (fun r => exists bpm : Z,
                        Result.tempo r = of_Z bpm /\ (0 <= bpm <= 60000)%Z)
            results.
Proof.
  induction calls as [|[audioData now] rest IH];
    intros self final results Hmin Hsorted Hlast Hrun.
  - injection Hrun as <- <-. split; [exact Hsorted|constructor].
  - destruct (analyze_all_cons _ _ _ _ Hrun) as (self' & result & results' & Hstep & Hrest & ->).
    destruct (analyzeBeat_inv _ _ _ Hstep) as (info & Hd & Hinfo & Hanalyzer & Htempo).
    destruct (BeatTheorems.detect_step _ _ _ Hd) as (Hopts & Htime & Hlb & Hbeat).
    assert (Hinv : Sorted Z.lt (analyzer self')
                   /\ Forall (fun t => (t <= BeatDetector.lastBeatTime (detector self'))%Z)
                             (analyzer self')).
    { rewrite Hanalyzer, Hlb. destruct (BeatInfo.isBeat info) eqn:Hb; [|now split].
      destruct audioData as [audioData|]; [|destruct Hbeat; congruence].
      symmetry in Hbeat. unfold beat_condition in Hbeat.
      apply andb_true_iff in Hbeat. destruct Hbeat as [_ Helapsed].
      pose proof (@elapsed_positive _ _ Hmin Helapsed) as Hpos.
      rewrite Htime.
      apply (@addBeat_sorted _ (BeatDetector.lastBeatTime (detector self)));
        [exact Hsorted|exact Hlast|lia]. }
    destruct Hinv as [Hsorted' Hlast'].
    destruct (IH self' final results') as [Hfinal Hall];
      [now rewrite Hopts|exact Hsorted'|exact Hlast'|exact Hrest|].
    split; [exact Hfinal|]. constructor; [|exact Hall].
    rewrite Htempo. now apply TempoProperties.getTempo_increasing.
Qed.


Lemma beat_times_cons (result : Result.t) (results : list Result.t) :
  beat_times (result :: results) = beat_times [result] ++ beat_times results.
Proof.
  unfold beat_times. cbn [filter].
  now destruct (BeatInfo.isBeat (Result.beatInfo result)).
Qed.

Lemma analyze_all_recent (calls : list (option AudioData * Z)) :
  forall (self final : BeatAnalyzer.t) (results : list Result.t) (earlier : list Z),
  analyzer self = most_recent earlier ->
  analyze_all self calls = Some (final, results) ->
  analyzer final = most_recent (earlier ++ beat_times results)
  /\ length results = length calls
  /\ forall (k : nat) (r : Result.t),
       nth_error results k = Some r ->
       Result.tempo r
       = getTempo (most_recent (earlier ++ beat_times (firstn (Datatypes.S k) results))).
Proof.
  induction calls as [|[audioData now] rest IH]; intros self final results earlier Hself Hrun.
  - injection Hrun as <- <-. unfold beat_times. cbn [filter map]. rewrite app_nil_r.
    split; [exact Hself|]. split; [reflexivity|]. intros k r Hk. destruct k; discriminate.
  - destruct (analyze_all_cons _ _ _ _ Hrun) as (self' & result & results' & Hstep & Hrest & ->).
    destruct (analyzeBeat_inv _ _ _ Hstep) as (info & Hd & Hinfo & Hanalyzer & Htempo).
    assert (Hself' : analyzer self' = most_recent (earlier ++ beat_times [result])).
    { rewrite Hanalyzer. subst info. unfold beat_times. cbn [filter map].
      destruct (BeatInfo.isBeat (Result.beatInfo result)); cbn [map].
      - rewrite Hself.
        rewrite TempoProperties.addBeat_most_recent
          by apply TempoProperties.most_recent_length.
        apply TempoProperties.most_recent_app.
      - now rewrite app_nil_r. }
    destruct (IH self' final results' _ Hself' Hrest) as (Hfinal & Hlen & Htempos).
    rewrite beat_times_cons, app_assoc. split; [exact Hfinal|].
    split; [cbn [length]; now rewrite Hlen|].
    intros k r Hk. destruct k as [|k]; cbn [nth_error] in Hk.
    + injection Hk as <-. cbn [firstn]. rewrite Htempo, Hself'. reflexivity.
    + change (firstn (Datatypes.S (Datatypes.S k)) (result :: results'))
        with (result :: firstn (Datatypes.S k) results').
      rewrite beat_times_cons, app_assoc. now apply Htempos.
Qed.

Lemma analyze_all_options (calls : list (option AudioData * Z)) :
  forall (self final : BeatAnalyzer.t) (results : list Result.t),
  analyze_all self calls = Some (final, results) ->
  BeatDetector.options (detector final) = BeatDetector.options (detector self).
Proof.
  induction calls as [|[audioData now] rest IH]; intros self final results Hrun.
  - now injection Hrun as <- <-.
  - destruct (analyze_all_cons _ _ _ _ Hrun) as (self' & result & results' & Hstep & Hrest & ->).
    destruct (analyzeBeat_inv _ _ _ Hstep) as (info & Hd & _).
    destruct (BeatTheorems.detect_step _ _ _ Hd) as (Hopts & _).
    rewrite (IH self' final results' Hrest). exact Hopts.
Qed.

(** X8: an analyzer made by [createBeatAnalyzer] with a
    [minTimeBetweenBeats] that is not negative stores strictly increasing
    beat times, whatever the frames and the clock readings of the calls; so
    the [tempo] of every result is a finite whole number between 0 and
    60000, never [Infinity], [NaN] or negative. *)
Theorem analyzeBeat_tempo_finite (options : option Partial.t)
    (calls : list (option AudioData * Z)) (final : BeatAnalyzer.t)
    (results : list Result.t) :
  geb (Options.minTimeBetweenBeats
         (BeatDetector.options (detector (createBeatAnalyzer options)))) (Fin 0) = true ->
  analyze_all (createBeatAnalyzer options) calls = Some (final, results) ->
  Sorted Z.lt (analyzer final)
  /\ Forall (fun r => exists bpm : Z,
                        Result.tempo r = of_Z bpm /\ (0 <= bpm <= 60000)%Z)
            results.
Proof.
  intros Hmin Hrun.
  apply (@analyze_all_increasing calls (createBeatAnalyzer options) final results);
    [exact Hmin|constructor|constructor|exact Hrun].
Qed.

(** With a band of finite ends and frames of a finite positive sample
    rate every call of [analyzeBeat] returns. *)
Lemma analyze_all_returns (calls : list (option AudioData * Z)) :
  forall self : BeatAnalyzer.t,
  finite_band (detector self) -> Forall well_formed_call calls ->
  exists final results, analyze_all self calls = Some (final, results).
Proof.
  induction calls as [|[audioData now] rest IH]; intros self Hband Hcalls.
  - now exists self, [].
  - destruct (@BeatFacts.detect_returns E (detector self) audioData now Hband
                (Forall_inv Hcalls)) as (detector' & info & Hd & Hopts).
    cbn [analyze_all]. unfold analyzeBeat. rewrite Hd.
    match goal with
    | |- context [analyze_all ?self' rest] =>
        destruct (IH self') as (final & results & Hrest)
    end.
    + unfold finite_band. cbn [detector]. now rewrite Hopts.
    + exact (Forall_inv_tail Hcalls).
    + rewrite Hrest. cbn [option_map fst snd]. now eexists _, _.
Qed.

(** X9: on an analyzer made by [createBeatAnalyzer] whose band has finite
    ends, calls whose frames have a finite positive sample rate all return.
    In any run that returns there is one result per call, the tempo
    analyzer holds the times of the beats reported so far, the 24 most
    recent of them when there are more, and the [tempo] of each result is
    [getTempo] of the beats reported up to and including that call. *)
Theorem analyzeBeat_tracks_recent_beats (options : option Partial.t)
    (calls : list (option AudioData * Z)) :
  (finite_band (detector (createBeatAnalyzer options)) ->
   Forall well_formed_call calls ->
   exists final results,
     analyze_all (createBeatAnalyzer options) calls = Some (final, results))
  /\ (forall (final : BeatAnalyzer.t) (results : list Result.t),
        analyze_all (createBeatAnalyzer options) calls = Some (final, results) ->
        length results = length calls
        /\ analyzer final = most_recent (beat_times results)
        /\ forall (k : nat) (r : Result.t),
             nth_error results k = Some r ->
             Result.tempo r
             = getTempo (most_recent (beat_times (firstn (Datatypes.S k) results)))).
Proof.
  split.
  - intros Hband Hcalls. now apply analyze_all_returns.
  - intros final results Hrun.
    destruct (@analyze_all_recent calls (createBeatAnalyzer options) final results []
                eq_refl Hrun) as (Hfinal & Hlen & Htempos).
    split; [exact Hlen|]. split; [exact Hfinal|exact Htempos].
Qed.

(** X10: after any calls of [analyzeBeat], [reset] brings the analyzer back
    to the state [createBeatAnalyzer] made it in: the same options, an empty
    tempo history, a zeroed energy window, average energy 0 and last beat
    time 0.  The same calls then give the same results again. *)
Theorem reset_restores_created (options : option Partial.t)
    (calls : list (option AudioData * Z)) (final : BeatAnalyzer.t)
    (results : list Result.t) :
  analyze_all (createBeatAnalyzer options) calls = Some (final, results) ->
  BeatAnalyzer.reset final = createBeatAnalyzer options
  /\ analyze_all (BeatAnalyzer.reset final) calls = Some (final, results).
Proof.
  intros Hrun.
  assert (Hreset : BeatAnalyzer.reset final = createBeatAnalyzer options).
  { pose proof (analyze_all_options _ _ Hrun) as Hopts.
    unfold BeatAnalyzer.reset, BeatDetection.reset, tempo_reset. rewrite Hopts.
    reflexivity. }
  split; [exact Hreset|]. now rewrite Hreset.
Qed.

End WithEngine.

Lemma three_spikes_analyzed :
  exists final results,
    analyze_all (E := Reference.engine) (createBeatAnalyzer None) three_spikes
    = Some (final, results).
Proof.
  destruct (analyze_all (E := Reference.engine) (createBeatAnalyzer None) three_spikes)
    as [[final results]|] eqn:Hrun.
  - now exists final, results.
  - vm_compute in Hrun. discriminate.
Qed.

Lemma analyzeBeat_tempo_finite_witness :
  geb (Options.minTimeBetweenBeats
         (BeatDetector.options (detector (createBeatAnalyzer None)))) (Fin 0) = true
  /\ exists final results,
       analyze_all (E := Reference.engine) (createBeatAnalyzer None) three_spikes
       = Some (final, results)
       /\ Forall (fun r => exists bpm : Z,
                             Result.tempo r = of_Z bpm /\ (0 <= bpm <= 60000)%Z)
                 results.
Proof.
  split; [reflexivity|].
  destruct three_spikes_analyzed as (final & results & Hrun).
  exists final, results. split; [exact Hrun|].
  exact (proj2 (@analyzeBeat_tempo_finite Reference.engine None three_spikes final results
                  eq_refl Hrun)).
Defined.

Lemma analyzeBeat_tracks_recent_beats_witness :
  finite_band (detector (createBeatAnalyzer None))
  /\ Forall well_formed_call three_spikes
  /\ exists final results,
       analyze_all (E := Reference.engine) (createBeatAnalyzer None) three_spikes
       = Some (final, results)
       /\ length results = 4%nat
       /\ analyzer final = most_recent (beat_times results).
Proof.
  assert (Hband : finite_band (detector (createBeatAnalyzer None)))
    by (exists 60, 120; reflexivity).
  assert (Hcalls : Forall well_formed_call three_spikes).
  { repeat constructor; exists 44100; split; reflexivity. }
  repeat (split; [assumption|]).
  destruct (@analyzeBeat_tracks_recent_beats Reference.engine None three_spikes)
    as (Htotal & Htrack).
  destruct (Htotal Hband Hcalls) as (final & results & Hrun).
  exists final, results. split; [exact Hrun|].
  destruct (Htrack final results Hrun) as (Hlen & Hfinal & _).
  split; [exact Hlen|exact Hfinal].
Defined.

Lemma reset_restores_created_witness :
  exists final results,
    analyze_all (E := Reference.engine) (createBeatAnalyzer None) three_spikes
    = Some (final, results)
    /\ BeatAnalyzer.reset final = createBeatAnalyzer None.
Proof.
  destruct three_spikes_analyzed as (final & results & Hrun).
  exists final, results. split; [exact Hrun|].
  exact (proj1 (@reset_restores_created Reference.engine None three_spikes final results
                  Hrun)).
Defined.

End AnalyzerProperties.

(* ================================================================== *)
(** * [processAudioData]: waveform, volume and the dominant bin *)
(* ================================================================== *)

Module ProcessProperties.
Import JS AudioProcessor Facts ClosedForm ProcessFacts Examples Notions.

Lemma byte_range (b : byte) : (0 <= byteZ b <= 255)%Z.
Proof. unfold byteZ. pose proof (Byte.to_N_bounded b). lia. Qed.

Lemma get_u8_at (data : list byte) (k : nat) (b : byte) :
  nth_error data k = Some b -> get_u8 data (of_nat k) = VNum (of_Z (byteZ b)).
Proof. intros H. unfold get_u8, read. now rewrite index_of_nat, H. Qed.

(** A waveform byte [b] becomes [b / 128 - 1]. *)
Lemma normalized_byte (b : byte) :
  exists x : Q,
    normalized (VNum (of_Z (byteZ b))) = Fin x
    /\ x == inject_Z (byteZ b) / 128 - 1
    /\ -1 <= x <= 127 # 128.
Proof.
  pose proof (byte_range b) as Hb.
  unfold normalized. cbn [ToNumber]. unfold of_Z. rewrite div_fin by discriminate.
  cbn [sub neg add fin]. eexists. split; [reflexivity|].
  rewrite !Qred_correct. split; [reflexivity|].
  set (q := inject_Z (byteZ b) / 128).
  assert (Hq : 0 <= q <= 255 # 128).
  { unfold q. split.
    - apply Qle_shift_div_l; [reflexivity|]. rewrite Qmult_0_l.
      change 0 with (inject_Z 0). rewrite <- Zle_Qle. lia.
    - apply Qle_shift_div_r; [reflexivity|].
      assert (H : inject_Z (byteZ b) <= inject_Z 255) by (rewrite <- Zle_Qle; lia).
      change (inject_Z 255) with 255 in H.
      assert (H' : (255 # 128) * 128 == 255) by reflexivity.
      rewrite H'. exact H. }
  split; lra.
Qed.

(** The sum of the magnitudes of the first [k] waveform samples. *)
Lemma volume_sum (timeData : list byte) (k : nat) :
  (k <= length timeData)%nat ->
  exists s : Q,
    for_range 0 k (scan_volume timeData) (Fin 0) = Fin s
    /\ 0 <= s <= inject_Z (Z.of_nat k).
Proof.
  induction k as [|k IH]; intros Hk.
  - exists 0. split; [reflexivity|]. split; [lra|]. change (inject_Z (Z.of_nat 0)) with 0. lra.
  - destruct IH as (s & Hloop & Hs); [lia|].
    rewrite for_range_S, Hloop. cbn [Nat.add].
    destruct (nth_error timeData k) as [b|] eqn:Hb;
      [|apply nth_error_None in Hb; lia].
    unfold scan_volume. rewrite (get_u8_at _ _ Hb).
    destruct (normalized_byte b) as (x & -> & _ & Hx).
    cbn [Math_abs]. unfold fin. rewrite add_fin. unfold fin.
    eexists. split; [reflexivity|]. rewrite !Qred_correct.
    rewrite Nat2Z.inj_succ, <- Z.add_1_r, inject_Z_plus. change (inject_Z 1) with 1.
    assert (Habs : 0 <= Qabs x <= 1).
    { split; [apply Qabs_nonneg|]. apply Qabs_Qle_condition. split; lra. }
    lra.
Qed.

(** The first loop finds the first bin that holds the largest magnitude. *)
Lemma scan_max_first (fd : list byte) (k : nat) :
  (k <= length fd)%nat ->
  exists (mi : nat) (m : Z),
    for_range 0 k (scan_max fd) (0%nat, Fin 0) = (mi, of_Z m)
    /\ (forall j b, (j < k)%nat -> nth_error fd j = Some b -> (byteZ b <= m)%Z)
    /\ (forall j b, (j < mi)%nat -> nth_error fd j = Some b -> (byteZ b < m)%Z)
    /\ ((m = 0%Z /\ mi = 0%nat)
        \/ (0 < m)%Z /\ (mi < k)%nat
           /\ exists b, nth_error fd mi = Some b /\ byteZ b = m).
Proof.
  induction k as [|k IH]; intros Hk.
  - exists 0%nat, 0%Z. repeat split; lia.
  - destruct IH as (mi & m & Hloop & Hall & Hfirst & Hat); [lia|].
    assert (Hmi : (mi <= k)%nat) by (destruct Hat as [[_ ->]|(_ & H & _)]; lia).
    rewrite for_range_S, Hloop. cbn [Nat.add].
    destruct (nth_error fd k) as [b|] eqn:Hb;
      [|apply nth_error_None in Hb; lia].
    unfold scan_max. rewrite (get_u8_at _ _ Hb). cbn [ToNumber snd].
    rewrite gtb_of_Z. destruct (Z.ltb_spec m (byteZ b)) as [Hlt|Hge].
    + exists k, (byteZ b). split; [reflexivity|]. split; [|split].
      * intros j c Hj Hc. destruct (Nat.eq_dec j k) as [->|Hne].
        -- rewrite Hb in Hc. injection Hc as <-. lia.
        -- pose proof (Hall j c ltac:(lia) Hc). lia.
      * intros j c Hj Hc. pose proof (Hall j c Hj Hc). lia.
      * right. pose proof (byte_range b).
        assert (0 <= m)%Z.
        { destruct Hat as [[-> _]|(H0 & _)]; lia. }
        repeat split; try lia. now exists b.
    + exists mi, m. split; [reflexivity|]. split; [|split].
      * intros j c Hj Hc. destruct (Nat.eq_dec j k) as [->|Hne].
        -- rewrite Hb in Hc. injection Hc as <-. lia.
        -- apply (Hall j c); [lia|exact Hc].
      * exact Hfirst.
      * destruct Hat as [Hz|(Hp & Hi & Hex)]; [now left|right].
        repeat split; auto; lia.
Qed.

Section WithEngine.
Context {E : Engine}.

(** X11: for a frame whose waveform has [bufferLength] samples, one at
    least, the output waveform has as many samples, sample [b] becoming
    [b / 128 - 1], a number from -1 to 127/128 (the value 1 is never
    reached), and [volume] is a number between 0 and 1. *)
Theorem waveform_and_volume_ranges (audioData : AudioData)
    (options : DataProcessorOptions) :
  valid_length (bufferLength audioData) ->
  (1 <= bufferLength audioData)%Z ->
  length (timeData audioData) = Z.to_nat (bufferLength audioData) ->
  exists r : Processed.t,
    processAudioData audioData options = Normal r
    /\ length (Processed.timeData r) = length (timeData audioData)
    /\ (forall (i : nat) (b : byte),
          nth_error (timeData audioData) i = Some b ->
          exists x : Q,
            nth_error (Processed.timeData r) i = Some (VNum (Fin x))
            /\ x == inject_Z (byteZ b) / 128 - 1
            /\ -1 <= x <= 127 # 128)
    /\ between 0 1 (Processed.volume r).
Proof.
  intros Hvalid Hone Hlen.
  pose proof (processAudioData_unfold audioData options Hvalid) as H.
  cbv zeta in H.
  destruct (for_range 0 _ (scan_max (frequencyData audioData)) _) as [mi mv].
  eexists. split; [exact H|].
  cbn [Processed.timeData Processed.volume]. rewrite <- Hlen.
  split; [now rewrite length_map, length_seq|]. split.
  - intros i b Hb.
    assert (Hi : (i < length (timeData audioData))%nat)
      by (apply nth_error_Some; now rewrite Hb).
    destruct (normalized_byte b) as (x & Hx & Hval & Hrange).
    exists x. split; [|now split].
    rewrite nth_error_map, nth_error_seq.
    destruct (Nat.ltb_spec i (length (timeData audioData))); [|lia].
    cbn [option_map Nat.add]. now rewrite (get_u8_at _ _ Hb), Hx.
  - destruct (@volume_sum (timeData audioData) (length (timeData audioData))
                (Nat.le_refl _)) as (s & -> & Hs).
    rewrite Hlen, Z2Nat.id in Hs by lia.
    set (n := inject_Z (bufferLength audioData)) in *.
    assert (Hn : 0 < n) by (unfold n, Qlt, inject_Z; simpl; lia).
    unfold of_Z. fold n. rewrite div_fin by lra.
    eexists. split; [reflexivity|]. rewrite Qred_correct. split.
    + apply Qle_shift_div_l; [exact Hn|lra].
    + apply Qle_shift_div_r; [exact Hn|lra].
Qed.

(** X12: for a frame whose spectrum has [bufferLength] bins, one at least,
    and a finite sample rate, [dominant.index] is the first bin that holds
    the largest magnitude [m] (bin 0 when all magnitudes are 0):
    every bin is at most [m], every earlier bin is below it.
    [dominant.amplitude] and [peakLevel] are [m / 255], and
    [dominant.frequency] is [index * (sampleRate / 2) / bufferLength]. *)
Theorem dominant_is_first_maximum (audioData : AudioData)
    (options : DataProcessorOptions) (rate : Q) :
  valid_length (bufferLength audioData) ->
  (1 <= bufferLength audioData)%Z ->
  length (frequencyData audioData) = Z.to_nat (bufferLength audioData) ->
  sampleRate audioData = Fin rate ->
  exists (r : Processed.t) (m : Z),
    processAudioData audioData options = Normal r
    /\ (Processed.index (Processed.dominant r) < length (frequencyData audioData))%nat
    /\ (forall j b, nth_error (frequencyData audioData) j = Some b -> (byteZ b <= m)%Z)
    /\ (forall j b, (j < Processed.index (Processed.dominant r))%nat ->
          nth_error (frequencyData audioData) j = Some b -> (byteZ b < m)%Z)
    /\ ((0 < m)%Z ->
          exists b, nth_error (frequencyData audioData)
                      (Processed.index (Processed.dominant r)) = Some b
                    /\ byteZ b = m)
    /\ (m = 0%Z -> Processed.index (Processed.dominant r) = 0%nat)
    /\ Processed.amplitude (Processed.dominant r) = fin (inject_Z m / 255)
    /\ Processed.peakLevel r = fin (inject_Z m / 255)
    /\ Processed.frequency (Processed.dominant r)
       = fin (inject_Z (Z.of_nat (Processed.index (Processed.dominant r))) * (rate / 2)
              / inject_Z (bufferLength audioData)).
Proof.
  intros Hvalid Hone Hlen Hrate.
  pose proof (processAudioData_unfold audioData options Hvalid) as H.
  cbv zeta in H. rewrite <- Hlen in H.
  destruct (@scan_max_first (frequencyData audioData) (length (frequencyData audioData))
              (Nat.le_refl _)) as (mi & m & Hloop & Hall & Hfirst & Hat).
  rewrite Hloop in H. eexists. exists m. split; [exact H|].
  cbn [Processed.dominant Processed.index Processed.amplitude Processed.peakLevel
       Processed.frequency].
  assert (Hamp : div (of_Z m) (Fin 255) = fin (inject_Z m / 255))
    by (unfold of_Z; now rewrite div_fin by discriminate).
  split; [|split; [|split; [|split; [|split; [|split; [|split]]]]]].
  - destruct Hat as [[_ ->]|(_ & Hmi & _)]; lia.
  - intros j b Hb. apply (Hall j b); [|exact Hb].
    apply nth_error_Some. now rewrite Hb.
  - exact Hfirst.
  - intros Hm. destruct Hat as [[-> _]|(_ & _ & Hb)]; [lia|exact Hb].
  - intros ->. destruct Hat as [[_ ->]|(Hm & _)]; [reflexivity|lia].
  - exact Hamp.
  - exact Hamp.
  - rewrite Hrate. rewrite (@div_fin rate 2) by discriminate.
    unfold of_nat, of_Z, fin. rewrite mul_fin. unfold fin.
    set (n := inject_Z (bufferLength audioData)).
    assert (Hn : 0 < n) by (unfold n, Qlt, inject_Z; simpl; lia).
    rewrite div_fin by lra. apply fin_Qeq. now rewrite !Qred_correct.
Qed.

End WithEngine.

Lemma waveform_and_volume_ranges_witness :
  valid_length (bufferLength small_frame)
  /\ (1 <= bufferLength small_frame)%Z
  /\ length (timeData small_frame) = Z.to_nat (bufferLength small_frame)
  /\ exists r : Processed.t,
       processAudioData (E := Reference.engine) small_frame no_options = Normal r
       /\ between 0 1 (Processed.volume r).
Proof.
  assert (H1 : valid_length (bufferLength small_frame)) by (unfold valid_length; simpl; lia).
  assert (H2 : (1 <= bufferLength small_frame)%Z) by (simpl; lia).
  assert (H3 : length (timeData small_frame) = Z.to_nat (bufferLength small_frame))
    by reflexivity.
  repeat (split; [assumption|]).
  destruct (@waveform_and_volume_ranges Reference.engine small_frame no_options H1 H2 H3)
    as (r & Hr & _ & _ & Hvol).
  now exists r.
Defined.

Lemma dominant_is_first_maximum_witness :
  valid_length (bufferLength small_frame)
  /\ (1 <= bufferLength small_frame)%Z
  /\ length (frequencyData small_frame) = Z.to_nat (bufferLength small_frame)
  /\ exists (r : Processed.t) (m : Z),
       processAudioData (E := Reference.engine) small_frame no_options = Normal r
       /\ Processed.peakLevel r = fin (inject_Z m / 255)
       /\ Processed.frequency (Processed.dominant r)
          = fin (inject_Z (Z.of_nat (Processed.index (Processed.dominant r)))
                 * (44100 / 2) / inject_Z (bufferLength small_frame)).
Proof.
  assert (H1 : valid_length (bufferLength small_frame)) by (unfold valid_length; simpl; lia).
  assert (H2 : (1 <= bufferLength small_frame)%Z) by (simpl; lia).
  assert (H3 : length (frequencyData small_frame) = Z.to_nat (bufferLength small_frame))
    by reflexivity.
  repeat (split; [assumption|]).
  destruct (@dominant_is_first_maximum Reference.engine small_frame no_options 44100
              H1 H2 H3 eq_refl) as (r & m & Hr & _ & _ & _ & _ & _ & _ & Hpeak & Hfreq).
  now exists r, m.
Defined.

End ProcessProperties.

(* ================================================================== *)
(** * [extractFrequencyBands]: defaults and saturation *)
(* ================================================================== *)

Module BandProperties.
Import JS AudioProcessor Facts ClosedForm ProcessFacts Examples Notions.

Lemma nth_last_index (A : Type) (l : list A) (d : A) : nth (length l - 1) l d = last l d.
Proof.
  induction l as [|x l IH]; [reflexivity|].
  destruct l as [|y l]; [reflexivity|].
  replace (length (x :: y :: l) - 1)%nat with (Datatypes.S (length (y :: l) - 1))
    by (cbn [length]; lia).
  exact IH.
Qed.

Lemma extract_defaults (frequencyData : list number) (bands : option (list number))
    (sampleRate bufferLength : option number) :
  extractFrequencyBands frequencyData bands sampleRate bufferLength
  = map (fun c => get_num frequencyData
                    (band_index_number c (or_default (Fin 44100) sampleRate)
                       (or_default (of_nat (length frequencyData)) bufferLength)))
        (or_default default_bands bands).
Proof.
  rewrite <- BandTheorems.extract_map.
  now destruct bands, sampleRate, bufferLength.
Qed.

(** A centre at the Nyquist frequency or above reads the last bin. *)
Lemma band_index_saturates (c r : Q) (n : Z) :
  0 < r -> r / 2 <= c -> (1 <= n)%Z -> band_index c r n = (n - 1)%Z.
Proof.
  intros Hr Hc Hn. unfold band_index.
  pose proof (half_pos Hr) as Hnyq. set (nyq := r / 2) in *.
  assert (Hnq : 0 < inject_Z n) by (unfold Qlt, inject_Z; simpl; lia).
  assert (Hx : inject_Z n <= c * inject_Z n / nyq + (1 # 2)).
  { assert (inject_Z n <= c * inject_Z n / nyq)
      by (apply Qle_shift_div_l; [exact Hnyq|nra]).
    lra. }
  apply Qfloor_resp_le in Hx. rewrite Qfloor_Z in Hx. lia.
Qed.

(** X13: for a spectrum that is not empty, a positive sample rate and band
    centres that are not negative, with [bufferLength] left to its default,
    [extractFrequencyBands] returns one magnitude of the spectrum per band
    (never [undefined]), and a centre at the Nyquist frequency or above
    gives the last bin.  This covers the ten default bands. *)
Theorem bands_read_inside (frequencyData : list number) (bands : option (list number))
    (sampleRate : option number) (centres : list Q) (r : Q) :
  or_default default_bands bands = map Fin centres ->
  or_default (Fin 44100) sampleRate = Fin r ->
  0 < r -> frequencyData <> [] -> Forall (fun c => 0 <= c) centres ->
  let out := extractFrequencyBands frequencyData bands sampleRate None in
  length out = length centres
  /\ Forall (fun v => exists x, v = VNum x /\ In x frequencyData) out
  /\ forall (k : nat) (c : Q),
       nth_error centres k = Some c -> r / 2 <= c ->
       nth_error out k = Some (VNum (last frequencyData NaN)).
Proof.
  intros Hbands Hrate Hr Hne Hcentres out.
  assert (Hn : (1 <= Z.of_nat (length frequencyData))%Z)
    by (destruct frequencyData; [congruence|cbn [length]; lia]).
  assert (Hout : out = map (fun c => VNum (nth (Z.to_nat (band_index c r
                                                  (Z.of_nat (length frequencyData))))
                                            frequencyData NaN)) centres).
  { unfold out. rewrite extract_defaults, Hbands, Hrate. cbn [or_default].
    rewrite map_map. apply map_ext_in. intros c Hc.
    rewrite Forall_forall in Hcentres.
    unfold of_nat. rewrite BandTheorems.band_index_number_finite by exact Hr.
    pose proof (BandTheorems.band_index_bounds Hr (Hcentres c Hc) Hn).
    apply BandTheorems.get_num_inside. lia. }
  rewrite Hout. split; [apply length_map|]. split.
  - apply Forall_forall. intros v Hv. apply in_map_iff in Hv.
    destruct Hv as (c & <- & Hc). eexists. split; [reflexivity|].
    rewrite Forall_forall in Hcentres.
    pose proof (BandTheorems.band_index_bounds Hr (Hcentres c Hc) Hn).
    apply nth_In. lia.
  - intros k c Hk Hc. rewrite nth_error_map, Hk. cbn [option_map].
    rewrite (band_index_saturates Hr Hc Hn).
    replace (Z.to_nat (Z.of_nat (length frequencyData) - 1))
      with (length frequencyData - 1)%nat by lia.
    now rewrite nth_last_index.
Qed.

Lemma bands_read_inside_witness :
  0 < 44100 /\ four_bins <> []
  /\ length (extractFrequencyBands four_bins None None None) = 10%nat
  /\ Forall (fun v => exists x, v = VNum x /\ In x four_bins)
            (extractFrequencyBands four_bins None None None).
Proof.
  assert (H1 : 0 < 44100) by reflexivity.
  assert (H2 : four_bins <> []) by discriminate.
  assert (H3 : Forall (fun c => 0 <= c)
                 (map inject_Z [60; 170; 310; 600; 1000; 3000; 6000; 12000; 14000; 16000]%Z))
    by (repeat constructor; discriminate).
  repeat (split; [assumption|]).
  destruct (@bands_read_inside four_bins None None
              (map inject_Z [60; 170; 310; 600; 1000; 3000; 6000; 12000; 14000; 16000]%Z)
              44100 eq_refl eq_refl H1 H2 H3)
    as (Hlen & Hall & _).
  split; [exact Hlen|exact Hall].
Defined.

End BandProperties.

(* ================================================================== *)
(** * [calculateSpectrumCharacteristics]: centroid and spread *)
(* ================================================================== *)

Module SpectrumProperties.
Import JS AudioProcessor Facts ClosedForm ProcessFacts Examples Notions.

Lemma Qsum_snoc (l : list Q) (x : Q) : Qsum (l ++ [x]) == Qsum l + x.
Proof.
  induction l as [|y l IH]; cbn [app Qsum fold_right]; [ring|].
  fold (Qsum (l ++ [x])). fold (Qsum l). rewrite IH. ring.
Qed.

Lemma Qsum_seq_S (f : nat -> Q) (k : nat) :
  Qsum (map f (seq 0 (Datatypes.S k))) == Qsum (map f (seq 0 k)) + f k.
Proof. rewrite seq_S, map_app. cbn [map Nat.add]. apply Qsum_snoc. Qed.

Lemma nth_seq_all (l : list Q) : map (fun i => nth i l 0) (seq 0 (length l)) = l.
Proof.
  apply nth_error_ext. intros k. rewrite nth_error_map.
  destruct (Nat.lt_ge_cases k (length l)) as [Hk|Hk].
  - rewrite nth_error_seq. destruct (Nat.ltb_spec k (length l)); [|lia].
    cbn [option_map Nat.add]. symmetry. now apply nth_error_nth'.
  - rewrite (proj2 (nth_error_None _ _)) by now rewrite length_seq.
    now rewrite (proj2 (nth_error_None l k)).
Qed.

Lemma get_amplitude (amps : list Q) (k : nat) :
  (k < length amps)%nat ->
  ToNumber (get_num (map Fin amps) (of_nat k)) = Fin (nth k amps 0).
Proof.
  intros Hk. unfold get_num, read. rewrite index_of_nat, nth_error_map.
  now rewrite (nth_error_nth' amps 0 Hk).
Qed.

(** [i * nyquist / bufferLength] as the model computes it. *)
Lemma frequency_of_bin (r : Q) (n k : nat) :
  (0 < n)%nat ->
  exists f : Q,
    div (mul (of_nat k) (div (Fin r) (Fin 2))) (of_nat n) = Fin f
    /\ f == bin_frequency r n k.
Proof.
  intros Hn. rewrite (@div_fin r 2) by discriminate.
  unfold of_nat, of_Z, fin. rewrite mul_fin. unfold fin.
  assert (Hpos : 0 < inject_Z (Z.of_nat n)) by (unfold Qlt, inject_Z; simpl; lia).
  rewrite div_fin by lra. eexists. split; [reflexivity|].
  unfold bin_frequency. now rewrite !Qred_correct.
Qed.

(** The square of a finite number. *)
Lemma square_fin (E : Engine) (d : Q) :
  exists e : Q, Math_pow (Fin d) (Fin 2) = Fin e /\ e == d * d.
Proof.
  unfold Math_pow. change (Qeq_bool 2 0) with false. cbv iota.
  change (Qltb 0 2) with true. change (is_integer 2) with true.
  change (Qfloor 2) with 2%Z. cbv iota.
  destruct (Qeq_bool d 0) eqn:Hzero.
  - exists 0. split; [reflexivity|]. apply Qeq_bool_iff in Hzero. rewrite Hzero. ring.
  - eexists. split; [reflexivity|]. rewrite Qred_correct. simpl. reflexivity.
Qed.

Section WithEngine.
Context {E : Engine}.

(** The sum and the weighted sum after [k] rounds of the first loop. *)
Lemma accumulate_sums (amps : list Q) (r : Q) (k : nat) :
  (k <= length amps)%nat ->
  exists (qs qw : Q) (p : number),
    for_range 0 k (accumulate (map Fin amps) (div (Fin r) (Fin 2))
                              (of_nat (length amps)))
              (Fin 0, Fin 0, Fin 1)
    = (Fin qs, Fin qw, p)
    /\ qs == Qsum (map (fun i => nth i amps 0) (seq 0 k))
    /\ qw == weighted_sum r amps k.
Proof.
  induction k as [|k IH]; intros Hk.
  - exists 0, 0, (Fin 1). repeat split; reflexivity.
  - destruct IH as (qs & qw & p & Hloop & Hs & Hw); [lia|].
    rewrite for_range_S, Hloop. cbn [Nat.add]. unfold accumulate.
    rewrite get_amplitude by lia.
    destruct (@frequency_of_bin r (length amps) k ltac:(lia)) as (f & -> & Hf).
    rewrite !add_fin, mul_fin. unfold fin at 2. rewrite add_fin.
    destruct (gtb (Fin (nth k amps 0)) (Fin 0));
      (eexists _, _, _; split; [reflexivity|]; split;
       [ rewrite Qred_correct, Hs, Qsum_seq_S; reflexivity
       | unfold weighted_sum; rewrite !Qred_correct, Qsum_seq_S, Hf;
         fold (weighted_sum r amps k); rewrite Hw; reflexivity ]).
Qed.

(** The loop of the spread after [k] rounds. *)
Lemma accumulate_deviation (amps : list Q) (r c : Q) (k : nat) :
  (k <= length amps)%nat ->
  exists qd : Q,
    for_range 0 k (accumulate_spread (map Fin amps) (div (Fin r) (Fin 2))
                                     (of_nat (length amps)) (Fin c))
              (Fin 0)
    = Fin qd
    /\ qd == squared_deviation r c amps k.
Proof.
  induction k as [|k IH]; intros Hk.
  - exists 0. split; reflexivity.
  - destruct IH as (qd & Hloop & Hd); [lia|].
    rewrite for_range_S, Hloop. cbn [Nat.add]. unfold accumulate_spread.
    rewrite get_amplitude by lia.
    destruct (@frequency_of_bin r (length amps) k ltac:(lia)) as (f & -> & Hf).
    change (sub (Fin f) (Fin c)) with (Fin (Qred (f + Qred (- c)))).
    destruct (square_fin E (Qred (f + Qred (- c)))) as (e & -> & He).
    rewrite mul_fin. unfold fin at 1. rewrite add_fin.
    eexists. split; [reflexivity|].
    unfold squared_deviation. rewrite !Qred_correct, Qsum_seq_S, He, !Qred_correct, Hf.
    fold (squared_deviation r c amps k). rewrite Hd. unfold Qminus. reflexivity.
Qed.

End WithEngine.



Lemma squared_deviation_nonneg (r c : Q) (amps : list Q) (k : nat) :
  Forall (fun a => 0 <= a) amps -> (k <= length amps)%nat ->
  0 <= squared_deviation r c amps k.
Proof.
  intros Hamps. induction k as [|k IH]; intros Hk.
  - unfold squared_deviation. cbn [seq map Qsum fold_right]. lra.
  - unfold squared_deviation in *. rewrite Qsum_seq_S.
    assert (Ha : 0 <= nth k amps 0).
    { rewrite Forall_forall in Hamps. apply Hamps, nth_In. lia. }
    specialize (IH ltac:(lia)).
    set (d := bin_frequency r (length amps) k - c).
    assert (0 <= d * d) by nra.
    assert (0 <= d * d * nth k amps 0) by (apply Qmult_le_0_compat; assumption).
    lra.
Qed.

Section Theorems.
Context {E : Engine}.


(** X15: for amplitudes that are not negative with a positive total, the
    spread is the square root of [sum of (freq_i - centroid)^2 * amp_i] over
    the total amplitude, a quantity that is never negative: the spread is a
    finite number, never [NaN]. *)
Theorem spread_root_of_variance (amps : list Q) (sampleRate : option number) (r : Q) :
  or_default (Fin 44100) sampleRate = Fin r ->
  Forall (fun a => 0 <= a) amps ->
  0 < Qsum amps ->
  let result := calculateSpectrumCharacteristics (map Fin amps) sampleRate in
  exists c v : Q,
    Spectrum.centroid result = Fin c
    /\ v == squared_deviation r c amps (length amps) / Qsum amps
    /\ 0 <= v
    /\ Spectrum.spread result = Math_sqrt (Fin v)
    /\ is_finite (Spectrum.spread result) = true.
Proof.
  intros Hrate Hamps Hpos result.
  destruct (@accumulate_sums amps r (length amps) (Nat.le_refl _))
    as (qs & qw & p & Hloop & Hs & Hw).
  rewrite nth_seq_all in Hs.
  assert (Hq : 0 < qs) by lra.
  destruct (@accumulate_deviation E amps r (Qred (qw / qs)) (length amps) (Nat.le_refl _))
    as (qd & Hdev & Hd).
  pose proof (@squared_deviation_nonneg r (Qred (qw / qs)) amps (length amps) Hamps
                (Nat.le_refl _)) as Hnonneg.
  assert (Hv : 0 <= qd / qs) by (apply Qle_shift_div_l; [exact Hq|lra]).
  assert (Hspread : Spectrum.spread result = Math_sqrt (Fin (Qred (qd / qs)))
                    /\ Spectrum.centroid result = Fin (Qred (qw / qs))).
  { unfold result, calculateSpectrumCharacteristics.
    rewrite Hrate, length_map, Hloop. cbn [Spectrum.spread Spectrum.centroid].
    unfold gtb at 1 2 3, ltb. replace (Qltb 0 qs) with true by (symmetry; now apply Qltb_lt).
    rewrite (@div_fin qw qs) by lra. unfold fin at 1 2. rewrite Hdev.
    rewrite div_fin by lra. now split. }
  destruct Hspread as [Hspread Hcentroid].
  exists (Qred (qw / qs)), (Qred (qd / qs)).
  split; [exact Hcentroid|]. split.
  { rewrite Qred_correct. unfold Qdiv. apply Qmult_comp; [exact Hd|].
    apply Qinv_comp. exact Hs. }
  split; [now rewrite Qred_correct|]. split; [exact Hspread|].
  rewrite Hspread. unfold Math_sqrt.
  destruct (Qltb (Qred (qd / qs)) 0) eqn:Hneg.
  - apply Qltb_lt in Hneg. rewrite Qred_correct in Hneg. lra.
  - now destruct (Qeq_bool (Qred (qd / qs)) 0).
Qed.

End Theorems.


Lemma spread_root_of_variance_witness :
  Forall (fun a => 0 <= a) [1; 0; 3; 0]
  /\ 0 < Qsum [1; 0; 3; 0]
  /\ is_finite (Spectrum.spread
                  (calculateSpectrumCharacteristics (E := Reference.engine)
                     (map Fin [1; 0; 3; 0]) None)) = true.
Proof.
  assert (H1 : Forall (fun a => 0 <= a) [1; 0; 3; 0]) by (repeat constructor; discriminate).
  assert (H2 : 0 < Qsum [1; 0; 3; 0]) by reflexivity.
  split; [exact H1|]. split; [exact H2|].
  destruct (@spread_root_of_variance Reference.engine [1; 0; 3; 0] None 44100 eq_refl H1 H2)
    as (c & v & _ & _ & _ & _ & Hfinite).
  exact Hfinite.
Defined.

End SpectrumProperties.

(* ================================================================== *)
(** * [useProcessedAudioData]: the smoothing of the effect *)
(* ================================================================== *)

Module SmoothingProperties.
Import JS AudioProcessor ProcessedAudioData Facts ClosedForm ProcessFacts Examples Notions.

(** A smoothing loop, slot by slot. *)
Lemma smooth_array_slots (smoothingFactor inverseFactor : number)
    (prev data : list value) :
  length (smooth_array smoothingFactor inverseFactor prev data) = length data
  /\ forall i : nat,
       nth_error (smooth_array smoothingFactor inverseFactor prev data) i
       = option_map (blend smoothingFactor inverseFactor (nth_error prev i))
                    (nth_error data i).
Proof.
  unfold smooth_array.
  set (body := fun (i : nat) (data : list value) =>
                 if (i <? length prev)%nat
                 then set data i
                        (VNum (add (mul smoothingFactor (ToNumber (get prev (of_nat i))))
                                   (mul inverseFactor (ToNumber (get data (of_nat i))))))
                 else data).
  assert (H : forall k, (k <= length data)%nat ->
            length (for_range 0 k body data) = length data
            /\ forall i,
                 nth_error (for_range 0 k body data) i
                 = if (i <? k)%nat
                   then option_map (blend smoothingFactor inverseFactor (nth_error prev i))
                                   (nth_error data i)
                   else nth_error data i).
  { induction k as [|k IH]; intros Hk.
    - split; [reflexivity|]. intros i. reflexivity.
    - destruct IH as [Hlen Hnth]; [lia|].
      rewrite for_range_S. cbn [Nat.add].
      set (arr := for_range 0 k body data) in *.
      assert (Hd : exists d, nth_error data k = Some d).
      { destruct (nth_error data k) as [d|] eqn:Hd; [now exists d|].
        apply nth_error_None in Hd. lia. }
      destruct Hd as [d Hd].
      assert (Hold : nth_error arr k = Some d).
      { rewrite Hnth. destruct (Nat.ltb_spec k k); [lia|exact Hd]. }
      unfold body. cbv beta. destruct (Nat.ltb_spec k (length prev)) as [Hp|Hp].
      + assert (Hprev : exists p, nth_error prev k = Some p).
        { destruct (nth_error prev k) as [p|] eqn:Hpk; [now exists p|].
          apply nth_error_None in Hpk. lia. }
        destruct Hprev as [p Hprev].
        split; [rewrite length_set_inside; lia|].
        intros i. destruct (Nat.eq_dec i k) as [->|Hne].
        * rewrite nth_error_set_same.
          destruct (Nat.ltb_spec k (Datatypes.S k)); [|lia].
          rewrite Hd, Hprev. cbn [option_map blend]. unfold get.
          now rewrite !index_of_nat, Hprev, Hold.
        * rewrite nth_error_set_other by lia. rewrite Hnth.
          destruct (Nat.ltb_spec i k); destruct (Nat.ltb_spec i (Datatypes.S k));
            try lia; reflexivity.
      + split; [exact Hlen|]. intros i. rewrite Hnth.
        destruct (Nat.eq_dec i k) as [->|Hne].
        * destruct (Nat.ltb_spec k k); [lia|].
          destruct (Nat.ltb_spec k (Datatypes.S k)); [|lia].
          rewrite Hd. rewrite (proj2 (nth_error_None prev k)) by lia. reflexivity.
        * destruct (Nat.ltb_spec i k); destruct (Nat.ltb_spec i (Datatypes.S k));
            try lia; reflexivity. }
  destruct (H (length data) (Nat.le_refl _)) as [Hlen Hnth].
  split; [exact Hlen|]. intros i. rewrite Hnth.
  destruct (Nat.ltb_spec i (length data)) as [Hi|Hi]; [reflexivity|].
  now rewrite (proj2 (nth_error_None data i)).
Qed.

(** The smoothing factor: the option clamped to the unit interval. *)
Lemma clamp_unit (smoothing : number) :
  smoothing <> NaN ->
  exists f : Q,
    Math_min (Math_max smoothing (Fin 0)) (Fin 1) = Fin f
    /\ 0 <= f <= 1
    /\ (geb smoothing (Fin 1) = true -> f == 1).
Proof.
  intros Hnan. destruct smoothing as [q| | |]; [| | |congruence].
  - unfold Math_max, ltb. destruct (Qltb q 0) eqn:H0.
    + exists 0. split; [reflexivity|]. split; [lra|].
      unfold geb, leb. intros H1. apply Qle_bool_iff in H1. apply Qltb_lt in H0. lra.
    + unfold Math_min, ltb. apply Qltb_ge in H0. destruct (Qltb 1 q) eqn:H1.
      * exists 1. split; [reflexivity|]. split; [lra|reflexivity].
      * apply Qltb_ge in H1. exists q. split; [reflexivity|]. split; [lra|].
        unfold geb, leb. intros H2. apply Qle_bool_iff in H2. lra.
  - exists 1. split; [reflexivity|]. split; [lra|reflexivity].
  - exists 0. split; [reflexivity|]. split; [lra|]. discriminate.
Qed.

(** A blend of two numbers of a range stays in the range. *)
Lemma blend_between (f p d lo hi : Q) :
  0 <= f <= 1 -> lo <= p <= hi -> lo <= d <= hi ->
  between lo hi (add (mul (Fin f) (Fin p)) (mul (sub (Fin 1) (Fin f)) (Fin d))).
Proof.
  intros Hf Hp Hd.
  change (sub (Fin 1) (Fin f)) with (Fin (Qred (1 + Qred (- f)))).
  rewrite !mul_fin. unfold fin at 1 2. rewrite add_fin. unfold fin.
  eexists. split; [reflexivity|]. rewrite !Qred_correct.
  assert (H1 : 0 <= f * (p - lo)) by (apply Qmult_le_0_compat; lra).
  assert (H2 : 0 <= (1 - f) * (d - lo)) by (apply Qmult_le_0_compat; lra).
  assert (H3 : 0 <= f * (hi - p)) by (apply Qmult_le_0_compat; lra).
  assert (H4 : 0 <= (1 - f) * (hi - d)) by (apply Qmult_le_0_compat; lra).
  split; nra.
Qed.

(** With factor 1 the blend is the previous value. *)
Lemma blend_frozen (f p d : Q) :
  f == 1 ->
  same_number (Fin p) (add (mul (Fin f) (Fin p)) (mul (sub (Fin 1) (Fin f)) (Fin d))).
Proof.
  intros Hf.
  change (sub (Fin 1) (Fin f)) with (Fin (Qred (1 + Qred (- f)))).
  rewrite !mul_fin. unfold fin at 1 2. rewrite add_fin. unfold fin.
  eexists _, _. split; [reflexivity|]. split; [reflexivity|].
  rewrite !Qred_correct, Hf. ring.
Qed.

Lemma smooth_array_between (f lo hi : Q) (prev data : list value) :
  0 <= f <= 1 ->
  Forall (value_between lo hi) prev -> Forall (value_between lo hi) data ->
  Forall (value_between lo hi) (smooth_array (Fin f) (sub (Fin 1) (Fin f)) prev data).
Proof.
  intros Hf Hprev Hdata. remember (sub (Fin 1) (Fin f)) as g eqn:Hg.
  apply Forall_forall. intros v Hv.
  apply In_nth_error in Hv. destruct Hv as [i Hi].
  destruct (smooth_array_slots (Fin f) g prev data) as [_ Hnth].
  rewrite Hnth in Hi.
  destruct (nth_error data i) as [d|] eqn:Hd; [|discriminate].
  cbn [option_map] in Hi. injection Hi as <-.
  rewrite Forall_forall in Hprev, Hdata.
  pose proof (Hdata d (nth_error_In _ _ Hd)) as (qd & -> & Hqd).
  destruct (nth_error prev i) as [p|] eqn:Hp; cbn [blend].
  - pose proof (Hprev p (nth_error_In _ _ Hp)) as (qp & -> & Hqp). cbn [ToNumber].
    rewrite Hg. destruct (blend_between Hf Hqp Hqd) as (q & -> & Hq). now exists q.
  - now exists qd.
Qed.

(** X16: each smoothing loop keeps the length of the new array; a slot that
    the previous array also has receives
    [smoothingFactor * previous + inverseFactor * new], and a slot beyond
    the previous array keeps the new value. *)
Theorem smooth_array_blends_overlap (smoothingFactor inverseFactor : number)
    (prev data : list value) :
  length (smooth_array smoothingFactor inverseFactor prev data) = length data
  /\ (forall (i : nat) (p d : value),
        nth_error prev i = Some p -> nth_error data i = Some d ->
        nth_error (smooth_array smoothingFactor inverseFactor prev data) i
        = Some (VNum (add (mul smoothingFactor (ToNumber p))
                          (mul inverseFactor (ToNumber d)))))
  /\ (forall i : nat,
        (length prev <= i)%nat ->
        nth_error (smooth_array smoothingFactor inverseFactor prev data) i
        = nth_error data i).
Proof.
  destruct (smooth_array_slots smoothingFactor inverseFactor prev data) as [Hlen Hnth].
  split; [exact Hlen|]. split.
  - intros i p d Hp Hd. now rewrite Hnth, Hp, Hd.
  - intros i Hi. rewrite Hnth, (proj2 (nth_error_None prev i)) by exact Hi.
    now destruct (nth_error data i).
Qed.

(** X17: whatever the [smoothing] option is, as long as it is not [NaN],
    smoothing keeps the levels in their ranges: from previous and new
    magnitudes, volume and peak level in [[0, 1]] and waveforms in
    [[-1, 1]] it produces levels in the same ranges, in arrays of the
    lengths of the new ones. *)
Theorem smooth_keeps_ranges (smoothing : number) (prevValues : PrevValues.t)
    (newProcessedData : Processed.t) :
  smoothing <> NaN ->
  levels_in_range (PrevValues.frequencyData prevValues) (PrevValues.timeData prevValues)
                  (PrevValues.volume prevValues) (PrevValues.peakLevel prevValues) ->
  levels_in_range (Processed.frequencyData newProcessedData)
                  (Processed.timeData newProcessedData)
                  (Processed.volume newProcessedData)
                  (Processed.peakLevel newProcessedData) ->
  let out := smooth smoothing prevValues newProcessedData in
  levels_in_range (Processed.frequencyData out) (Processed.timeData out)
                  (Processed.volume out) (Processed.peakLevel out)
  /\ length (Processed.frequencyData out) = length (Processed.frequencyData newProcessedData)
  /\ length (Processed.timeData out) = length (Processed.timeData newProcessedData).
Proof.
  intros Hnan (Hpf & Hpt & Hpv & Hpp) (Hnf & Hnt & Hnv & Hnp) out.
  destruct (clamp_unit Hnan) as (f & Hf & Hrange & _).
  unfold out, smooth. rewrite Hf.
  cbn [Processed.frequencyData Processed.timeData Processed.volume Processed.peakLevel].
  split; [|split; apply smooth_array_slots].
  split; [now apply smooth_array_between|]. split; [now apply smooth_array_between|].
  destruct Hpv as (pv & -> & Hpv), Hnv as (nv & -> & Hnv).
  destruct Hpp as (pp & -> & Hpp), Hnp as (np & -> & Hnp).
  split; now apply blend_between.
Qed.

(** X18: with [smoothing] at 1 or above the factor is 1 and the new frame
    has no weight: the smoothed volume and peak level are the previous ones,
    and every slot that the previous arrays have keeps its previous value,
    for finite previous and new values. *)
Theorem smoothing_one_freezes (smoothing : number) (prevValues : PrevValues.t)
    (newProcessedData : Processed.t) (pv pp nv np : Q) :
  geb smoothing (Fin 1) = true ->
  PrevValues.volume prevValues = Fin pv ->
  PrevValues.peakLevel prevValues = Fin pp ->
  Processed.volume newProcessedData = Fin nv ->
  Processed.peakLevel newProcessedData = Fin np ->
  let out := smooth smoothing prevValues newProcessedData in
  same_number (Fin pv) (Processed.volume out)
  /\ same_number (Fin pp) (Processed.peakLevel out)
  /\ (forall (i : nat) (p d : Q),
        nth_error (PrevValues.frequencyData prevValues) i = Some (VNum (Fin p)) ->
        nth_error (Processed.frequencyData newProcessedData) i = Some (VNum (Fin d)) ->
        exists v, nth_error (Processed.frequencyData out) i = Some v
                  /\ same_value (VNum (Fin p)) v)
  /\ (forall (i : nat) (p d : Q),
        nth_error (PrevValues.timeData prevValues) i = Some (VNum (Fin p)) ->
        nth_error (Processed.timeData newProcessedData) i = Some (VNum (Fin d)) ->
        exists v, nth_error (Processed.timeData out) i = Some v
                  /\ same_value (VNum (Fin p)) v).
Proof.
  intros Hone Hpv Hpp Hnv Hnp out.
  assert (Hnan : smoothing <> NaN) by (intros ->; discriminate).
  destruct (clamp_unit Hnan) as (f & Hf & _ & Hfrozen).
  specialize (Hfrozen Hone).
  assert (Hslot : forall (prev data : list value) (i : nat) (p d : Q),
            nth_error prev i = Some (VNum (Fin p)) ->
            nth_error data i = Some (VNum (Fin d)) ->
            exists v, nth_error (smooth_array (Fin f) (sub (Fin 1) (Fin f)) prev data) i
                      = Some v
                      /\ same_value (VNum (Fin p)) v).
  { intros prev data i p d Hp Hd. remember (sub (Fin 1) (Fin f)) as g eqn:Hg.
    destruct (smooth_array_slots (Fin f) g prev data) as [_ Hnth].
    rewrite Hnth, Hp, Hd. cbn [option_map blend ToNumber].
    eexists. split; [reflexivity|]. rewrite Hg.
    destruct (@blend_frozen f p d Hfrozen) as (a & b & Ha & Hb & Hab).
    exists a, b. injection Ha as <-. now rewrite Hb. }
  unfold out, smooth. rewrite Hf, Hpv, Hpp, Hnv, Hnp.
  cbn [Processed.frequencyData Processed.timeData Processed.volume Processed.peakLevel].
  split; [now apply blend_frozen|]. split; [now apply blend_frozen|].
  split; intros i p d; apply Hslot.
Qed.

Section WithEngine.
Context {E : Engine}.

End WithEngine.

Lemma steady_levels_in_range :
  levels_in_range (Processed.frequencyData steady_levels) (Processed.timeData steady_levels)
                  (Processed.volume steady_levels) (Processed.peakLevel steady_levels).
Proof.
  repeat split.
  - repeat constructor; eexists; (split; [reflexivity|split; discriminate]).
  - repeat constructor; eexists; (split; [reflexivity|split; discriminate]).
  - eexists; (split; [reflexivity|split; discriminate]).
  - eexists; (split; [reflexivity|split; discriminate]).
Qed.

Lemma quiet_levels_in_range :
  levels_in_range (Processed.frequencyData quiet_levels) (Processed.timeData quiet_levels)
                  (Processed.volume quiet_levels) (Processed.peakLevel quiet_levels).
Proof.
  repeat split.
  - repeat constructor; eexists; (split; [reflexivity|split; discriminate]).
  - repeat constructor; eexists; (split; [reflexivity|split; discriminate]).
  - eexists; (split; [reflexivity|split; discriminate]).
  - eexists; (split; [reflexivity|split; discriminate]).
Qed.

Lemma smooth_keeps_ranges_witness :
  Fin (1 # 2) <> NaN
  /\ between 0 1 (Processed.volume (smooth (Fin (1 # 2)) (remember steady_levels) quiet_levels))
  /\ length (Processed.frequencyData
               (smooth (Fin (1 # 2)) (remember steady_levels) quiet_levels)) = 2%nat.
Proof.
  assert (H : Fin (1 # 2) <> NaN) by discriminate.
  split; [exact H|].
  destruct (@smooth_keeps_ranges (Fin (1 # 2)) (remember steady_levels) quiet_levels H
              steady_levels_in_range quiet_levels_in_range)
    as ((_ & _ & Hvolume & _) & Hlen & _).
  split; [exact Hvolume|exact Hlen].
Defined.

Lemma smoothing_one_freezes_witness :
  geb (Fin 1) (Fin 1) = true
  /\ same_number (Fin (1 # 2))
       (Processed.volume (smooth (Fin 1) (remember steady_levels) quiet_levels)).
Proof.
  assert (H : geb (Fin 1) (Fin 1) = true) by reflexivity.
  split; [exact H|].
  exact (proj1 (@smoothing_one_freezes (Fin 1) (remember steady_levels) quiet_levels
                  (1 # 2) 1 (1 # 16) (1 # 4) H eq_refl eq_refl eq_refl eq_refl)).
Defined.

End SmoothingProperties.
